(** * Session control plane: wire codec, socket directory, dispatcher, RPC client

    A shallow embedding of the session-control extension
    ([.pi/extensions/control.ts] and its [lib/control-*.ts] modules) and the
    properties its specification states about it.

    Conventions of the embedding:
    - a JavaScript string is a Rocq [string]; each character stands for one
      code unit below 256;
    - a parsed JSON value is a [json] tree; an object is the list of its own
      properties in enumeration order; [None] stands for [undefined];
    - asynchronous functions are run to completion in program order; a
      promise that rejects is a [Throw];
    - calls into the host session (the [ExtensionContext]) that the source
      does not wrap in [try] are taken to return normally. *)

From Stdlib Require Import ZArith Ascii String List Bool Lia.
From stdpp Require Import base option list strings gmap.

Local Open Scope Z_scope.
Local Open Scope stdpp_scope.

(** ** JavaScript string primitives *)

Module Js.

Definition str_eqb (a b : string) : bool := bool_decide (a = b).

(** [s.startsWith(p)] *)
Fixpoint startsWith (s p : string) : bool :=
  match p, s with
  | EmptyString, _ => true
  | String c p', String d s' => bool_decide (c = d) && startsWith s' p'
  | String _ _, EmptyString => false
  end.

(** [s.includes(p)] *)
Fixpoint includes (s p : string) : bool :=
  startsWith s p ||
  match s with
  | EmptyString => false
  | String _ s' => includes s' p
  end.

(** [s.endsWith(p)] *)
Fixpoint endsWith (s p : string) : bool :=
  str_eqb s p ||
  match s with
  | EmptyString => false
  | String _ s' => endsWith s' p
  end.

(** [s.slice(0, -n)] for a positive [n] *)
Definition dropEnd (n : nat) (s : string) : string :=
  String.substring 0 (String.length s - n) s.

(** White space and line terminators removed by [String.prototype.trim],
    among the code units below 256. *)
Definition isWhiteSpace (c : ascii) : bool :=
  match c with
  | "009" | "010" | "011" | "012" | "013" | " " | "160" => true
  | _ => false
  end%char.

Fixpoint trimStart (s : string) : string :=
  match s with
  | String c s' => if isWhiteSpace c then trimStart s' else s
  | EmptyString => EmptyString
  end.

Fixpoint trimEnd (s : string) : string :=
  match s with
  | EmptyString => EmptyString
  | String c s' =>
      match trimEnd s' with
      | EmptyString => if isWhiteSpace c then EmptyString else String c EmptyString
      | t => String c t
      end
  end.

Definition trim (s : string) : string := trimEnd (trimStart s).

(** [parts.join(sep)] *)
Fixpoint join (sep : string) (parts : list string) : string :=
  match parts with
  | [] => ""
  | [p] => p
  | p :: rest => p +:+ sep +:+ join sep rest
  end.

(** [s.split(sep)] for a one-character separator. *)
Fixpoint split (sep : ascii) (s : string) : list string :=
  match s with
  | EmptyString => [""]
  | String c s' =>
      if bool_decide (c = sep) then "" :: split sep s'
      else match split sep s' with
           | seg :: segs => String c seg :: segs
           | [] => [String c ""]
           end
  end.

(** The line feed, written [\n] in the source. *)
Definition LF : string := String "010"%char "".

(** Truthiness of a string: only the empty string is falsy. *)
Definition truthy (s : string) : bool := negb (str_eqb s "").

End Js.

(** ** POSIX [node:path] *)

Module Path.

Definition is_dots (seg : string) : bool := Js.str_eqb seg "..".
Definition is_skip (seg : string) : bool := Js.str_eqb seg "" || Js.str_eqb seg ".".

(** [normalizeString], on the segments between separators; [acc] holds the
    segments kept so far, last one first. *)
Fixpoint normalizeSegs (allowAboveRoot : bool) (acc segs : list string)
  : list string :=
  match segs with
  | [] => rev acc
  | seg :: rest =>
      if is_skip seg then normalizeSegs allowAboveRoot acc rest
      else if is_dots seg then
        match acc with
        | last :: acc' =>
            if is_dots last
            then normalizeSegs allowAboveRoot
                   (if allowAboveRoot then seg :: acc else acc) rest
            else normalizeSegs allowAboveRoot acc' rest
        | [] =>
            normalizeSegs allowAboveRoot
              (if allowAboveRoot then [seg] else []) rest
        end
      else normalizeSegs allowAboveRoot (seg :: acc) rest
  end.

Definition normalizeString (p : string) (allowAboveRoot : bool) : string :=
  Js.join "/" (normalizeSegs allowAboveRoot [] (Js.split "/" p)).

Definition isAbsolute (p : string) : bool := Js.startsWith p "/".

(** [path.posix.normalize] *)
Definition normalize (p : string) : string :=
  if Js.str_eqb p "" then "."
  else
    let abs := isAbsolute p in
    let trailing := Js.endsWith p "/" in
    let q := normalizeString p (negb abs) in
    if Js.str_eqb q ""
    then (if abs then "/" else if trailing then "./" else ".")
    else (if abs then "/" else "") +:+ q +:+ (if trailing then "/" else "").

(** [path.posix.join] *)
Definition join (parts : list string) : string :=
  match filter (λ p, p ≠ "") parts with
  | [] => "."
  | ps => normalize (Js.join "/" ps)
  end.

(** The loop of [path.posix.resolve]: arguments are taken from the last to
    the first, then the working directory, until an absolute one is met. *)
Fixpoint resolveLoop (revargs : list string) (resolvedPath : string)
  : string * bool :=
  match revargs with
  | [] => (resolvedPath, false)
  | p :: rest =>
      if Js.str_eqb p "" then resolveLoop rest resolvedPath
      else
        let resolvedPath' := p +:+ "/" +:+ resolvedPath in
        if isAbsolute p then (resolvedPath', true)
        else resolveLoop rest resolvedPath'
  end.

(** [path.posix.resolve(...args)] in working directory [cwd] *)
Definition resolve (cwd : string) (args : list string) : string :=
  let '(resolvedPath, resolvedAbsolute) := resolveLoop (rev (cwd :: args)) "" in
  let q := normalizeString resolvedPath (negb resolvedAbsolute) in
  if resolvedAbsolute then "/" +:+ q
  else if Js.str_eqb q "" then "." else q.

(** [path.posix.basename(p)]: the last non-empty segment. *)
Definition basename (p : string) : string :=
  List.last (filter (λ seg, seg ≠ "") (Js.split "/" p)) "".

End Path.

(** ** The file system, as far as [node:fs] shows it to the control plane *)

Module Fs.

Inductive node : Type :=
| NFile
| NSocket
| NSymlink (target : string)
| NDir.

Inductive errno : Type := ENOENT | EEXIST | EISDIR | EINVAL | ENOTDIR.

Inductive syscall : Type :=
| Unlink (p : string)
| Symlink (target p : string)
| Readlink (p : string)
| Scandir (p : string).

(** What a rejected [fs] promise carries: an error with a [code]. *)
Record error : Type := MkError { code : errno; failed : syscall }.

Definition codeName (e : errno) : string :=
  match e with
  | ENOENT => "ENOENT" | EEXIST => "EEXIST" | EISDIR => "EISDIR"
  | EINVAL => "EINVAL" | ENOTDIR => "ENOTDIR"
  end.

Definition describe (e : errno) : string :=
  match e with
  | ENOENT => "no such file or directory"
  | EEXIST => "file already exists"
  | EISDIR => "illegal operation on a directory"
  | EINVAL => "invalid argument"
  | ENOTDIR => "not a directory"
  end.

Definition syscallText (c : syscall) : string :=
  match c with
  | Unlink p => "unlink '" +:+ p +:+ "'"
  | Symlink t p => "symlink '" +:+ t +:+ "' -> '" +:+ p +:+ "'"
  | Readlink p => "readlink '" +:+ p +:+ "'"
  | Scandir p => "scandir '" +:+ p +:+ "'"
  end.

(** [error.message] *)
Definition message (e : error) : string :=
  codeName (code e) +:+ ": " +:+ describe (code e) +:+ ", " +:+ syscallText (failed e).

(** The world a control-plane function runs in: the files by path, what was
    written to the standard error stream, and the system calls issued so far
    (latest first). *)
Record world : Type := MkWorld {
  files : gmap string node;
  stderr : list string;
  calls : list syscall
}.

Inductive result (A : Type) : Type :=
| Ok (a : A)
| Throw (e : error).
Arguments Ok {A} a.
Arguments Throw {A} e.

Definition M (A : Type) : Type := world → result A * world.

Definition ret {A} (a : A) : M A := λ w, (Ok a, w).
Definition bind {A B} (m : M A) (k : A → M B) : M B :=
  λ w, match m w with
       | (Ok a, w') => k a w'
       | (Throw e, w') => (Throw e, w')
       end.
Definition tryCatch {A} (m : M A) (handler : error → M A) : M A :=
  λ w, match m w with
       | (Ok a, w') => (Ok a, w')
       | (Throw e, w') => handler e w'
       end.

#[export] Instance M_ret : MRet M := @ret.
#[export] Instance M_bind : MBind M := λ A B k m, bind m k.

Definition record (c : syscall) (w : world) : world :=
  MkWorld (files w) (stderr w) (c :: calls w).

(** [process.stderr.write(line)] *)
Definition stderrWrite (line : string) : M unit :=
  λ w, (Ok tt, MkWorld (files w) (stderr w ++ [line]) (calls w)).

(** The directory a path lies in, as the kernel sees it. *)
Definition parent (p : string) : string :=
  let d := Js.join "/" (removelast (Js.split "/" p)) in
  if Js.str_eqb d "" then (if Path.isAbsolute p then "/" else ".") else d.

Definition entryName (p : string) : string := List.last (Js.split "/" p) "".

(** [fs.unlink(p)] *)
Definition unlink (p : string) : M unit :=
  λ w, let w1 := record (Unlink p) w in
       match files w !! p with
       | None => (Throw (MkError ENOENT (Unlink p)), w1)
       | Some NDir => (Throw (MkError EISDIR (Unlink p)), w1)
       | Some _ => (Ok tt, MkWorld (delete p (files w)) (stderr w1) (calls w1))
       end.

(** [fs.symlink(target, p)] *)
Definition symlink (target p : string) : M unit :=
  λ w, let w1 := record (Symlink target p) w in
       match files w !! p with
       | Some _ => (Throw (MkError EEXIST (Symlink target p)), w1)
       | None =>
           match files w !! parent p with
           | Some NDir =>
               (Ok tt, MkWorld (<[p := NSymlink target]> (files w)) (stderr w1) (calls w1))
           | Some _ => (Throw (MkError ENOTDIR (Symlink target p)), w1)
           | None => (Throw (MkError ENOENT (Symlink target p)), w1)
           end
       end.

(** [fs.readlink(p)] *)
Definition readlink (p : string) : M string :=
  λ w, let w1 := record (Readlink p) w in
       match files w !! p with
       | Some (NSymlink target) => (Ok target, w1)
       | Some _ => (Throw (MkError EINVAL (Readlink p)), w1)
       | None => (Throw (MkError ENOENT (Readlink p)), w1)
       end.

(** A [Dirent]: the entry's name and what [isSymbolicLink()] answers. *)
Record dirent : Type := MkDirent { name : string; isSymbolicLink : bool }.

Definition direntOf (pn : string * node) : dirent :=
  MkDirent (entryName pn.1)
           (match pn.2 with NSymlink _ => true | _ => false end).

Definition isChildOf (dir : string) (pn : string * node) : bool :=
  Js.str_eqb (parent pn.1) dir && negb (Js.str_eqb (entryName pn.1) "").

(** [fs.readdir(dir, { withFileTypes: true })] *)
Definition readdir (dir : string) : M (list dirent) :=
  λ w, let w1 := record (Scandir dir) w in
       match files w !! dir with
       | Some NDir =>
           (Ok (direntOf <$> List.filter (isChildOf dir) (map_to_list (files w))), w1)
       | Some _ => (Throw (MkError ENOTDIR (Scandir dir)), w1)
       | None => (Throw (MkError ENOENT (Scandir dir)), w1)
       end.

(** [for (const x of xs) body(x)] *)
Fixpoint forEach {A} (xs : list A) (body : A → M unit) : M unit :=
  match xs with
  | [] => ret tt
  | x :: rest => body x;; forEach rest body
  end.

End Fs.

(** ** [lib/control-socket.ts]: socket paths and alias symlinks *)

Module ControlSocket.
Import Fs.

Section Directory.

(** [os.homedir()] and [process.cwd()] *)
Variable homedir : string.
Variable cwd : string.

Definition CONTROL_DIR : string := Path.join [homedir; ".pi"; "session-control"].
Definition SOCKET_SUFFIX : string := ".sock".

Definition isSafeSessionId (sessionId : string) : bool :=
  negb (Js.includes sessionId "/") && negb (Js.includes sessionId "\")
  && negb (Js.includes sessionId "..") && (0 <? String.length sessionId)%nat.

Definition isSafeAlias (alias : string) : bool :=
  negb (Js.includes alias "/") && negb (Js.includes alias "\")
  && negb (Js.includes alias "..") && (0 <? String.length alias)%nat.

Definition getSocketPath (sessionId : string) : string :=
  Path.join [CONTROL_DIR; sessionId +:+ SOCKET_SUFFIX].

Definition getAliasPath (alias : string) : string :=
  Path.join [CONTROL_DIR; alias +:+ ".alias"].

Definition isEnoent (e : error) : bool :=
  match code e with ENOENT => true | _ => false end.

Definition isEexist (e : error) : bool :=
  match code e with EEXIST => true | _ => false end.

Definition removeSocket (socketPath : option string) : M unit :=
  match socketPath with
  | None => mret tt
  | Some p =>
      if negb (Js.truthy p) then mret tt
      else
        tryCatch (unlink p)
          (λ e, if negb (isEnoent e)
                then stderrWrite ("[control] Failed to remove socket " +:+ p +:+ ": "
                                  +:+ message e +:+ Js.LF)
                else mret tt)
  end.

Definition removeAliasesForSocket (socketPath : option string) : M unit :=
  match socketPath with
  | None => mret tt
  | Some p =>
      if negb (Js.truthy p) then mret tt
      else
        tryCatch
          (entries ← readdir CONTROL_DIR;
           forEach entries (λ entry,
             if negb (isSymbolicLink entry) then mret tt
             else
               let aliasPath := Path.join [CONTROL_DIR; name entry] in
               target ← tryCatch (t ← readlink aliasPath; mret (Some t)) (λ _, mret None);
               match target with
               | None => mret tt
               | Some target =>
                   let resolvedTarget := Path.resolve cwd [CONTROL_DIR; target] in
                   if Js.str_eqb resolvedTarget p then unlink aliasPath else mret tt
               end))
          (λ e, if negb (isEnoent e)
                then stderrWrite ("[control] Failed to remove aliases for " +:+ p +:+ ": "
                                  +:+ message e +:+ Js.LF)
                else mret tt)
  end.

Definition createAliasSymlink (sessionId alias : string) : M unit :=
  if negb (Js.truthy alias) || negb (isSafeAlias alias) then mret tt
  else
    let aliasPath := getAliasPath alias in
    let target := sessionId +:+ SOCKET_SUFFIX in
    tryCatch (unlink aliasPath)
      (λ e, if negb (isEnoent e)
            then stderrWrite ("[control] Failed to remove old alias " +:+ aliasPath +:+ ": "
                              +:+ message e +:+ Js.LF)
            else mret tt);;
    tryCatch (symlink target aliasPath)
      (λ e, if negb (isEexist e)
            then stderrWrite ("[control] Failed to create alias symlink " +:+ aliasPath
                              +:+ ": " +:+ message e +:+ Js.LF)
            else mret tt).

(** The result is [Some id], or [None] for JavaScript's [null]. *)
Definition resolveSessionIdFromAlias (alias : string) : M (option string) :=
  if negb (Js.truthy alias) || negb (isSafeAlias alias) then mret None
  else
    let aliasPath := getAliasPath alias in
    tryCatch
      (target ← readlink aliasPath;
       let resolvedTarget := Path.resolve cwd [CONTROL_DIR; target] in
       let base := Path.basename resolvedTarget in
       if negb (Js.endsWith base SOCKET_SUFFIX) then mret None
       else
         let sessionId := Js.dropEnd (String.length SOCKET_SUFFIX) base in
         mret (if isSafeSessionId sessionId then Some sessionId else None))
      (λ _, mret None).

End Directory.
End ControlSocket.

(** ** JSON values and the conversions JavaScript applies to them *)

Module Json.

(** A value as [JSON.parse] builds it.  Numbers are the integers (time
    stamps, turn counters); an object lists its own properties in
    enumeration order. *)
#[local] Unset Elimination Schemes.
Inductive json : Type :=
| JNull
| JBool (b : bool)
| JNum (n : Z)
| JStr (s : string)
| JArr (items : list json)
| JObj (props : list (string * json)).
#[local] Set Elimination Schemes.

Fixpoint lookup (k : string) (props : list (string * json)) : option json :=
  match props with
  | [] => None
  | (k', v) :: rest => if Js.str_eqb k' k then Some v else lookup k rest
  end.

(** [v.k] for a value [v] that is not [null]; [None] is [undefined].  The
    control plane only reads property names that no array, string or number
    has. *)
Definition prop (v : json) (k : string) : option json :=
  match v with
  | JObj props => lookup k props
  | _ => None
  end.

(** [props[k] = v]: an existing property keeps its place. *)
Fixpoint setProp (k : string) (v : json) (props : list (string * json))
  : list (string * json) :=
  match props with
  | [] => [(k, v)]
  | (k', v') :: rest =>
      if Js.str_eqb k' k then (k', v) :: rest else (k', v') :: setProp k v rest
  end.

(** [typeof v === "string"] then the string *)
Definition asString (v : option json) : option string :=
  match v with
  | Some (JStr s) => Some s
  | _ => None
  end.

(** [typeof v === "object"], which holds of [null] and of arrays too *)
Definition typeofObject (v : json) : bool :=
  match v with
  | JNull | JArr _ | JObj _ => true
  | _ => false
  end.

(** [!!v] *)
Definition truthy (v : option json) : bool :=
  match v with
  | None | Some JNull | Some (JBool false) | Some (JNum 0) | Some (JStr "") => false
  | Some _ => true
  end.

(** [v ?? d] *)
Definition nullish (v : option json) (d : json) : json :=
  match v with
  | None | Some JNull => d
  | Some x => x
  end.

(** [v === s] for a string [s] *)
Definition isStr (v : option json) (s : string) : bool :=
  match v with
  | Some (JStr t) => Js.str_eqb t s
  | _ => false
  end.

(** Decimal digits of a natural number, most significant first, in front
    of [acc]. *)
Definition digitChar (d : N) : ascii := ascii_of_N (48 + d).

Fixpoint digitsFuel (fuel : nat) (n : N) (acc : string) : string :=
  match fuel with
  | O => acc
  | S f =>
      let acc' := String (digitChar (n mod 10)) acc in
      if (n / 10 =? 0)%N then acc' else digitsFuel f (n / 10) acc'
  end.

Definition natToString (n : N) : string :=
  digitsFuel (S (N.to_nat (N.log2 n))) n "".

(** [String(n)] for an integer *)
Definition numberToString (n : Z) : string :=
  match n with
  | Z0 => "0"
  | Zpos p => natToString (Npos p)
  | Zneg p => "-" +:+ natToString (Npos p)
  end.

(** [String(v)], as a template literal applies it *)
Fixpoint toStr (v : json) : string :=
  match v with
  | JNull => "null"
  | JBool true => "true"
  | JBool false => "false"
  | JNum n => numberToString n
  | JStr s => s
  | JArr items =>
      Js.join "," (map (λ x, match x with JNull => "" | _ => toStr x end) items)
  | JObj _ => "[object Object]"
  end.

Definition toStrOpt (v : option json) : string :=
  match v with
  | None => "undefined"
  | Some x => toStr x
  end.

End Json.
Export Json.

(** ** [JSON.stringify] and [JSON.parse] *)

Module JSON.

Definition DQ : ascii := "034"%char.
Definition BS : ascii := "\"%char.

Definition hexChar (d : N) : ascii :=
  if (d <? 10)%N then ascii_of_N (48 + d) else ascii_of_N (87 + d).

(** One code unit inside a quoted string ([QuoteJSONString]). *)
Definition quoteChar (c : ascii) : string :=
  if bool_decide (c = DQ) then String BS (String DQ "")
  else if bool_decide (c = BS) then String BS (String BS "")
  else if bool_decide (c = "008"%char) then String BS "b"
  else if bool_decide (c = "012"%char) then String BS "f"
  else if bool_decide (c = "010"%char) then String BS "n"
  else if bool_decide (c = "013"%char) then String BS "r"
  else if bool_decide (c = "009"%char) then String BS "t"
  else if (N_of_ascii c <? 32)%N
       then String BS (String "u" (String "0" (String "0"
              (String (hexChar (N_of_ascii c / 16))
                 (String (hexChar (N_of_ascii c mod 16)) "")))))
  else String c "".

Fixpoint quoteBody (s : string) : string :=
  match s with
  | EmptyString => ""
  | String c s' => quoteChar c +:+ quoteBody s'
  end.

Definition quote (s : string) : string :=
  String DQ (quoteBody s +:+ String DQ "").

(** [JSON.stringify(v)] *)
Fixpoint stringify (v : json) : string :=
  match v with
  | JNull => "null"
  | JBool true => "true"
  | JBool false => "false"
  | JNum n => numberToString n
  | JStr s => quote s
  | JArr items => "[" +:+ Js.join "," (map stringify items) +:+ "]"
  | JObj props =>
      "{" +:+ Js.join ","
                (map (λ kv, match kv with
                            | (k, x) => quote k +:+ ":" +:+ stringify x
                            end) props)
          +:+ "}"
  end.

(** White space between tokens *)
Definition isWs (c : ascii) : bool :=
  match c with
  | " " | "009" | "010" | "013" => true
  | _ => false
  end%char.

Fixpoint skipWs (s : string) : string :=
  match s with
  | String c s' => if isWs c then skipWs s' else s
  | EmptyString => EmptyString
  end.

Fixpoint stripPrefix (p s : string) : option string :=
  match p, s with
  | EmptyString, _ => Some s
  | String c p', String d s' => if bool_decide (c = d) then stripPrefix p' s' else None
  | String _ _, EmptyString => None
  end.

Definition isDigit (c : ascii) : bool :=
  (48 <=? N_of_ascii c)%N && (N_of_ascii c <=? 57)%N.

Definition hexVal (c : ascii) : option N :=
  let n := N_of_ascii c in
  if (48 <=? n)%N && (n <=? 57)%N then Some (n - 48)%N
  else if (97 <=? n)%N && (n <=? 102)%N then Some (n - 87)%N
  else if (65 <=? n)%N && (n <=? 70)%N then Some (n - 55)%N
  else None.

(** The code unit of [\uh1h2h3h4]; code units from 256 on lie outside the
    strings of this development. *)
Definition unicodeEscape (h1 h2 h3 h4 : ascii) : option ascii :=
  a ← hexVal h1; b ← hexVal h2; c ← hexVal h3; d ← hexVal h4;
  if ((a =? 0) && (b =? 0))%N then Some (ascii_of_N (c * 16 + d)) else None.

Definition simpleEscape (e : ascii) : option ascii :=
  if bool_decide (e = DQ) then Some DQ
  else if bool_decide (e = BS) then Some BS
  else if bool_decide (e = "/"%char) then Some "/"%char
  else if bool_decide (e = "b"%char) then Some "008"%char
  else if bool_decide (e = "f"%char) then Some "012"%char
  else if bool_decide (e = "n"%char) then Some "010"%char
  else if bool_decide (e = "r"%char) then Some "013"%char
  else if bool_decide (e = "t"%char) then Some "009"%char
  else None.

Definition consFst (c : ascii) (r : option (string * string)) : option (string * string) :=
  match r with
  | Some (s, rest) => Some (String c s, rest)
  | None => None
  end.

(** The characters of a string literal after its opening quote, up to and
    including the closing one. *)
Fixpoint parseStringBody (s : string) : option (string * string) :=
  match s with
  | EmptyString => None
  | String c r =>
      if bool_decide (c = DQ) then Some ("", r)
      else if bool_decide (c = BS) then
        match r with
        | String e r1 =>
            if bool_decide (e = "u"%char) then
              match r1 with
              | String h1 (String h2 (String h3 (String h4 r2))) =>
                  match unicodeEscape h1 h2 h3 h4 with
                  | Some ch => consFst ch (parseStringBody r2)
                  | None => None
                  end
              | _ => None
              end
            else
              match simpleEscape e with
              | Some ch => consFst ch (parseStringBody r1)
              | None => None
              end
        | EmptyString => None
        end
      else if (N_of_ascii c <? 32)%N then None
      else consFst c (parseStringBody r)
  end.

(** The digits at the head of [s], read in base ten onto [acc]. *)
Fixpoint parseDigits (s : string) (acc : N) : N * string :=
  match s with
  | String c r =>
      if isDigit c then parseDigits r (acc * 10 + (N_of_ascii c - 48))%N
      else (acc, s)
  | EmptyString => (acc, s)
  end.

Definition startsFraction (s : string) : bool :=
  match s with
  | String c _ =>
      bool_decide (c = "."%char) || bool_decide (c = "e"%char) || bool_decide (c = "E"%char)
  | EmptyString => false
  end.

(** An integer literal: no leading zero, and no fraction or exponent (which
    would denote a number outside [JNum]'s integers). *)
Definition parseNat (s : string) : option (N * string) :=
  match s with
  | String c r =>
      if bool_decide (c = "0"%char) then
        match r with
        | String d _ => if isDigit d || startsFraction r then None else Some (0%N, r)
        | EmptyString => Some (0%N, r)
        end
      else if isDigit c then
        let '(n, rest) := parseDigits s 0 in
        if startsFraction rest then None else Some (n, rest)
      else None
  | EmptyString => None
  end.

Section Composite.
(** The parser of one value, for the elements of arrays and objects. *)
Variable parseValue : string → option (json * string).

(** Elements after [[], from the start of an element to the closing
    bracket. *)
Fixpoint parseElems (fuel : nat) (s : string) : option (list json * string) :=
  match fuel with
  | O => None
  | S f =>
      match parseValue s with
      | None => None
      | Some (v, rest) =>
          match skipWs rest with
          | String c rest' =>
              if bool_decide (c = ","%char) then
                match parseElems f rest' with
                | Some (vs, r) => Some (v :: vs, r)
                | None => None
                end
              else if bool_decide (c = "]"%char) then Some ([v], rest')
              else None
          | EmptyString => None
          end
      end
  end.

(** Members after [{], from the start of a member to the closing brace,
    in the order of the text. *)
Fixpoint parseMembers (fuel : nat) (s : string)
  : option (list (string * json) * string) :=
  match fuel with
  | O => None
  | S f =>
      match skipWs s with
      | String q r =>
          if bool_decide (q = DQ) then
            match parseStringBody r with
            | None => None
            | Some (k, r1) =>
                match skipWs r1 with
                | String c r2 =>
                    if bool_decide (c = ":"%char) then
                      match parseValue r2 with
                      | None => None
                      | Some (v, rest) =>
                          match skipWs rest with
                          | String d rest' =>
                              if bool_decide (d = ","%char) then
                                match parseMembers f rest' with
                                | Some (kvs, r3) => Some ((k, v) :: kvs, r3)
                                | None => None
                                end
                              else if bool_decide (d = "}"%char) then Some ([(k, v)], rest')
                              else None
                          | EmptyString => None
                          end
                      end
                    else None
                | EmptyString => None
                end
            end
          else None
      | EmptyString => None
      end
  end.
End Composite.

(** The object a member list denotes: a repeated name overwrites the value
    of its first occurrence. *)
Definition objectOf (members : list (string * json)) : json :=
  JObj (fold_left (λ acc kv, setProp kv.1 kv.2 acc) members []).

Fixpoint parseValue (fuel : nat) (s : string) : option (json * string) :=
  match fuel with
  | O => None
  | S f =>
      match skipWs s with
      | EmptyString => None
      | String c r =>
          if bool_decide (c = "n"%char) then
            match stripPrefix "ull" r with Some r' => Some (JNull, r') | None => None end
          else if bool_decide (c = "t"%char) then
            match stripPrefix "rue" r with Some r' => Some (JBool true, r') | None => None end
          else if bool_decide (c = "f"%char) then
            match stripPrefix "alse" r with Some r' => Some (JBool false, r') | None => None end
          else if bool_decide (c = DQ) then
            match parseStringBody r with
            | Some (str, r') => Some (JStr str, r')
            | None => None
            end
          else if bool_decide (c = "["%char) then
            match skipWs r with
            | String d r' =>
                if bool_decide (d = "]"%char) then Some (JArr [], r')
                else match parseElems (parseValue f) f r with
                     | Some (vs, r'') => Some (JArr vs, r'')
                     | None => None
                     end
            | EmptyString => None
            end
          else if bool_decide (c = "{"%char) then
            match skipWs r with
            | String d r' =>
                if bool_decide (d = "}"%char) then Some (JObj [], r')
                else match parseMembers (parseValue f) f r with
                     | Some (kvs, r'') => Some (objectOf kvs, r'')
                     | None => None
                     end
            | EmptyString => None
            end
          else if bool_decide (c = "-"%char) then
            match parseNat r with
            | Some (n, r') => Some (JNum (- Z.of_N n), r')
            | None => None
            end
          else
            match parseNat (String c r) with
            | Some (n, r') => Some (JNum (Z.of_N n), r')
            | None => None
            end
      end
  end.

(** [JSON.parse(text)]; [None] when it throws a [SyntaxError]. *)
Definition parse (text : string) : option json :=
  match parseValue (S (String.length text)) text with
  | Some (v, rest) =>
      match skipWs rest with
      | EmptyString => Some v
      | String _ _ => None
      end
  | None => None
  end.

End JSON.

(** ** [lib/control-types.ts]: the frames of the wire protocol *)

Module RpcResponse.
Record t : Type := Make {
  command : string;
  success : bool;
  data : option json;
  error : option string;
  id : option string
}.

Definition optional (k : string) (v : option json) : list (string * json) :=
  match v with
  | Some x => [(k, x)]
  | None => []
  end.

(** The object literal [{ type: "response", command, success, data, error,
    id }] as [JSON.stringify] sees it: a property whose value is
    [undefined] is left out. *)
Definition toObject (r : t) : json :=
  JObj ([("type", JStr "response"); ("command", JStr (command r));
         ("success", JBool (success r))]
        ++ optional "data" (data r)
        ++ optional "error" (JStr <$> error r)
        ++ optional "id" (JStr <$> id r)).

(** The typed view [msg as RpcResponse] of a parsed frame. *)
Definition ofObject (v : json) : option t :=
  if negb (isStr (prop v "type") "response") then None
  else
    match prop v "command", prop v "success" with
    | Some (JStr c), Some (JBool s) =>
        Some (Make c s (prop v "data") (asString (prop v "error"))
                (asString (prop v "id")))
    | _, _ => None
    end.
End RpcResponse.

Module RpcEvent.
Record t : Type := Make {
  event : string;
  data : option json;
  subscriptionId : option string
}.

Definition toObject (e : t) : json :=
  JObj ([("type", JStr "event"); ("event", JStr (event e))]
        ++ RpcResponse.optional "data" (data e)
        ++ RpcResponse.optional "subscriptionId" (JStr <$> subscriptionId e)).

Definition ofObject (v : json) : option t :=
  if negb (isStr (prop v "type") "event") then None
  else
    match prop v "event" with
    | Some (JStr ev) =>
        Some (Make ev (prop v "data") (asString (prop v "subscriptionId")))
    | _ => None
    end.
End RpcEvent.

(** A decoded command: the parsed object together with its [type] string. *)
Module RpcCommand.
Record t : Type := Make { type : string; body : json }.
End RpcCommand.

Module ExtractedMessage.
Record t : Type := Make { role : string; content : string; timestamp : Z }.

Definition toObject (m : t) : json :=
  JObj [("role", JStr (role m)); ("content", JStr (content m));
        ("timestamp", JNum (timestamp m))].
End ExtractedMessage.

Record TurnEndSubscription : Type := MkSubscription {
  socket : nat;
  subscriptionId : string
}.

(** ** The host session, as the control plane consults it *)

Module Host.

Inductive contentPart : Type :=
| TextContent (text : string)
| OtherContent (type : string).

(** An [AgentMessage]; [role] is [None] for a message without that
    property. *)
Record AgentMessage : Type := MkMessage {
  role : option string;
  content : list contentPart;
  timestamp : Z
}.

Inductive entryKind : Type :=
| MessageEntry (message : AgentMessage)
| OtherEntry (type : string).

Record SessionEntry : Type := MkEntry {
  id : string;
  parentId : option string;
  kind : entryKind
}.

Record Model : Type := MkModel { provider : string; modelId : string }.

Record ModelRegistry : Type := MkRegistry {
  find : string → string → option Model;
  getApiKey : Model → option string
}.

(** What [sessionManager.rewindTo] is at run time. *)
Inductive rewindCapability : Type :=
| RewindMissing
| RewindPresent (throws : string → option string).

(** The [ExtensionContext] at the time of a call. *)
Record ExtensionContext : Type := MkContext {
  isIdle : bool;
  getBranch : list SessionEntry;
  getEntries : list SessionEntry;
  getLeafId : option string;
  getSessionId : string;
  getSessionName : option string;
  rewindTo : rewindCapability;
  model : option Model;
  modelRegistry : ModelRegistry
}.

(** How a call of [complete] ends. *)
Inductive completion : Type :=
| Completed (stopReason : string) (content : list contentPart)
| CompleteThrew (message : string).

(** What the run time supplies during one call. *)
Record Runtime : Type := MkRuntime {
  dateNow : Z;
  randomToken : string;
  complete : Model → string → string → string → completion
}.

End Host.

(** ** [lib/control-messages.ts] *)

Module ControlMessages.
Import Host.

(** [content.filter(c => c.type === "text").map(c => c.text)] *)
Definition textParts (content : list contentPart) : list string :=
  omap (λ c, match c with TextContent t => Some t | OtherContent _ => None end) content.

Definition extract (roles : list string) (entry : SessionEntry)
  : option ExtractedMessage.t :=
  match kind entry with
  | MessageEntry msg =>
      match role msg with
      | Some r =>
          if bool_decide (r ∈ roles) then
            match textParts (content msg) with
            | [] => None
            | parts => Some (ExtractedMessage.Make r (Js.join Js.LF parts) (timestamp msg))
            end
          else None
      | None => None
      end
  | OtherEntry _ => None
  end.

(** The first element, in list order, that [f] maps to a result. *)
Fixpoint firstSome {A B} (f : A → option B) (l : list A) : option B :=
  match l with
  | [] => None
  | x :: rest => match f x with Some y => Some y | None => firstSome f rest end
  end.

Definition getLastAssistantMessage (ctx : ExtensionContext) : option ExtractedMessage.t :=
  firstSome (extract ["assistant"]) (rev (getBranch ctx)).

Definition isUserEntry (entry : SessionEntry) : bool :=
  match kind entry with
  | MessageEntry msg => bool_decide (role msg = Some "user")
  | OtherEntry _ => false
  end.

(** The entries from the last one satisfying [p] on; [None] when there is
    none. *)
Fixpoint fromLast {A} (p : A → bool) (l : list A) : option (list A) :=
  match l with
  | [] => None
  | x :: rest =>
      match fromLast p rest with
      | Some tail => Some tail
      | None => if p x then Some l else None
      end
  end.

Definition getMessagesSinceLastPrompt (ctx : ExtensionContext) : list ExtractedMessage.t :=
  match fromLast isUserEntry (getBranch ctx) with
  | None => []
  | Some entries => omap (extract ["user"; "assistant"]) entries
  end.

Definition getFirstEntryId (ctx : ExtensionContext) : option string :=
  match getEntries ctx with
  | [] => None
  | first :: _ =>
      match List.find (λ e, bool_decide (parentId e = None)) (getEntries ctx) with
      | Some root => Some (id root)
      | None => Some (id first)
      end
  end.

End ControlMessages.

(** ** [lib/model-selection.ts] *)

Module ModelSelection.
Import Host.

Definition CODEX_MODEL_ID : string := "gpt-5.3-codex-spark".
Definition HAIKU_MODEL_ID : string := "claude-haiku-4-5".

Definition usable (registry : ModelRegistry) (m : option Model) : option Model :=
  match m with
  | Some candidate =>
      match getApiKey registry candidate with
      | Some apiKey => if Js.truthy apiKey then Some candidate else None
      | None => None
      end
  | None => None
  end.

Definition selectSmallModel (fallback : option Model) (registry : ModelRegistry)
  : option Model :=
  match usable registry (find registry "openai-codex" CODEX_MODEL_ID) with
  | Some codexModel => Some codexModel
  | None =>
      match usable registry (find registry "anthropic" HAIKU_MODEL_ID) with
      | Some haikuModel => Some haikuModel
      | None => fallback
      end
  end.

End ModelSelection.

(** ** What the control plane does to the outside *)

Inductive effect : Type :=
| SyncAlias                                          (* void syncAlias(state, ctx) *)
| CtxAbort                                           (* ctx.abort() *)
| SocketWrite (sock : nat) (line : string)           (* socket.write(line) *)
| SocketOnce (sock : nat) (event subscription : string)
| SendMessage (customType content : string) (display triggerTurn : bool)
              (deliverAs : option string)            (* pi.sendMessage(...) *)
| RewindTo (entryId : string)                        (* sessionManager.rewindTo(id) *)
| StderrWrite (line : string).                       (* process.stderr.write(line) *)

(** What [JSON.parse] does with a text: a value, or a [SyntaxError] with its
    message. *)
Inductive parsed : Type :=
| Value (v : json)
| SyntaxError (message : string).

(** ** [lib/control-rpc.ts] *)

Module ControlRpc.

Definition responseLine (response : RpcResponse.t) : string :=
  JSON.stringify (RpcResponse.toObject response) +:+ Js.LF.

Definition eventLine (event : RpcEvent.t) : string :=
  JSON.stringify (RpcEvent.toObject event) +:+ Js.LF.

(** A failing [socket.write] is caught and ignored: the call is all that
    is recorded. *)
Definition writeResponse (sock : nat) (response : RpcResponse.t) : list effect :=
  [SocketWrite sock (responseLine response)].

Definition writeEvent (sock : nat) (event : RpcEvent.t) : list effect :=
  [SocketWrite sock (eventLine event)].

(** The result [{ command?, error? }] of [parseCommand]. *)
Inductive decoded : Type :=
| Command (command : RpcCommand.t)
| Error (error : string).

Section Parsing.
(** The engine's [JSON.parse] *)
Variable JSON_parse : string → parsed.

Definition parseCommand (line : string) : decoded :=
  match JSON_parse line with
  | Value v =>
      if negb (truthy (Some v)) || negb (typeofObject v)
      then Error "Invalid command: expected JSON object"
      else
        match asString (prop v "type") with
        | None => Error "Missing command type"
        | Some type => Command (RpcCommand.Make type v)
        end
  | SyntaxError message => Error ("Failed to parse command: " +:+ message)
  end.

(** *** The RPC client *)

Inductive outcome : Type :=
| Resolved (response : json) (event : option json)
| Rejected (message : string).

Record client : Type := MkClient {
  buffer : string;
  response : option json;
  sent : list string;        (* lines written to the socket, latest last *)
  ended : bool;              (* socket.end() was called *)
  settled : option outcome   (* the promise, once resolved or rejected *)
}.

Definition initial : client := MkClient "" None [] false None.

Inductive socketEvent : Type :=
| Connect
| Data (chunk : string)
| SocketError (message : string)
| TimeoutElapsed.

Section Call.
Variable command : RpcCommand.t.
Variable waitForEvent : bool.     (* options.waitForEvent === "turn_end" *)

Definition subscribeCmd : json :=
  JObj [("type", JStr "subscribe"); ("event", JStr "turn_end")].

(** [cleanup(); socket.end(); resolve/reject(...)] *)
Definition settle (st : client) (o : outcome) : client :=
  MkClient (buffer st) (response st) (sent st) true (Some o).

(** The body of the [while] loop for one non-empty trimmed line;
    [inl] when the handler returns, [inr] when the loop goes on. *)
Definition onLine (st : client) (line : string) : client + client :=
  match JSON_parse line with
  | SyntaxError _ => inr st
  | Value JNull => inr st      (* [msg.type] throws a TypeError, caught *)
  | Value msg =>
      if isStr (prop msg "type") "response" then
        if isStr (prop msg "command") (RpcCommand.type command) then
          let st' := MkClient (buffer st) (Some msg) (sent st) (ended st) (settled st) in
          if negb waitForEvent then inl (settle st' (Resolved msg None))
          else inr st'
        else inr st
      else if isStr (prop msg "type") "event" && isStr (prop msg "event") "turn_end"
              && waitForEvent then
        match response st with
        | None => inl (settle st (Rejected "Received turn_end event before command response"))
        | Some r =>
            inl (settle st
                   (Resolved r (Some (if truthy (prop msg "data")
                                      then default (JObj []) (prop msg "data")
                                      else JObj []))))
        end
      else inr st
  end.

Definition withBuffer (st : client) (b : string) : client :=
  MkClient b (response st) (sent st) (ended st) (settled st).

(** The [while] loop over the lines of the buffer; [segs] are the pieces
    between line feeds, the last one being the incomplete line. *)
Fixpoint drain (st : client) (segs : list string) : client :=
  match segs with
  | [] => st
  | [partial] => withBuffer st partial
  | raw :: rest =>
      let line := Js.trim raw in
      if negb (Js.truthy line) then drain st rest
      else
        match onLine st line with
        | inl done => withBuffer done (Js.join Js.LF rest)
        | inr st' => drain st' rest
        end
  end.

(** One event of the socket or of the timer.  Once the promise is
    settled the listeners are removed and the timer cleared. *)
Definition step (st : client) (ev : socketEvent) : client :=
  match settled st with
  | Some _ => st
  | None =>
      match ev with
      | Connect =>
          MkClient (buffer st) (response st)
            (sent st ++ [JSON.stringify (RpcCommand.body command) +:+ Js.LF]
                     ++ (if waitForEvent
                         then [JSON.stringify subscribeCmd +:+ Js.LF] else []))
            (ended st) (settled st)
      | Data chunk => drain st (Js.split "010" (buffer st +:+ chunk))
      | SocketError message =>
          MkClient (buffer st) (response st) (sent st) (ended st)
            (Some (Rejected message))
      | TimeoutElapsed =>
          (* socket.destroy(new Error("RPC timeout")) raises the error event *)
          MkClient (buffer st) (response st) (sent st) (ended st)
            (Some (Rejected "RPC timeout"))
      end
  end.

(** [sendRpcCommand(socketPath, command, options)] against the events
    the connection delivers. *)
Definition sendRpcCommand (events : list socketEvent) : client :=
  fold_left step events initial.
End Call.
End Parsing.

End ControlRpc.

(** ** [control.ts]: the command dispatcher and the control server *)

Module Control.
Import Host ControlMessages ControlRpc.

Definition SESSION_MESSAGE_TYPE : string := "session-message".

Definition SUMMARIZATION_SYSTEM_PROMPT : string :=
  "You are a conversation summarizer. Create concise, accurate summaries that preserve key information, decisions, and outcomes.".

Definition TURN_SUMMARY_PROMPT : string :=
  Js.join Js.LF
    ["Summarize what happened in this conversation since the last user prompt. Focus on:";
     "- What was accomplished";
     "- Any decisions made";
     "- Files that were read, modified, or created";
     "- Any errors or issues encountered";
     "- Current state/next steps";
     "";
     "Be concise but comprehensive. Preserve exact file paths, function names, and error messages."].

Record SocketState : Type := MkState {
  server : bool;                       (* a listener is bound *)
  socketPath : option string;
  context : option ExtensionContext;
  alias : option string;
  aliasTimer : bool;
  turnEndSubscriptions : list TurnEndSubscription
}.

Definition withSubscriptions (state : SocketState) (subs : list TurnEndSubscription)
  : SocketState :=
  MkState (server state) (socketPath state) (context state) (alias state)
    (aliasTimer state) subs.

(** The closure [respond] of [handleCommand] *)
Definition respond (state : SocketState) (sock : nat) (id : option string)
    (success : bool) (commandName : string) (data : option json)
    (error : option string) : list effect :=
  (match context state with Some _ => [SyncAlias] | None => [] end)
  ++ writeResponse sock (RpcResponse.Make commandName success data error id).

Definition conversationText (messages : list ExtractedMessage.t) : string :=
  Js.join (Js.LF +:+ Js.LF)
    (map (λ m, (if Js.str_eqb (ExtractedMessage.role m) "user" then "User" else "Assistant")
               +:+ ": " +:+ ExtractedMessage.content m) messages).

Definition summaryRequest (messages : list ExtractedMessage.t) : string :=
  "<conversation>" +:+ Js.LF +:+ conversationText messages +:+ Js.LF
  +:+ "</conversation>" +:+ Js.LF +:+ Js.LF +:+ TURN_SUMMARY_PROMPT.

Definition handleCommand (rt : Runtime) (state : SocketState)
    (command : RpcCommand.t) (sock : nat) : SocketState * list effect :=
  let type := RpcCommand.type command in
  let body := RpcCommand.body command in
  let id := asString (prop body "id") in
  let respond := respond state sock id in
  match context state with
  | None => (state, respond false type None (Some "Session not ready"))
  | Some ctx =>
      if Js.str_eqb type "abort" then
        (state, [SyncAlias; CtxAbort] ++ respond true "abort" None None)
      else if Js.str_eqb type "subscribe" then
        if isStr (prop body "event") "turn_end" then
          let subscriptionId :=
            default ("sub_" +:+ numberToString (dateNow rt) +:+ "_" +:+ randomToken rt) id in
          (withSubscriptions state
             (turnEndSubscriptions state ++ [MkSubscription sock subscriptionId]),
           [SyncAlias; SocketOnce sock "close" subscriptionId;
            SocketOnce sock "error" subscriptionId]
           ++ respond true "subscribe"
                (Some (JObj [("subscriptionId", JStr subscriptionId);
                             ("event", JStr "turn_end")])) None)
        else
          (state, [SyncAlias]
                  ++ respond false "subscribe" None
                       (Some ("Unknown event type: " +:+ toStrOpt (prop body "event"))))
      else if Js.str_eqb type "get_message" then
        match getLastAssistantMessage ctx with
        | None =>
            (state, [SyncAlias]
                    ++ respond true "get_message" (Some (JObj [("message", JNull)])) None)
        | Some message =>
            (state, [SyncAlias]
                    ++ respond true "get_message"
                         (Some (JObj [("message", ExtractedMessage.toObject message)])) None)
        end
      else if Js.str_eqb type "get_summary" then
        match getMessagesSinceLastPrompt ctx with
        | [] => (state, [SyncAlias]
                        ++ respond false "get_summary" None (Some "No messages to summarize"))
        | messages =>
            match ModelSelection.selectSmallModel (model ctx) (modelRegistry ctx) with
            | None =>
                (state, [SyncAlias]
                        ++ respond false "get_summary" None
                             (Some "No model available for summarization"))
            | Some model =>
                match getApiKey (modelRegistry ctx) model with
                | Some apiKey =>
                    if negb (Js.truthy apiKey) then
                      (state, [SyncAlias]
                              ++ respond false "get_summary" None
                                   (Some "No API key available for summarization model"))
                    else
                      match complete rt model SUMMARIZATION_SYSTEM_PROMPT
                              (summaryRequest messages) apiKey with
                      | Completed stopReason content =>
                          if Js.str_eqb stopReason "aborted" || Js.str_eqb stopReason "error"
                          then (state, [SyncAlias]
                                       ++ respond false "get_summary" None
                                            (Some "Summarization failed"))
                          else (state, [SyncAlias]
                                       ++ respond true "get_summary"
                                            (Some (JObj [("summary",
                                                          JStr (Js.join Js.LF (textParts content)));
                                                         ("model", JStr (modelId model))]))
                                            None)
                      | CompleteThrew message =>
                          (state, [SyncAlias;
                                   StderrWrite ("[control] Summarization failed: "
                                                +:+ message +:+ Js.LF)]
                                  ++ respond false "get_summary" None
                                       (Some ("Summarization failed: " +:+ message)))
                      end
                | None =>
                    (state, [SyncAlias]
                            ++ respond false "get_summary" None
                                 (Some "No API key available for summarization model"))
                end
            end
        end
      else if Js.str_eqb type "clear" then
        if negb (isIdle ctx) then
          (state, [SyncAlias]
                  ++ respond false "clear" None
                       (Some "Session is busy - wait for turn to complete"))
        else
          match getFirstEntryId ctx with
          | Some firstEntryId =>
              if negb (Js.truthy firstEntryId) then
                (state, [SyncAlias] ++ respond false "clear" None (Some "No entries in session"))
              else if bool_decide (getLeafId ctx = Some firstEntryId) then
                (state, [SyncAlias]
                        ++ respond true "clear"
                             (Some (JObj [("cleared", JBool true);
                                          ("alreadyAtRoot", JBool true)])) None)
              else if truthy (prop body "summarize") then
                (state, [SyncAlias]
                        ++ respond false "clear" None
                             (Some "Clear with summarization not supported via RPC - use summarize=false"))
              else
                match rewindTo ctx with
                | RewindMissing =>
                    (state, [SyncAlias]
                            ++ respond false "clear" None
                                 (Some "Session manager does not support rewindTo"))
                | RewindPresent throws =>
                    match throws firstEntryId with
                    | None =>
                        (state, [SyncAlias; RewindTo firstEntryId]
                                ++ respond true "clear"
                                     (Some (JObj [("cleared", JBool true);
                                                  ("targetId", JStr firstEntryId)])) None)
                    | Some message =>
                        (state, [SyncAlias; RewindTo firstEntryId]
                                ++ respond false "clear" None
                                     (Some ("Clear failed: " +:+ message)))
                    end
                end
          | None =>
              (state, [SyncAlias] ++ respond false "clear" None (Some "No entries in session"))
          end
      else if Js.str_eqb type "send" then
        match asString (prop body "message") with
        | Some message =>
            if (String.length (Js.trim message) =? 0)%nat then
              (state, [SyncAlias] ++ respond false "send" None (Some "Missing message"))
            else
              let mode := nullish (prop body "mode") (JStr "steer") in
              let deliverAs :=
                if isIdle ctx then None
                else Some (if isStr (Some mode) "follow_up" then "followUp" else "steer") in
              (state, [SyncAlias;
                       SendMessage SESSION_MESSAGE_TYPE message true true deliverAs]
                      ++ respond true "send"
                           (Some (JObj [("delivered", JBool true);
                                        ("mode", if isIdle ctx then JStr "direct" else mode)]))
                           None)
        | None =>
            (state, [SyncAlias] ++ respond false "send" None (Some "Missing message"))
        end
      else
        (state, [SyncAlias]
                ++ respond false type None (Some ("Unsupported command: " +:+ type)))
  end.

(** The [cleanup] closure registered by [subscribe] for the close and the
    error of the connection. *)
Fixpoint removeFirst (subscriptionId' : string) (subs : list TurnEndSubscription)
  : list TurnEndSubscription :=
  match subs with
  | [] => []
  | s :: rest =>
      if Js.str_eqb (subscriptionId s) subscriptionId' then rest
      else s :: removeFirst subscriptionId' rest
  end.

Definition cleanup (state : SocketState) (subscriptionId' : string) : SocketState :=
  withSubscriptions state (removeFirst subscriptionId' (turnEndSubscriptions state)).

(** The handler of the session's [turn_end] event *)
Definition onTurnEnd (state : SocketState) (ctx : ExtensionContext) (turnIndex : Z)
  : SocketState * list effect :=
  match turnEndSubscriptions state with
  | [] => (state, [])
  | subscriptions =>
      let lastMessage := getLastAssistantMessage ctx in
      let eventData :=
        JObj (RpcResponse.optional "message" (ExtractedMessage.toObject <$> lastMessage)
              ++ [("turnIndex", JNum turnIndex)]) in
      (withSubscriptions state [],
       [SyncAlias]
       ++ concat (map (λ sub,
                    writeEvent (socket sub)
                      (RpcEvent.Make "turn_end" (Some eventData) (Some (subscriptionId sub))))
                    subscriptions))
  end.

Section Server.
Variable JSON_parse : string → parsed.

(** One non-empty trimmed line received on a connection *)
Definition onLine (rt : Runtime) (state : SocketState) (sock : nat) (line : string)
  : SocketState * list effect :=
  match parseCommand JSON_parse line with
  | Error error =>
      (state,
       (match context state with Some _ => [SyncAlias] | None => [] end)
       ++ writeResponse sock
            (RpcResponse.Make "parse" false None
               (Some ("Failed to parse command: " +:+ error)) None))
  | Command command => handleCommand rt state command sock
  end.

(** The [while] loop of the [data] handler; [segs] are the pieces of the
    buffer between line feeds, the last one being the incomplete line;
    [rt k] is the run time during the [k]-th line. *)
Fixpoint drain (rt : nat → Runtime) (k : nat) (state : SocketState) (sock : nat)
    (segs : list string) : SocketState * string * list effect :=
  match segs with
  | [] => (state, "", [])
  | [partial] => (state, partial, [])
  | raw :: rest =>
      let line := Js.trim raw in
      if negb (Js.truthy line) then drain rt (S k) state sock rest
      else
        let '(state1, effects1) := onLine (rt k) state sock line in
        let '(state2, buffer, effects2) := drain rt (S k) state1 sock rest in
        (state2, buffer, effects1 ++ effects2)
  end.

End Server.

End Control.

(** ** [lib/control-socket.ts]: the alias of the running session *)

Module Alias.
Import Fs Host ControlSocket Control.

(** Truthiness of a value that is a string, [null] or [undefined]. *)
Definition truthyOpt (s : option string) : bool :=
  match s with
  | Some x => Js.truthy x
  | None => false
  end.

(** [getSessionAlias(ctx)]; [None] stands for [null]. *)
Definition getSessionAlias (ctx : ExtensionContext) : option string :=
  let alias :=
    match getSessionName ctx with
    | Some sessionName => if Js.truthy sessionName then Js.trim sessionName else ""
    | None => ""
    end in
  if negb (Js.truthy alias) || negb (isSafeAlias alias) then None else Some alias.

Definition withAlias (state : SocketState) (alias' : option string) : SocketState :=
  MkState (server state) (socketPath state) (context state) alias'
    (aliasTimer state) (turnEndSubscriptions state).

(** [aliasMap.get(k)] then [push] or [set]: a [Map] keeps its keys in the
    order of their first insertion. *)
Fixpoint addAlias (resolvedTarget aliasName : string)
    (aliasMap : list (string * list string)) : list (string * list string) :=
  match aliasMap with
  | [] => [(resolvedTarget, [aliasName])]
  | (k, aliases) :: rest =>
      if Js.str_eqb k resolvedTarget then (k, aliases ++ [aliasName]) :: rest
      else (k, aliases) :: addAlias resolvedTarget aliasName rest
  end.

Section Directory.
Variable homedir : string.
Variable cwd : string.

(** [syncAlias(state, ctx)]; the state it leaves is the result. *)
Definition syncAlias (state : SocketState) (ctx : ExtensionContext) : M SocketState :=
  if negb (server state) || negb (truthyOpt (socketPath state)) then mret state
  else
    let alias := getSessionAlias ctx in
    if truthyOpt alias && negb (bool_decide (alias = Control.alias state)) then
      removeAliasesForSocket homedir cwd (socketPath state);;
      createAliasSymlink homedir (getSessionId ctx) (default "" alias);;
      mret (withAlias state alias)
    else if negb (truthyOpt alias) && truthyOpt (Control.alias state) then
      removeAliasesForSocket homedir cwd (socketPath state);;
      mret (withAlias state None)
    else mret state.

(** The loop of [getAliasMap] over the entries of the control directory. *)
Fixpoint collectAliases (entries : list dirent) (aliasMap : list (string * list string))
  : M (list (string * list string)) :=
  match entries with
  | [] => mret aliasMap
  | entry :: rest =>
      if negb (isSymbolicLink entry) then collectAliases rest aliasMap
      else if negb (Js.endsWith (name entry) ".alias") then collectAliases rest aliasMap
      else
        let aliasPath := Path.join [CONTROL_DIR homedir; name entry] in
        target ← tryCatch (t ← readlink aliasPath; mret (Some t)) (λ _, mret None);
        match target with
        | None => collectAliases rest aliasMap
        | Some target =>
            let resolvedTarget := Path.resolve cwd [CONTROL_DIR homedir; target] in
            let aliasName := Js.dropEnd (String.length ".alias") (name entry) in
            collectAliases rest (addAlias resolvedTarget aliasName aliasMap)
        end
  end.

(** [getAliasMap()]: the alias names of the control directory, by the path
    their link resolves to. *)
Definition getAliasMap : M (list (string * list string)) :=
  entries ← tryCatch (e ← readdir (CONTROL_DIR homedir); mret (Some e)) (λ _, mret None);
  match entries with
  | None => mret []
  | Some entries => collectAliases entries []
  end.

End Directory.
End Alias.

(** ** [control.ts]: stopping the server, and the target of [send_to_session] *)

Module Lifecycle.
Import Fs Host ControlSocket Control.

Section Directory.
Variable homedir : string.
Variable cwd : string.


End Directory.
End Lifecycle.

Module SessionTool.
Import Fs ControlSocket Alias.

(** The object [{ sessionId, sessionName: senderSessionName || undefined }]
    as [JSON.stringify] sees it. *)
Definition senderObject (senderSessionId : string) (senderSessionName : option string)
  : json :=
  JObj ([("sessionId", JStr senderSessionId)]
        ++ RpcResponse.optional "sessionName"
             (JStr <$> (if truthyOpt senderSessionName then senderSessionName else None))).

(** What [execute] appends to the message of a [send]: [senderSessionId] is
    the id of the sending session, if it has a context, and [sessionName]
    its name. *)
Definition senderInfo (senderSessionId sessionName : option string) : string :=
  let senderSessionName := Js.trim <$> sessionName in
  match senderSessionId with
  | Some id =>
      if Js.truthy id
      then Js.LF +:+ Js.LF +:+ "<sender_info>"
           +:+ JSON.stringify (senderObject id senderSessionName) +:+ "</sender_info>"
      else ""
  | None => ""
  end.

(** How the first part of [execute] ends: with the error it reports, or
    with the session whose socket the command goes to. *)
Inductive target : Type :=
| ToolError (error : string)
| Target (targetSessionId : string).

Section Directory.
Variable homedir : string.
Variable cwd : string.

(** The target selection of [send_to_session] from [params.sessionName] and
    [params.sessionId]. *)
Definition selectTarget (paramName paramId : option string) : M target :=
  let sessionName := Js.trim <$> paramName in
  let sessionId := Js.trim <$> paramId in
  fromAlias ← (if truthyOpt sessionName
               then resolveSessionIdFromAlias homedir cwd (default "" sessionName)
               else mret None);
  if truthyOpt sessionName && negb (truthyOpt fromAlias)
  then mret (ToolError "Unknown session name")
  else if truthyOpt sessionId then
    let id := default "" sessionId in
    if negb (isSafeSessionId id) then mret (ToolError "Invalid session id")
    else if truthyOpt fromAlias && negb (bool_decide (fromAlias = Some id))
    then mret (ToolError "Session name does not match session id")
    else mret (Target id)
  else if negb (truthyOpt fromAlias)
  then mret (ToolError "Missing session id or session name")
  else mret (Target (default "" fromAlias)).

End Directory.
End SessionTool.

(** ** [lib/control-messages.ts]: the sender of a message *)

Module SenderInfo.

(** A [SenderInfo]; [None] is a property that is [undefined]. *)
Record t : Type := Make { sessionId : option string; sessionName : option string }.

Definition OPEN_TAG : string := "<sender_info>".
Definition CLOSE_TAG : string := "</sender_info>".

(** [s.slice(n)] *)
Fixpoint drop (n : nat) (s : string) : string :=
  match n, s with
  | O, _ => s
  | S n', String _ s' => drop n' s'
  | S _, EmptyString => EmptyString
  end.

(** The text before and the text after the first occurrence of [pat]. *)
Fixpoint cut (pat s : string) : option (string * string) :=
  if Js.startsWith s pat then Some ("", drop (String.length pat) s)
  else
    match s with
    | EmptyString => None
    | String c s' =>
        match cut pat s' with
        | Some (before, after) => Some (String c before, after)
        | None => None
        end
    end.

(** The first match of [<sender_info>[\s\S]*?</sender_info>]: the text
    before it, the text between the tags and the text after it.  The match
    starts at the first opening tag and, being lazy, ends at the first
    closing tag after it; when no closing tag follows the first opening
    tag, none follows a later one. *)
Definition firstMatch (text : string) : option (string * string * string) :=
  match cut OPEN_TAG text with
  | Some (before, rest) =>
      match cut CLOSE_TAG rest with
      | Some (inner, after) => Some (before, inner, after)
      | None => None
      end
  | None => None
  end.

(** [text.replace(SENDER_INFO_PATTERN, "")]: every match, from left to
    right, is taken out.  Each match is longer than one character, so the
    length of the text is fuel enough. *)
Fixpoint removeMatches (fuel : nat) (text : string) : string :=
  match fuel with
  | O => text
  | S fuel' =>
      match firstMatch text with
      | Some (before, _, after) => before +:+ removeMatches fuel' after
      | None => text
      end
  end.

Definition stripSenderInfo (text : string) : string :=
  Js.trim (removeMatches (String.length text) text).

(** A character of the class [[a-f0-9-]] under the [i] flag. *)
Definition isIdChar (c : ascii) : bool :=
  let n := nat_of_ascii c in
  ((48 <=? n) && (n <=? 57) || (97 <=? n) && (n <=? 102)
   || (65 <=? n) && (n <=? 70) || (n =? 45))%nat.

Definition lower (c : ascii) : ascii :=
  let n := nat_of_ascii c in
  if ((65 <=? n) && (n <=? 90))%nat then ascii_of_nat (n + 32) else c.

(** [s] starts with the lower-case word [p], in any case. *)
Fixpoint startsWithWord (s p : string) : bool :=
  match p, s with
  | EmptyString, _ => true
  | String c p', String d s' => bool_decide (c = lower d) && startsWithWord s' p'
  | String _ _, EmptyString => false
  end.

Fixpoint takeWhile (p : ascii → bool) (s : string) : string :=
  match s with
  | String c s' => if p c then String c (takeWhile p s') else EmptyString
  | EmptyString => EmptyString
  end.

Fixpoint dropWhile (p : ascii → bool) (s : string) : string :=
  match s with
  | String c s' => if p c then dropWhile p s' else s
  | EmptyString => EmptyString
  end.

(** The group of the first match of [session\s+([a-f0-9-]{6,})] under
    the [i] flag. *)
Fixpoint legacyId (s : string) : option string :=
  let here :=
    if startsWithWord s "session" then
      let rest := drop 7 s in
      let rest' := dropWhile Js.isWhiteSpace rest in
      if (String.length rest' <? String.length rest)%nat then
        let id := takeWhile isIdChar rest' in
        if (6 <=? String.length id)%nat then Some id else None
      else None
    else None in
  match here with
  | Some id => Some id
  | None =>
      match s with
      | EmptyString => None
      | String _ s' => legacyId s'
      end
  end.

(** [s || undefined] *)
Definition nonEmpty (s : string) : option string :=
  if Js.truthy s then Some s else None.

(** [typeof v === "string" ? v.trim() : ""] *)
Definition trimmedString (v : option json) : string :=
  match v with
  | Some (JStr s) => Js.trim s
  | _ => ""
  end.

Section Parsing.
Variable JSON_parse : string → parsed.

Definition parseSenderInfo (text : string) : option t :=
  match firstMatch text with
  | None => None
  | Some (_, inner, _) =>
      let raw := Js.trim inner in
      if negb (Js.truthy raw) then None
      else
        let structured :=
          if Js.startsWith raw "{" then
            match JSON_parse raw with
            | Value parsed =>
                let sessionId := trimmedString (prop parsed "sessionId") in
                let sessionName := trimmedString (prop parsed "sessionName") in
                if Js.truthy sessionId || Js.truthy sessionName
                then Some (Make (nonEmpty sessionId) (nonEmpty sessionName))
                else None
            | SyntaxError _ => None
            end
          else None in
        match structured with
        | Some info => Some info
        | None =>
            match legacyId raw with
            | Some id => Some (Make (Some id) None)
            | None => None
            end
        end
  end.

End Parsing.

Definition formatSenderInfo (info : option t) : option string :=
  match info with
  | None => None
  | Some info =>
      match sessionName info, sessionId info with
      | Some name, Some id =>
          if Js.truthy name && Js.truthy id then Some (name +:+ " (" +:+ id +:+ ")")
          else if Js.truthy name then Some name
          else if Js.truthy id then Some id
          else None
      | Some name, None => if Js.truthy name then Some name else None
      | None, Some id => if Js.truthy id then Some id else None
      | None, None => None
      end
  end.

End SenderInfo.


(** * Properties *)

(** ** Strings *)

Section StringFacts.

Lemma app_cons c (s t : string) : String c s +:+ t = String c (s +:+ t).
Proof. reflexivity. Qed.

Lemma app_comm_cons_str c (s t : string) : String c (s +:+ t) = String c s +:+ t.
Proof. reflexivity. Qed.

Lemma app_empty_l (s : string) : "" +:+ s = s.
Proof. reflexivity. Qed.

Lemma app_empty_r (s : string) : s +:+ "" = s.
Proof. induction s as [|c s IH]; [done|]. by rewrite app_cons, IH. Qed.

Lemma app_assoc_str (a b c : string) : (a +:+ b) +:+ c = a +:+ b +:+ c.
Proof. induction a as [|x a IH]; [done|]. by rewrite !app_cons, IH. Qed.

Lemma length_app_str (a b : string) :
  String.length (a +:+ b) = (String.length a + String.length b)%nat.
Proof. induction a as [|x a IH]; [done|]. rewrite app_cons. simpl. by rewrite IH. Qed.

Lemma str_eqb_eq a b : Js.str_eqb a b = true ↔ a = b.
Proof. unfold Js.str_eqb. by rewrite bool_decide_eq_true. Qed.

Lemma str_eqb_neq a b : Js.str_eqb a b = false ↔ a ≠ b.
Proof. unfold Js.str_eqb. by rewrite bool_decide_eq_false. Qed.

(** A string without the character [c]. *)
Fixpoint lacks (c : ascii) (s : string) : Prop :=
  match s with
  | EmptyString => True
  | String d s' => d ≠ c ∧ lacks c s'
  end.

Lemma lacks_app c a b : lacks c a → lacks c b → lacks c (a +:+ b).
Proof.
  induction a as [|x a IH]; [done|]. rewrite app_cons. simpl. intros [? ?] ?.
  split; [done|]. by apply IH.
Qed.

Lemma startsWith_empty s : Js.startsWith s "" = true.
Proof. by destruct s. Qed.

Lemma includes_char_false c s :
  Js.includes s (String c "") = false → lacks c s.
Proof.
  induction s as [|d s IH]; [done|]. simpl. rewrite startsWith_empty, andb_true_r.
  intros [Hd Hs]%orb_false_iff. split; [|by apply IH].
  apply bool_decide_eq_false in Hd. congruence.
Qed.

Lemma split_lacks c s : lacks c s → Js.split c s = [s].
Proof.
  induction s as [|d s IH]; [done|]. simpl. intros [Hd Hs].
  rewrite bool_decide_eq_false_2 by done. by rewrite IH.
Qed.

Lemma split_nonempty c s : Js.split c s ≠ [].
Proof.
  destruct s as [|d s]; [done|]. simpl. case_bool_decide; [done|].
  by destruct (Js.split c s).
Qed.

Lemma split_app_sep c (a b : string) :
  Js.split c (a +:+ String c b) = removelast (Js.split c a) ++
                                 (List.last (Js.split c a) "" :: Js.split c b).
Proof.
  induction a as [|d a IH].
  - rewrite app_empty_l. simpl. by rewrite bool_decide_eq_true_2.
  - rewrite app_cons. simpl. case_bool_decide.
    + rewrite IH. pose proof (split_nonempty c a) as Hne.
      by destruct (Js.split c a) as [|seg segs] eqn:E.
    + rewrite IH. pose proof (split_nonempty c a) as Hne.
      destruct (Js.split c a) as [|seg segs] eqn:E; [done|].
      by destruct segs as [|seg' segs'].
Qed.

Lemma join_snoc sep (l : list string) (t : string) :
  Js.join sep (l ++ [t]) =
  match l with [] => t | _ => Js.join sep l +:+ sep +:+ t end.
Proof.
  induction l as [|x l IH]; [done|].
  destruct l as [|y l'].
  - done.
  - change (Js.join sep ((x :: y :: l') ++ [t]))
      with (x +:+ sep +:+ Js.join sep ((y :: l') ++ [t])).
    rewrite IH.
    change (Js.join sep (x :: y :: l')) with (x +:+ sep +:+ Js.join sep (y :: l')).
    by rewrite !app_assoc_str.
Qed.

Lemma endsWith_refl p : Js.endsWith p p = true.
Proof.
  destruct p; cbn [Js.endsWith]; apply orb_true_iff; left; by apply str_eqb_eq.
Qed.

Lemma endsWith_app a p : Js.endsWith (a +:+ p) p = true.
Proof.
  induction a as [|c a IH].
  - rewrite app_empty_l. apply endsWith_refl.
  - rewrite app_cons. cbn [Js.endsWith]. rewrite IH. apply orb_true_r.
Qed.

Lemma substring_prefix_app (a p : string) :
  String.substring 0 (String.length a) (a +:+ p) = a.
Proof. induction a as [|c a IH]; simpl; [by destruct p|]. by rewrite IH. Qed.

Lemma dropEnd_app a p : Js.dropEnd (String.length p) (a +:+ p) = a.
Proof.
  unfold Js.dropEnd. rewrite length_app_str.
  replace (String.length a + String.length p - String.length p)%nat
    with (String.length a) by lia.
  apply substring_prefix_app.
Qed.

End StringFacts.

(** ** Paths *)

Section PathFacts.

(** A file name: one non-empty segment other than [.] and [..]. *)
Definition plainName (t : string) : Prop :=
  lacks "/" t ∧ Path.is_skip t = false ∧ Path.is_dots t = false.

Lemma normalizeSegs_app allow xs :
  ∀ acc, ∃ acc', ∀ ys,
    Path.normalizeSegs allow acc (xs ++ ys) = Path.normalizeSegs allow acc' ys.
Proof.
  induction xs as [|x xs IH]; intros acc; [by exists acc|].
  simpl. destruct (Path.is_skip x); [apply IH|].
  destruct (Path.is_dots x).
  - destruct acc as [|l acc]; [apply IH|]. destruct (Path.is_dots l); apply IH.
  - apply IH.
Qed.

Lemma normalizeSegs_plain allow acc t :
  plainName t → Path.normalizeSegs allow acc [t; ""] = rev acc ++ [t].
Proof. intros (_ & Hskip & Hdots). simpl. by rewrite Hskip, Hdots. Qed.

Lemma resolveLoop_prefix l :
  ∀ acc, ∃ P b, Path.resolveLoop l acc = (P +:+ acc, b)
                ∧ (P = "" ∨ ∃ P', P = P' +:+ "/").
Proof.
  induction l as [|p l IH]; intros acc; simpl.
  - exists "", false. split; [done|by left].
  - destruct (Js.str_eqb p ""); [apply IH|].
    destruct (Path.isAbsolute p).
    + exists (p +:+ "/"), true. split; [by rewrite app_assoc_str|]. right. by exists p.
    + destruct (IH (p +:+ "/" +:+ acc)) as (P & b & -> & HP).
      exists (P +:+ p +:+ "/"), b. split; [by rewrite !app_assoc_str|].
      right. exists (P +:+ p). by rewrite app_assoc_str.
Qed.

Lemma plainName_nonempty t : plainName t → t ≠ "".
Proof. intros (_ & Hskip & _) ->. by vm_compute in Hskip. Qed.

Lemma plainName_relative t : plainName t → Path.isAbsolute t = false.
Proof.
  intros (Hl & _). destruct t as [|c t]; [done|]. destruct Hl as [Hc _].
  unfold Path.isAbsolute. cbn [Js.startsWith].
  rewrite bool_decide_eq_false_2; [done|congruence].
Qed.

Lemma resolveLoop_relative p l acc :
  p ≠ "" → Path.isAbsolute p = false →
  Path.resolveLoop (p :: l) acc = Path.resolveLoop l (p +:+ "/" +:+ acc).
Proof.
  intros Hne Hrel. cbn [Path.resolveLoop].
  by rewrite (proj2 (str_eqb_neq p "")), Hrel.
Qed.

(** The shape of every path that ends in the file name [t]. *)
Definition endsInName (t p : string) : Prop :=
  p = t ∨ ∃ q, p = q +:+ "/" +:+ t.

Lemma basename_endsInName t p : plainName t → endsInName t p → Path.basename p = t.
Proof.
  intros Ht. assert (t ≠ "") as Hne by by apply plainName_nonempty.
  intros [-> | (q & ->)]; unfold Path.basename.
  - destruct Ht as (Hl & _). rewrite split_lacks by done.
    by rewrite filter_cons_True by exact Hne.
  - change (q +:+ "/" +:+ t) with (q +:+ String "/" t).
    rewrite split_app_sep, (split_lacks "/" t) by apply Ht.
    rewrite filter_app, filter_cons.
    destruct (decide (List.last (Js.split "/" q) "" ≠ "")) as [?|?];
      rewrite (filter_cons_True _ t) by exact Hne; simpl.
    + rewrite filter_nil, cons_middle, app_assoc. apply last_last.
    + rewrite filter_nil. apply last_last.
Qed.

Lemma resolve_endsInName cwd D t :
  plainName t → endsInName t (Path.resolve cwd [D; t]).
Proof.
  intros Ht. unfold Path.resolve.
  change (rev [cwd; D; t]) with [t; D; cwd].
  rewrite resolveLoop_relative
    by (by apply plainName_nonempty || by apply plainName_relative).
  destruct (resolveLoop_prefix [D; cwd] (t +:+ "/" +:+ "")) as (P & b & -> & HP).
  assert (∃ pre, Js.split "/" (P +:+ t +:+ "/" +:+ "") = pre ++ [t; ""]) as [pre Hsplit].
  { destruct HP as [-> | (P' & ->)].
    - exists []. rewrite app_empty_l.
      change (t +:+ "/" +:+ "") with (t +:+ String "/" "").
      rewrite split_app_sep, (split_lacks "/" t) by apply Ht. done.
    - rewrite app_assoc_str.
      change (P' +:+ "/" +:+ t +:+ "/" +:+ "") with (P' +:+ String "/" (t +:+ String "/" "")).
      rewrite split_app_sep, (split_app_sep "/" t ""), (split_lacks "/" t) by apply Ht.
      exists (removelast (Js.split "/" P') ++ [List.last (Js.split "/" P') ""]).
      by rewrite <- app_assoc. }
  unfold Path.normalizeString. rewrite Hsplit.
  destruct (normalizeSegs_app (negb b) pre []) as [acc Hacc]. rewrite Hacc.
  rewrite normalizeSegs_plain by done. rewrite join_snoc.
  assert (endsInName t (match rev acc with
                        | [] => t
                        | _ :: _ => Js.join "/" (rev acc) +:+ "/" +:+ t
                        end)) as Hq.
  { destruct (rev acc); [by left|right; by eexists]. }
  set (q := match rev acc with [] => t | _ => _ end) in *.
  assert (q ≠ "") as Hqne.
  { destruct Hq as [-> | (q' & ->)]; [by apply plainName_nonempty|].
    intros Hq. apply (f_equal String.length) in Hq.
    rewrite !length_app_str in Hq. simpl in Hq. lia. }
  destruct b.
  - destruct Hq as [-> | (q' & ->)].
    + right. by exists "".
    + right. exists ("/" +:+ q'). by rewrite app_assoc_str.
  - by rewrite (proj2 (str_eqb_neq q "")).
Qed.

Lemma basename_resolve cwd D t :
  plainName t → Path.basename (Path.resolve cwd [D; t]) = t.
Proof. intros Ht. apply basename_endsInName; [done|]. by apply resolve_endsInName. Qed.

End PathFacts.
(** ** The socket directory *)

Section SocketFacts.
Import Fs ControlSocket.

Lemma safe_alias_truthy a : isSafeAlias a = true → Js.truthy a = true.
Proof.
  unfold isSafeAlias. intros H. repeat (apply andb_true_iff in H as [H ?]).
  by destruct a.
Qed.

Lemma safe_id_plain s : isSafeSessionId s = true → plainName (s +:+ SOCKET_SUFFIX).
Proof.
  unfold isSafeSessionId. intros H. repeat (apply andb_true_iff in H as [H ?]).
  apply negb_true_iff in H. apply includes_char_false in H.
  assert (5 ≤ String.length (s +:+ SOCKET_SUFFIX))%nat as Hlen.
  { rewrite length_app_str. simpl. lia. }
  split; [|split].
  - apply lacks_app; [done|]. by vm_compute.
  - unfold Path.is_skip. apply orb_false_iff. split; apply str_eqb_neq;
      intros E; rewrite E in Hlen; simpl in Hlen; lia.
  - unfold Path.is_dots. apply str_eqb_neq.
    intros E; rewrite E in Hlen; simpl in Hlen; lia.
Qed.

(** Removing what is at [p], whether or not something is there, as
    [createAliasSymlink] does before it links. *)
Lemma unlink_tolerant p (log : error → string) w :
  files w !! p ≠ Some NDir →
  ∃ w1, tryCatch (unlink p)
          (λ e, if negb (isEnoent e) then stderrWrite (log e) else mret tt) w
        = (Ok tt, w1)
        ∧ files w1 = delete p (files w).
Proof.
  intros Hnd. unfold tryCatch, unlink, record.
  destruct (files w !! p) as [[| |t|]|] eqn:E; try done; simpl; eauto.
  eexists. split; [done|]. simpl. symmetry. by apply delete_id.
Qed.

Lemma symlink_fresh target p w :
  files w !! p = None → files w !! parent p = Some NDir →
  ∃ w1, symlink target p w = (Ok tt, w1)
        ∧ files w1 = <[p := NSymlink target]> (files w).
Proof. intros Hp Hdir. unfold symlink. rewrite Hp, Hdir. eauto. Qed.

Lemma createAliasSymlink_creates homedir s a w :
  isSafeAlias a = true →
  files w !! Fs.parent (getAliasPath homedir a) = Some NDir →
  files w !! getAliasPath homedir a ≠ Some NDir →
  ∃ w1, createAliasSymlink homedir s a w = (Ok tt, w1)
        ∧ files w1 !! getAliasPath homedir a = Some (NSymlink (s +:+ SOCKET_SUFFIX)).
Proof.
  intros Ha Hdir Hnd. unfold createAliasSymlink.
  rewrite safe_alias_truthy, Ha by done. cbn [negb orb].
  set (p := getAliasPath homedir a) in *.
  unfold mbind, M_bind, bind.
  edestruct (unlink_tolerant p) as (w1 & -> & Hw1); [exact Hnd|].
  assert (parent p ≠ p) as Hpar by (intros E; rewrite E in Hdir; done).
  edestruct (symlink_fresh (s +:+ SOCKET_SUFFIX) p w1) as (w2 & Hsym & Hw2).
  { rewrite Hw1. apply lookup_delete_eq. }
  { rewrite Hw1, lookup_delete_ne by done. exact Hdir. }
  unfold tryCatch. rewrite Hsym. eexists. split; [done|].
  rewrite Hw2. apply lookup_insert_eq.
Qed.

Lemma resolve_reads homedir cwd a w target :
  isSafeAlias a = true →
  files w !! getAliasPath homedir a = Some (NSymlink target) →
  resolveSessionIdFromAlias homedir cwd a w =
  (Ok (let base := Path.basename (Path.resolve cwd [CONTROL_DIR homedir; target]) in
       if negb (Js.endsWith base SOCKET_SUFFIX) then None
       else let sessionId := Js.dropEnd (String.length SOCKET_SUFFIX) base in
            if isSafeSessionId sessionId then Some sessionId else None),
   record (Readlink (getAliasPath homedir a)) w).
Proof.
  intros Ha Hl. unfold resolveSessionIdFromAlias.
  rewrite safe_alias_truthy, Ha by done. cbn [negb orb].
  unfold tryCatch, mbind, M_bind, bind, readlink. rewrite Hl.
  by destruct (negb _).
Qed.

Lemma resolve_unreadable homedir cwd a w :
  (∀ target, files w !! getAliasPath homedir a ≠ Some (NSymlink target)) →
  ∃ w', resolveSessionIdFromAlias homedir cwd a w = (Ok None, w').
Proof.
  intros Hl. unfold resolveSessionIdFromAlias.
  destruct (negb (Js.truthy a) || negb (isSafeAlias a)); [by eexists|].
  unfold tryCatch, mbind, M_bind, bind, readlink.
  destruct (files w !! getAliasPath homedir a) as [[| |t|]|] eqn:E;
    try (by eexists). by specialize (Hl t).
Qed.

(** C7. For a path-safe session id [s] and a path-safe alias [a], in a
    control directory that exists and holds no directory at the alias path,
    resolving [a] after [createAliasSymlink(s, a)] returns [s].  Moreover
    [resolveSessionIdFromAlias] always returns and never raises, and it
    returns [null] when the alias is unsafe, when the link cannot be read,
    when the base name of the resolved target does not end with the socket
    suffix, and when the id derived from it is not path-safe. *)
Theorem alias_roundtrip_and_null_cases (homedir cwd s a : string) (w : world)
    (Hs : isSafeSessionId s = true) (Ha : isSafeAlias a = true)
    (Hdir : files w !! parent (getAliasPath homedir a) = Some NDir)
    (Hnd : files w !! getAliasPath homedir a ≠ Some NDir) :
  (∃ w1 w2, createAliasSymlink homedir s a w = (Ok tt, w1)
            ∧ resolveSessionIdFromAlias homedir cwd a w1 = (Ok (Some s), w2))
  ∧ (∀ alias w0, ∃ r w',
       resolveSessionIdFromAlias homedir cwd alias w0 = (Ok r, w')
       ∧ (isSafeAlias alias = false → r = None)
       ∧ ((∀ target, files w0 !! getAliasPath homedir alias ≠ Some (NSymlink target))
          → r = None)
       ∧ (∀ target base,
            files w0 !! getAliasPath homedir alias = Some (NSymlink target) →
            base = Path.basename (Path.resolve cwd [CONTROL_DIR homedir; target]) →
            (Js.endsWith base SOCKET_SUFFIX = false → r = None)
            ∧ (isSafeSessionId (Js.dropEnd (String.length SOCKET_SUFFIX) base) = false
               → r = None))).
Proof.
  split.
  - destruct (createAliasSymlink_creates homedir s a w Ha Hdir Hnd) as (w1 & Hc & Hl).
    exists w1. eexists. split; [exact Hc|].
    rewrite (resolve_reads homedir cwd a w1 _ Ha Hl).
    rewrite basename_resolve by by apply safe_id_plain.
    cbv zeta. rewrite endsWith_app, dropEnd_app, Hs. done.
  - intros alias w0.
    destruct (isSafeAlias alias) eqn:Hsafe.
    + destruct (files w0 !! getAliasPath homedir alias) as [[| |t|]|] eqn:E.
      1,2,4,5: (destruct (resolve_unreadable homedir cwd alias w0) as [w' Hr];
                [intros t; rewrite E; done|];
                exists None, w'; split; [exact Hr|]; repeat split; done).
      eexists _, _. split; [apply (resolve_reads homedir cwd alias w0 t Hsafe E)|].
      split; [done|]. split; [intros Hn; by specialize (Hn t)|].
      intros target base [= <-] ->. cbv zeta. split.
      * by intros ->.
      * intros ->. by destruct (negb _).
    + exists None, w0. split.
      { unfold resolveSessionIdFromAlias. rewrite Hsafe. cbn [negb].
        by rewrite orb_true_r. }
      repeat split; done.
Qed.

(** C10. With a null socket path, [removeSocket] and
    [removeAliasesForSocket] return at once: no system call is issued and
    the world (files, standard error, calls) is unchanged. *)
Theorem remove_null_is_noop (homedir cwd : string) (w : world) :
  removeSocket None w = (Ok tt, w)
  ∧ removeAliasesForSocket homedir cwd None w = (Ok tt, w).
Proof. split; reflexivity. Qed.

(** A control directory that exists and is empty. *)
Definition emptyControlDir : world :=
  MkWorld (<["/home/u/.pi/session-control" := NDir]> ∅) [] [].

Lemma alias_roundtrip_witness :
  ∃ w1 w2,
    createAliasSymlink "/home/u" "s1" "worker1" emptyControlDir = (Ok tt, w1)
    ∧ resolveSessionIdFromAlias "/home/u" "/" "worker1" w1 = (Ok (Some "s1"), w2).
Proof.
  apply (alias_roundtrip_and_null_cases "/home/u" "/" "s1" "worker1" emptyControlDir).
  - reflexivity.
  - reflexivity.
  - vm_compute. reflexivity.
  - vm_compute. discriminate.
Defined.

End SocketFacts.
(** ** The dispatcher and the server *)

Section DispatcherFacts.
Import Host ControlMessages ControlRpc Control.

(** The frames written, with the connection each was written to. *)
Definition writesOf (effects : list effect) : list (nat * string) :=
  omap (λ e, match e with SocketWrite sock line => Some (sock, line) | _ => None end)
       effects.

(** The calls that change the session. *)
Definition changesSession (e : effect) : bool :=
  match e with
  | CtxAbort | SendMessage _ _ _ _ _ | RewindTo _ => true
  | _ => false
  end.

Lemma writesOf_app a b : writesOf (a ++ b) = writesOf a ++ writesOf b.
Proof. apply omap_app. Qed.



Section ServerFacts.
Variable JSON_parse : string → parsed.


(** The non-empty trimmed lines among the complete lines of a buffer split
    at its line feeds. *)
Definition commandLines (segs : list string) : list string :=
  List.filter Js.truthy (map Js.trim (removelast segs)).




End ServerFacts.

End DispatcherFacts.

Section HandlerFacts.
Import Host ControlMessages ControlRpc Control.








End HandlerFacts.

Section CommandFacts.
Import Host ControlMessages ControlRpc Control.

Variable rt : Runtime.
Variable state : SocketState.
Variable ctx : ExtensionContext.
Variable command : RpcCommand.t.
Variable sock : nat.
Hypothesis attached : context state = Some ctx.

(** C4. When the session reports busy, a [clear] command is answered by a
    failure response whose error says that the session is busy; nothing is
    done besides the alias resync and that write: [rewindTo] is not called,
    no message is sent, nothing is aborted, and the server state is
    unchanged. *)
Theorem clear_while_busy_refused
    (Hclear : RpcCommand.type command = "clear") (Hbusy : isIdle ctx = false) :
  ∃ error,
    handleCommand rt state command sock =
      (state, [SyncAlias; SyncAlias;
               SocketWrite sock
                 (responseLine (RpcResponse.Make "clear" false None (Some error)
                                  (asString (prop (RpcCommand.body command) "id"))))])
    ∧ Js.includes error "busy" = true
    ∧ (∀ entryId, RewindTo entryId ∉ (handleCommand rt state command sock).2)
    ∧ List.filter changesSession (handleCommand rt state command sock).2 = [].
Proof.
  exists "Session is busy - wait for turn to complete".
  assert (handleCommand rt state command sock =
            (state, [SyncAlias; SyncAlias;
                     SocketWrite sock
                       (responseLine (RpcResponse.Make "clear" false None
                          (Some "Session is busy - wait for turn to complete")
                          (asString (prop (RpcCommand.body command) "id"))))])) as E.
  { unfold handleCommand, respond. rewrite attached, Hclear, Hbusy. reflexivity. }
  rewrite E. split; [done|]. split; [by vm_compute|]. split; [|done].
  intros entryId Hin. cbn [snd] in Hin.
  repeat (apply elem_of_cons in Hin as [Hin|Hin]; [done|]).
  by apply elem_of_nil in Hin.
Qed.

Lemma length_zero_iff (s : string) : (String.length s =? 0)%nat = true ↔ s = "".
Proof. destruct s; simpl; split; done. Qed.

(** C5. A [send] command whose message is missing, is not a string or
    trims to the empty string fails.  Any other [send] succeeds with data
    [{delivered: true, mode}]: when the session is idle the message is
    delivered as a turn of its own and [mode] is ["direct"]; when it is busy
    the message is delivered with the requested mode ([steer] or
    [follow_up], [steer] when none is given) and [mode] is that mode. *)
Theorem send_delivery (Hsend : RpcCommand.type command = "send") :
  (match prop (RpcCommand.body command) "message" with
   | Some (JStr message) => Js.trim message = ""
   | _ => True
   end →
   ∃ error,
     handleCommand rt state command sock =
       (state, [SyncAlias; SyncAlias;
                SocketWrite sock
                  (responseLine (RpcResponse.Make "send" false None (Some error)
                                   (asString (prop (RpcCommand.body command) "id"))))]))
  ∧ (∀ message requested,
       prop (RpcCommand.body command) "message" = Some (JStr message) →
       Js.trim message ≠ "" →
       prop (RpcCommand.body command) "mode" = JStr <$> requested →
       requested ∈ [None; Some "steer"; Some "follow_up"] →
       let mode := default "steer" requested in
       handleCommand rt state command sock =
         (state,
          [SyncAlias;
           SendMessage SESSION_MESSAGE_TYPE message true true
             (if isIdle ctx then None
              else Some (if Js.str_eqb mode "follow_up" then "followUp" else "steer"));
           SyncAlias;
           SocketWrite sock
             (responseLine
                (RpcResponse.Make "send" true
                   (Some (JObj [("delivered", JBool true);
                                ("mode", JStr (if isIdle ctx then "direct" else mode))]))
                   None (asString (prop (RpcCommand.body command) "id"))))])).
Proof.
  split.
  - intros Hmsg. exists "Missing message".
    unfold handleCommand, respond. rewrite attached, Hsend.
    change (Js.str_eqb "send" "abort") with false.
    change (Js.str_eqb "send" "subscribe") with false.
    change (Js.str_eqb "send" "get_message") with false.
    change (Js.str_eqb "send" "get_summary") with false.
    change (Js.str_eqb "send" "clear") with false.
    change (Js.str_eqb "send" "send") with true. cbv iota.
    destruct (prop (RpcCommand.body command) "message") as [[| | |message| |]|];
      try reflexivity.
    cbn [asString]. rewrite Hmsg. reflexivity.
  - intros message requested Hmsg Htrim Hmode Hreq mode.
    unfold handleCommand, respond. rewrite attached, Hsend.
    change (Js.str_eqb "send" "abort") with false.
    change (Js.str_eqb "send" "subscribe") with false.
    change (Js.str_eqb "send" "get_message") with false.
    change (Js.str_eqb "send" "get_summary") with false.
    change (Js.str_eqb "send" "clear") with false.
    change (Js.str_eqb "send" "send") with true. cbv iota.
    rewrite Hmsg, Hmode. cbn [asString].
    destruct (String.length (Js.trim message) =? 0)%nat eqn:Hlen.
    { by apply length_zero_iff in Hlen. }
    subst mode.
    repeat (apply elem_of_cons in Hreq as [->|Hreq]);
      [| | |by apply elem_of_nil in Hreq]; by destruct (isIdle ctx).
Qed.



End CommandFacts.

Section TurnEndFacts.
Import Host ControlMessages ControlRpc Control.

(** The payload of a [turn_end] event: the last assistant message, when
    there is one, and the index of the turn. *)
Definition turnEndData (ctx : ExtensionContext) (turnIndex : Z) : json :=
  JObj (RpcResponse.optional "message"
          (ExtractedMessage.toObject <$> getLastAssistantMessage ctx)
        ++ [("turnIndex", JNum turnIndex)]).

(** The event frame owed to a subscription. *)
Definition turnEndFrame (ctx : ExtensionContext) (turnIndex : Z)
    (sub : TurnEndSubscription) : nat * string :=
  (socket sub,
   eventLine (RpcEvent.Make "turn_end" (Some (turnEndData ctx turnIndex))
                (Some (subscriptionId sub)))).

(** The id [subscribe] registers: the command's id, or a generated one. *)
Definition subscriptionIdOf (rt : Runtime) (command : RpcCommand.t) : string :=
  default ("sub_" +:+ numberToString (dateNow rt) +:+ "_" +:+ randomToken rt)
          (asString (prop (RpcCommand.body command) "id")).

Lemma writesOf_events (f : TurnEndSubscription → RpcEvent.t) subs :
  writesOf (concat (map (λ sub, writeEvent (socket sub) (f sub)) subs))
  = map (λ sub, (socket sub, eventLine (f sub))) subs.
Proof. induction subs as [|sub subs IH]; [done|]. simpl. by rewrite IH. Qed.

Lemma onTurnEnd_writes state ctx turnIndex :
  writesOf (onTurnEnd state ctx turnIndex).2
  = map (turnEndFrame ctx turnIndex) (turnEndSubscriptions state).
Proof.
  unfold onTurnEnd. destruct (turnEndSubscriptions state) as [|sub subs]; [done|].
  cbn [snd]. rewrite writesOf_app. apply writesOf_events.
Qed.

Lemma onTurnEnd_empties state ctx turnIndex :
  turnEndSubscriptions (onTurnEnd state ctx turnIndex).1 = [].
Proof. unfold onTurnEnd. by destruct (turnEndSubscriptions state) eqn:E. Qed.

Lemma onTurnEnd_idle state ctx turnIndex :
  turnEndSubscriptions state = [] → onTurnEnd state ctx turnIndex = (state, []).
Proof. intros E. unfold onTurnEnd. by rewrite E. Qed.

Lemma subscribe_registers rt state command sock attached :
  context state = Some attached →
  RpcCommand.type command = "subscribe" →
  prop (RpcCommand.body command) "event" = Some (JStr "turn_end") →
  (handleCommand rt state command sock).1
  = withSubscriptions state
      (turnEndSubscriptions state ++ [MkSubscription sock (subscriptionIdOf rt command)]).
Proof.
  intros Hctx Htype Hevent. unfold handleCommand. rewrite Hctx, Htype, Hevent.
  reflexivity.
Qed.

(** C2. When a turn completes with [n] pending subscriptions, one
    [turn_end] event frame is written per subscription, to its connection
    and carrying its subscription id, in the order of registration; the
    pending list is empty afterwards, so that a further turn completion
    writes nothing and changes nothing.  A [subscribe] command for
    [turn_end] appends one subscription for its connection. *)
Theorem turn_end_subscriptions_one_shot (state : SocketState)
    (ctx : ExtensionContext) (turnIndex : Z) :
  let fired := onTurnEnd state ctx turnIndex in
  writesOf fired.2 = map (turnEndFrame ctx turnIndex) (turnEndSubscriptions state)
  ∧ length (writesOf fired.2) = length (turnEndSubscriptions state)
  ∧ turnEndSubscriptions fired.1 = []
  ∧ (∀ ctx' turnIndex', onTurnEnd fired.1 ctx' turnIndex' = (fired.1, []))
  ∧ (∀ rt command sock attached,
       context state = Some attached →
       RpcCommand.type command = "subscribe" →
       prop (RpcCommand.body command) "event" = Some (JStr "turn_end") →
       turnEndSubscriptions (handleCommand rt state command sock).1
       = turnEndSubscriptions state
         ++ [MkSubscription sock (subscriptionIdOf rt command)]).
Proof.
  cbv zeta. split; [apply onTurnEnd_writes|].
  split; [by rewrite onTurnEnd_writes, length_map|].
  split; [apply onTurnEnd_empties|]. split.
  - intros ctx' turnIndex'. apply onTurnEnd_idle, onTurnEnd_empties.
  - intros rt command sock attached Hctx Htype Hevent.
    by rewrite (subscribe_registers _ _ _ _ _ Hctx Htype Hevent).
Qed.

(** Two connections subscribe, the turn ends: each receives its event, and
    a second turn end delivers nothing. *)
Example two_subscribers_one_event_each (rt : Runtime) (state : SocketState)
    (ctx : ExtensionContext) :
  context state = Some ctx → turnEndSubscriptions state = [] →
  let subscribe id := RpcCommand.Make "subscribe"
                        (JObj [("type", JStr "subscribe"); ("event", JStr "turn_end");
                               ("id", JStr id)]) in
  let state1 := (handleCommand rt state (subscribe "a") 1).1 in
  let state2 := (handleCommand rt state1 (subscribe "b") 2).1 in
  let fired := onTurnEnd state2 ctx 5 in
  writesOf fired.2 = [turnEndFrame ctx 5 (MkSubscription 1 "a");
                      turnEndFrame ctx 5 (MkSubscription 2 "b")]
  ∧ turnEndSubscriptions fired.1 = []
  ∧ writesOf (onTurnEnd fired.1 ctx 6).2 = [].
Proof.
  intros Hctx Hsubs. cbv zeta.
  rewrite (subscribe_registers rt state _ 1 ctx) by done.
  rewrite (subscribe_registers rt _ _ 2 ctx) by done.
  rewrite !onTurnEnd_writes, onTurnEnd_empties.
  cbn [turnEndSubscriptions withSubscriptions]. by rewrite Hsubs.
Qed.

End TurnEndFacts.

(** ** The command decoder *)

Section DecoderFacts.
Import ControlRpc.

Variable JSON_parse : string → parsed.

(** An object in JavaScript's sense that is not [null]: an object or an
    array. *)
Definition objectLike (v : json) : Prop :=
  match v with
  | JArr _ | JObj _ => True
  | _ => False
  end.

(** C3, as the code has it.  For a line that parses as JSON, the decoder
    fails with the not-an-object error exactly when the parsed value is
    [null], a boolean, a number or a string (an array counts as an object);
    it fails with the missing-type error exactly when the value is an
    object or array whose [type] property is absent or not a string; and
    otherwise it returns the parsed object with its [type] string, which
    may be any string.  A line that does not parse fails with the message
    of the syntax error. *)
Theorem parseCommand_cases (line : string) :
  match JSON_parse line with
  | Value v =>
      (parseCommand JSON_parse line = Error "Invalid command: expected JSON object"
       ↔ ¬ objectLike v)
      ∧ (parseCommand JSON_parse line = Error "Missing command type"
         ↔ objectLike v ∧ asString (prop v "type") = None)
      ∧ (∀ type, objectLike v → prop v "type" = Some (JStr type) →
           parseCommand JSON_parse line = Command (RpcCommand.Make type v))
  | SyntaxError message =>
      parseCommand JSON_parse line = Error ("Failed to parse command: " +:+ message)
  end.
Proof.
  unfold parseCommand. destruct (JSON_parse line) as [v|message]; [|done].
  destruct v as [|[]|n|s|items|props]; cbn [truthy typeofObject negb orb objectLike];
    try (destruct n); try (destruct s);
    try (split; [split; [tauto|done]|split; [split; [done|tauto]|tauto]]).
  - (* array *)
    cbn [prop asString]. split; [split; [done|tauto]|]. split; [done|]. done.
  - (* object *)
    destruct (asString (prop (JObj props) "type")) as [t|] eqn:Ht.
    + split; [split; [done|tauto]|]. split; [split; [done|intros [_ ?]; done]|].
      intros type _ Hp. rewrite Hp in Ht. by injection Ht as ->.
    + split; [split; [done|tauto]|]. split; [done|].
      intros type _ Hp. by rewrite Hp in Ht.
Qed.

End DecoderFacts.

(** ** The RPC client *)

Section ClientFacts.
Import ControlMessages ControlRpc.

Lemma split_app_frame c (a b : string) :
  Js.split c (a +:+ b)
  = removelast (Js.split c a) ++ Js.split c (List.last (Js.split c a) "" +:+ b).
Proof.
  induction a as [|d a IH]; [done|].
  rewrite app_cons. cbn [Js.split]. pose proof (split_nonempty c a) as Hne.
  case_bool_decide.
  - rewrite IH. by destruct (Js.split c a).
  - rewrite IH. destruct (Js.split c a) as [|p [|q rest]]; [done|..].
    + cbn [removelast List.last app]. rewrite app_cons. cbn [Js.split].
      by rewrite bool_decide_eq_false_2.
    + done.
Qed.



Lemma commandLines_frame (text chunk : string) :
  commandLines (Js.split "010" (text +:+ chunk))
  = commandLines (Js.split "010" text)
    ++ commandLines (Js.split "010" (List.last (Js.split "010" text) "" +:+ chunk)).
Proof.
  unfold commandLines. rewrite split_app_frame.
  rewrite removelast_app by apply split_nonempty.
  by rewrite map_app, List.filter_app.
Qed.


Variable JSON_parse : string → parsed.
Variable command : RpcCommand.t.






Lemma drain_step waitForEvent st raw next rest :
  drain JSON_parse command waitForEvent st (raw :: next :: rest)
  = if negb (Js.truthy (Js.trim raw))
    then drain JSON_parse command waitForEvent st (next :: rest)
    else match onLine JSON_parse command waitForEvent st (Js.trim raw) with
         | inl done => withBuffer done (Js.join Js.LF (next :: rest))
         | inr st' => drain JSON_parse command waitForEvent st' (next :: rest)
         end.
Proof. reflexivity. Qed.



Lemma step_settled waitForEvent st ev o :
  settled st = Some o → step JSON_parse command waitForEvent st ev = st.
Proof. intros H. unfold step. by rewrite H. Qed.


(** All the chunks, one after the other. *)
Definition received (chunks : list string) : string :=
  fold_right String.append "" chunks.






End ClientFacts.

(** ** The JSON text codec *)

Section JsonInduction.
Variable P : json → Prop.
Hypothesis Hnull : P JNull.
Hypothesis Hbool : ∀ b, P (JBool b).
Hypothesis Hnum : ∀ n, P (JNum n).
Hypothesis Hstr : ∀ s, P (JStr s).
Hypothesis Harr : ∀ items, Forall P items → P (JArr items).
Hypothesis Hobj : ∀ props, Forall (λ kv, P kv.2) props → P (JObj props).

Fixpoint json_induction (v : json) : P v :=
  match v with
  | JNull => Hnull
  | JBool b => Hbool b
  | JNum n => Hnum n
  | JStr s => Hstr s
  | JArr items =>
      Harr items
        ((fix all (l : list json) : Forall P l :=
            match l with
            | [] => List.Forall_nil P
            | x :: rest => @List.Forall_cons _ P x rest (json_induction x) (all rest)
            end) items)
  | JObj props =>
      Hobj props
        ((fix all (l : list (string * json)) : Forall (λ kv, P kv.2) l :=
            match l with
            | [] => List.Forall_nil _
            | (k, x) :: rest =>
                @List.Forall_cons _ (λ kv, P kv.2) (k, x) rest (json_induction x) (all rest)
            end) props)
  end.
End JsonInduction.

Section CodecFacts.
Import JSON.

(** The largest integer a JavaScript number holds exactly together with all
    smaller ones ([Number.MAX_SAFE_INTEGER]). *)
Definition MAX_SAFE_INTEGER : Z := 9007199254740991.

Fixpoint distinct (keys : list string) : bool :=
  match keys with
  | [] => true
  | k :: rest => negb (bool_decide (k ∈ rest)) && distinct rest
  end.

(** The values a frame carries: numbers are safe integers, and the
    properties of an object have distinct names, as those of every
    JavaScript object do. *)
Fixpoint wellFormed (v : json) : bool :=
  match v with
  | JNum n => (Z.abs n <=? MAX_SAFE_INTEGER)
  | JArr items => forallb wellFormed items
  | JObj props =>
      distinct (map fst props)
      && forallb (λ kv, match kv with (_, x) => wellFormed x end) props
  | _ => true
  end.

(** Fuel that suffices to parse the text of a value. *)
Fixpoint need (v : json) : nat :=
  match v with
  | JArr items => S (length items + list_sum (map need items))
  | JObj props =>
      S (length props
         + list_sum (map (λ kv, match kv with (_, x) => need x end) props))
  | _ => 1
  end.

(** What may follow a value in a text: nothing, or a character that
    neither continues a number nor is a digit. *)
Definition delimited (rest : string) : bool :=
  match rest with
  | EmptyString => true
  | String c _ => negb (isDigit c) && negb (startsFraction rest)
  end.

(** *** Strings *)

Lemma parseStringBody_quoteChar c r :
  parseStringBody (quoteChar c +:+ r) = consFst c (parseStringBody r).
Proof. destruct c as [[] [] [] [] [] [] [] []]; reflexivity. Qed.

Lemma parseStringBody_quoteBody s rest :
  parseStringBody (quoteBody s +:+ String DQ rest) = Some (s, rest).
Proof.
  induction s as [|c s IH]; [done|].
  cbn [quoteBody]. rewrite app_assoc_str, parseStringBody_quoteChar, IH. done.
Qed.

(** *** Numbers *)

Lemma digitChar_code d : (d < 10)%N → N_of_ascii (digitChar d) = (48 + d)%N.
Proof. intros Hd. unfold digitChar. apply N_ascii_embedding. lia. Qed.

Lemma digitChar_isDigit d : (d < 10)%N → isDigit (digitChar d) = true.
Proof.
  intros Hd. unfold isDigit. rewrite digitChar_code by done.
  apply andb_true_iff. split; apply N.leb_le; lia.
Qed.

Lemma digitsFuel_app f : ∀ n acc rest,
  digitsFuel f n acc +:+ rest = digitsFuel f n (acc +:+ rest).
Proof.
  induction f as [|f IH]; intros n acc rest; [done|].
  cbn [digitsFuel]. destruct (n / 10 =? 0)%N; [done|]. by rewrite IH.
Qed.

Lemma parseDigits_cons d rest acc :
  (d < 10)%N →
  parseDigits (String (digitChar d) rest) acc = parseDigits rest (acc * 10 + d)%N.
Proof.
  intros Hd. cbn [parseDigits]. rewrite digitChar_isDigit, digitChar_code by done.
  f_equal. lia.
Qed.

Lemma parseDigits_digitsFuel f : ∀ n rest,
  (n < 2 ^ N.of_nat f)%N →
  parseDigits (digitsFuel f n rest) 0 = parseDigits rest n.
Proof.
  induction f as [|f IH]; intros n rest Hn.
  - cbn [digitsFuel]. f_equal. change (2 ^ N.of_nat 0)%N with 1%N in Hn. lia.
  - cbn [digitsFuel].
    assert (n mod 10 < 10)%N as Hmod by (apply N.mod_lt; lia).
    pose proof (N.div_mod n 10 ltac:(lia)) as Hdm.
    destruct (n / 10 =? 0)%N eqn:Hq.
    + apply N.eqb_eq in Hq. rewrite parseDigits_cons by done. f_equal. lia.
    + rewrite IH.
      * rewrite parseDigits_cons by done. f_equal. lia.
      * rewrite Nat2N.inj_succ, N.pow_succ_r' in Hn.
        apply N.Div0.div_lt_upper_bound; lia.
Qed.

Lemma digitsFuel_head f : ∀ n acc,
  (0 < n)%N → (n < 2 ^ N.of_nat f)%N →
  ∃ c r, digitsFuel f n acc = String c r ∧ isDigit c = true ∧ c ≠ "0"%char.
Proof.
  induction f as [|f IH]; intros n acc Hpos Hn.
  - change (2 ^ N.of_nat 0)%N with 1%N in Hn. lia.
  - cbn [digitsFuel].
    assert (n mod 10 < 10)%N as Hmod by (apply N.mod_lt; lia).
    pose proof (N.div_mod n 10 ltac:(lia)) as Hdm.
    destruct (n / 10 =? 0)%N eqn:Hq.
    + apply N.eqb_eq in Hq. eexists _, _. split; [done|].
      split; [by apply digitChar_isDigit|].
      intros E. apply (f_equal N_of_ascii) in E.
      rewrite digitChar_code in E by done. cbn in E. lia.
    + apply N.eqb_neq in Hq. apply IH; [lia|].
      rewrite Nat2N.inj_succ, N.pow_succ_r' in Hn.
      apply N.Div0.div_lt_upper_bound; lia.
Qed.

Lemma natToString_fuel n : (n < 2 ^ N.of_nat (S (N.to_nat (N.log2 n))))%N.
Proof.
  rewrite Nat2N.inj_succ, N2Nat.id.
  destruct n as [|p]; [done|]. apply N.log2_spec. lia.
Qed.

Lemma delimited_stop rest n : delimited rest = true → parseDigits rest n = (n, rest).
Proof.
  destruct rest as [|c rest]; [done|]. cbn [delimited parseDigits].
  intros [Hd _]%andb_true_iff. apply negb_true_iff in Hd. by rewrite Hd.
Qed.

Lemma delimited_not_fraction rest : delimited rest = true → startsFraction rest = false.
Proof.
  destruct rest as [|c rest]; [done|]. cbn [delimited].
  intros [_ Hf]%andb_true_iff. by apply negb_true_iff in Hf.
Qed.

Lemma parseNat_natToString n rest :
  delimited rest = true → parseNat (natToString n +:+ rest) = Some (n, rest).
Proof.
  intros Hrest. destruct n as [|p].
  - change (natToString 0 +:+ rest) with (String "0" rest). cbn [parseNat].
    rewrite bool_decide_eq_true_2 by done.
    destruct rest as [|d rest']; [done|].
    cbn [delimited] in Hrest. apply andb_true_iff in Hrest as [Hd Hf].
    apply negb_true_iff in Hd, Hf. by rewrite Hd, Hf.
  - unfold natToString. rewrite digitsFuel_app, app_empty_l.
    pose proof (natToString_fuel (Npos p)) as Hfuel.
    destruct (digitsFuel_head _ (Npos p) rest ltac:(lia) Hfuel) as (c & r & E & Hc & Hz).
    pose proof (parseDigits_digitsFuel _ (Npos p) rest Hfuel) as Hp.
    rewrite E in *. cbn [parseNat].
    rewrite bool_decide_eq_false_2, Hc, Hp, delimited_stop by done.
    by rewrite delimited_not_fraction.
Qed.

Lemma parseValue_digit f c r :
  isDigit c = true →
  parseValue (S f) (String c r)
  = match parseNat (String c r) with
    | Some (n, r') => Some (JNum (Z.of_N n), r')
    | None => None
    end.
Proof.
  destruct c as [[] [] [] [] [] [] [] []]; intros H; try discriminate H; reflexivity.
Qed.

Lemma natToString_head n :
  ∃ c r, natToString n = String c r ∧ isDigit c = true.
Proof.
  destruct n as [|p]; [by exists "0"%char, ""|].
  destruct (digitsFuel_head _ (Npos p) "" ltac:(lia) (natToString_fuel (Npos p)))
    as (c & r & E & Hc & _).
  by exists c, r.
Qed.

Lemma parseValue_number f n rest :
  delimited rest = true →
  parseValue (S f) (numberToString n +:+ rest) = Some (JNum n, rest).
Proof.
  intros Hrest. destruct n as [|p|p]; cbn [numberToString].
  - change ("0" +:+ rest) with (natToString 0 +:+ rest).
    change (natToString 0 +:+ rest) with (String "0" rest) at 1.
    rewrite parseValue_digit by done.
    change (String "0" rest) with (natToString 0 +:+ rest).
    by rewrite parseNat_natToString.
  - pose proof (parseNat_natToString (Npos p) rest Hrest) as Hp.
    destruct (natToString_head (Npos p)) as (c & r & E & Hc).
    rewrite E in *. rewrite app_cons in *. rewrite parseValue_digit by done.
    by rewrite Hp.
  - rewrite app_assoc_str. change ("-" +:+ natToString (N.pos p) +:+ rest)
      with (String "-" (natToString (N.pos p) +:+ rest)).
    cbn [parseValue skipWs isWs].
    change (bool_decide ("-"%char = "n"%char)) with false.
    change (bool_decide ("-"%char = "t"%char)) with false.
    change (bool_decide ("-"%char = "f"%char)) with false.
    change (bool_decide ("-"%char = DQ)) with false.
    change (bool_decide ("-"%char = "["%char)) with false.
    change (bool_decide ("-"%char = "{"%char)) with false.
    change (bool_decide ("-"%char = "-"%char)) with true.
    cbv iota. by rewrite parseNat_natToString.
Qed.

(** *** Arrays and objects *)

(** A character a value's text can begin with. *)
Definition startsValue (c : ascii) : bool :=
  isDigit c
  || bool_decide (c ∈ ["n"; "t"; "f"; DQ; "["; "{"; "-"]%char).

Lemma stringify_head v : ∃ c r, stringify v = String c r ∧ startsValue c = true.
Proof.
  destruct v as [|[]|n|s|items|props]; try (by eexists _, _).
  destruct n as [|p|p]; try (by eexists _, _).
  destruct (natToString_head (Npos p)) as (c & r & E & Hc).
  exists c, r. split; [done|]. unfold startsValue. by rewrite Hc.
Qed.

Lemma startsValue_skipWs c r : startsValue c = true → skipWs (String c r) = String c r.
Proof.
  destruct c as [[] [] [] [] [] [] [] []]; intros H; try discriminate H; reflexivity.
Qed.

Lemma startsValue_not_closing c :
  startsValue c = true →
  bool_decide (c = "]"%char) = false ∧ bool_decide (c = "}"%char) = false.
Proof.
  destruct c as [[] [] [] [] [] [] [] []]; intros H; try discriminate H; done.
Qed.

(** The text [v] is parsed back from, with whatever fuel suffices. *)
Definition parsesBack (v : json) : Prop :=
  wellFormed v = true →
  ∀ fuel rest, delimited rest = true → (need v ≤ fuel)%nat →
    parseValue fuel (stringify v +:+ rest) = Some (v, rest).

Lemma parseElems_items f items :
  Forall parsesBack items → forallb wellFormed items = true →
  (list_sum (map need items) ≤ f)%nat →
  ∀ x f' rest, (length items < f')%nat → parsesBack x → wellFormed x = true →
    (need x ≤ f)%nat →
    parseElems (parseValue f) f'
      (Js.join "," (map stringify (x :: items)) +:+ "]" +:+ rest)
    = Some (x :: items, rest).
Proof.
  induction items as [|y items IH]; intros Hall Hwf Hneed x f' rest Hf' Hx Hwx Hnx.
  - destruct f' as [|f']; [simpl in Hf'; lia|].
    cbn [map Js.join parseElems]. rewrite Hx by done. reflexivity.
  - destruct f' as [|f']; [simpl in Hf'; lia|].
    change (Js.join "," (map stringify (x :: y :: items)))
      with (stringify x +:+ "," +:+ Js.join "," (map stringify (y :: items))).
    rewrite !app_assoc_str. cbn [parseElems]. rewrite Hx by done.
    change ("," +:+ Js.join "," (map stringify (y :: items)) +:+ "]" +:+ rest)
      with (String "," (Js.join "," (map stringify (y :: items)) +:+ "]" +:+ rest)).
    cbn [skipWs isWs]. rewrite bool_decide_eq_true_2 by done.
    apply Forall_cons in Hall as [Hy Hall].
    cbn [forallb] in Hwf. apply andb_true_iff in Hwf as [Hwy Hwf].
    simpl in Hneed. cbn [length] in Hf'.
    rewrite IH by (done || lia). done.
Qed.

Lemma parseMembers_props f props :
  Forall (λ kv, parsesBack kv.2) props →
  forallb (λ kv, match kv with (_, x) => wellFormed x end) props = true →
  (list_sum (map (λ kv, match kv with (_, x) => need x end) props) ≤ f)%nat →
  ∀ k x f' rest, (length props < f')%nat → parsesBack x → wellFormed x = true →
    (need x ≤ f)%nat →
    parseMembers (parseValue f) f'
      (Js.join ","
         (map (λ kv, match kv with (k, x) => quote k +:+ ":" +:+ stringify x end)
              ((k, x) :: props)) +:+ "}" +:+ rest)
    = Some ((k, x) :: props, rest).
Proof.
  induction props as [|[k' y] props IH];
    intros Hall Hwf Hneed k x f' rest Hf' Hx Hwx Hnx.
  - destruct f' as [|f']; [simpl in Hf'; lia|].
    cbn [map Js.join]. rewrite !app_assoc_str. unfold quote at 1.
    rewrite app_cons, app_assoc_str. cbn [parseMembers skipWs isWs DQ].
    rewrite bool_decide_eq_true_2 by done.
    change (String DQ "" +:+ ":" +:+ stringify x +:+ "}" +:+ rest)
      with (String DQ (String ":" (stringify x +:+ "}" +:+ rest))).
    rewrite parseStringBody_quoteBody. cbn [skipWs isWs].
    rewrite bool_decide_eq_true_2 by done. rewrite Hx by done. reflexivity.
  - destruct f' as [|f']; [simpl in Hf'; lia|].
    change (Js.join ","
              (map (λ kv, match kv with (k, x) => quote k +:+ ":" +:+ stringify x end)
                   ((k, x) :: (k', y) :: props)))
      with ((quote k +:+ ":" +:+ stringify x) +:+ "," +:+
            Js.join ","
              (map (λ kv, match kv with (k, x) => quote k +:+ ":" +:+ stringify x end)
                   ((k', y) :: props))).
    rewrite !app_assoc_str. unfold quote at 1.
    rewrite app_cons, app_assoc_str. cbn [parseMembers skipWs isWs DQ].
    rewrite bool_decide_eq_true_2 by done.
    match goal with
    | |- context [quoteBody k +:+ String DQ "" +:+ ":" +:+ ?t] =>
        change (String DQ "" +:+ ":" +:+ t) with (String DQ (String ":" t))
    end.
    rewrite parseStringBody_quoteBody. cbn [skipWs isWs].
    rewrite bool_decide_eq_true_2 by done. rewrite Hx by done.
    match goal with
    | |- context [skipWs ("," +:+ ?t)] => change ("," +:+ t) with (String "," t)
    end.
    cbn [skipWs isWs]. rewrite bool_decide_eq_true_2 by done.
    apply Forall_cons in Hall as [Hy Hall].
    cbn [forallb] in Hwf. apply andb_true_iff in Hwf as [Hwy Hwf].
    simpl in Hneed. cbn [length] in Hf'.
    rewrite IH by (done || lia). done.
Qed.

Lemma setProp_fresh k v acc :
  k ∉ map fst acc → setProp k v acc = acc ++ [(k, v)].
Proof.
  induction acc as [|[k' v'] acc IH]; [done|].
  cbn [map fst setProp]. intros Hk%not_elem_of_cons. destruct Hk as [Hne Hk].
  rewrite (proj2 (str_eqb_neq k' k)) by done. by rewrite IH.
Qed.

Lemma distinct_cons k keys :
  distinct (k :: keys) = true ↔ (k ∉ keys) ∧ (distinct keys = true).
Proof.
  cbn [distinct]. rewrite andb_true_iff, negb_true_iff, bool_decide_eq_false. done.
Qed.

Lemma objectOf_distinct props :
  distinct (map fst props) = true → objectOf props = JObj props.
Proof.
  unfold objectOf. intros Hd. f_equal.
  enough (∀ acc, (∀ k, k ∈ map fst props → k ∉ map fst acc) →
                 fold_left (λ acc kv, setProp kv.1 kv.2 acc) props acc = acc ++ props)
    as H by (apply (H []); intros k _ Hk; by apply elem_of_nil in Hk).
  induction props as [|[k v] props IH]; intros acc Hacc.
  - by rewrite app_nil_r.
  - cbn [map fst] in Hd. apply distinct_cons in Hd as [Hk Hd].
    cbn [fold_left fst snd]. rewrite setProp_fresh.
    + rewrite IH; [by rewrite <- app_assoc|done|].
      intros k' Hk'. rewrite map_app. cbn [map fst].
      intros [Hin|Hin]%elem_of_app.
      * apply (Hacc k'); [|done]. cbn [map fst]. by apply list_elem_of_further.
      * apply list_elem_of_singleton in Hin as ->. done.
    + apply Hacc. cbn [map fst]. apply list_elem_of_here.
Qed.

Lemma parseValue_array f r :
  parseValue (S f) (String "[" r)
  = match skipWs r with
    | String d r' =>
        if bool_decide (d = "]"%char) then Some (JArr [], r')
        else match parseElems (parseValue f) f r with
             | Some (vs, r'') => Some (JArr vs, r'')
             | None => None
             end
    | EmptyString => None
    end.
Proof. reflexivity. Qed.

Lemma parseValue_object f r :
  parseValue (S f) (String "{" r)
  = match skipWs r with
    | String d r' =>
        if bool_decide (d = "}"%char) then Some (JObj [], r')
        else match parseMembers (parseValue f) f r with
             | Some (kvs, r'') => Some (objectOf kvs, r'')
             | None => None
             end
    | EmptyString => None
    end.
Proof. reflexivity. Qed.

Lemma parseValue_stringify v : parsesBack v.
Proof.
  induction v as [|b|n|s|items IH|props IH] using json_induction;
    intros Hwf fuel rest Hrest Hfuel;
    (destruct fuel as [|f]; [simpl in Hfuel; lia|]).
  - reflexivity.
  - by destruct b.
  - by apply parseValue_number.
  - cbn [stringify]. unfold quote. rewrite app_cons, app_assoc_str.
    change (String DQ "" +:+ rest) with (String DQ rest).
    change (parseValue (S f) (String DQ (quoteBody s +:+ String DQ rest)))
      with (match parseStringBody (quoteBody s +:+ String DQ rest) with
            | Some (str, r') => Some (JStr str, r')
            | None => None
            end).
    by rewrite parseStringBody_quoteBody.
  - destruct items as [|x items]; [reflexivity|].
    cbn [stringify]. rewrite !app_assoc_str.
    match goal with
    | |- parseValue _ ("[" +:+ ?t) = _ => change ("[" +:+ t) with (String "[" t)
    end.
    rewrite parseValue_array.
    apply Forall_cons in IH as [Hx IH].
    cbn [wellFormed forallb] in Hwf. apply andb_true_iff in Hwf as [Hwx Hwf].
    cbn [need] in Hfuel. simpl in Hfuel.
    pose proof (parseElems_items f items IH Hwf ltac:(lia) x f rest
                  ltac:(lia) Hx Hwx ltac:(lia)) as Hp.
    rewrite Hp.
    destruct (stringify_head x) as (c & r0 & E & Hc).
    assert (∃ r1, Js.join "," (map stringify (x :: items)) +:+ "]" +:+ rest
                  = String c r1) as [r1 ->].
    { destruct items; cbn [map Js.join]; rewrite E; rewrite ?app_cons; by eexists. }
    rewrite startsValue_skipWs by done.
    by rewrite (proj1 (startsValue_not_closing c Hc)).
  - destruct props as [|[k x] props]; [reflexivity|].
    cbn [stringify]. rewrite !app_assoc_str.
    match goal with
    | |- parseValue _ ("{" +:+ ?t) = _ => change ("{" +:+ t) with (String "{" t)
    end.
    rewrite parseValue_object.
    apply Forall_cons in IH as [Hx IH]. cbn [snd] in Hx.
    cbn [wellFormed] in Hwf. apply andb_true_iff in Hwf as [Hd Hwf].
    cbn [forallb] in Hwf. apply andb_true_iff in Hwf as [Hwx Hwf].
    cbn [need] in Hfuel. simpl in Hfuel.
    pose proof (parseMembers_props f props IH Hwf ltac:(lia) k x f rest
                  ltac:(lia) Hx Hwx ltac:(lia)) as Hp.
    rewrite Hp, objectOf_distinct by done.
    assert (∃ r1,
              Js.join ","
                (map (λ kv, match kv with (k, x) => quote k +:+ ":" +:+ stringify x end)
                     ((k, x) :: props)) +:+ "}" +:+ rest
              = String DQ r1) as [r1 ->].
    { destruct props; cbn [map Js.join]; unfold quote at 1;
        rewrite ?app_cons; by eexists. }
    reflexivity.
Qed.

(** *** Fuel *)

Lemma length_join_bound (needs : list nat) (texts : list string) :
  Forall2 (λ n t, (n ≤ String.length t)%nat) needs texts →
  (length needs + list_sum needs ≤ String.length (Js.join "," texts) + 1)%nat.
Proof.
  induction 1 as [|n t needs texts Hnt Hall IH]; [simpl; lia|].
  destruct Hall as [|n' t' needs' texts' Hnt' Hall'].
  - simpl. lia.
  - change (Js.join "," (t :: t' :: texts'))
      with (t +:+ "," +:+ Js.join "," (t' :: texts')).
    rewrite !length_app_str. simpl in *. lia.
Qed.

Lemma need_le_length v : (need v ≤ String.length (stringify v))%nat.
Proof.
  induction v as [|b|n|s|items IH|props IH] using json_induction.
  - simpl. lia.
  - destruct b; simpl; lia.
  - cbn [need stringify]. destruct n as [|p|p]; cbn [numberToString].
    + simpl. lia.
    + destruct (natToString_head (Npos p)) as (c & r & -> & _). simpl. lia.
    + rewrite length_app_str. simpl. lia.
  - simpl. lia.
  - assert (Forall2 (λ n t, (n ≤ String.length t)%nat)
              (map need items) (map stringify items)) as H.
    { induction IH; simpl; constructor; done. }
    apply length_join_bound in H. rewrite length_map in H.
    cbn [need stringify]. rewrite !length_app_str. simpl. lia.
  - assert (Forall2 (λ n t, (n ≤ String.length t)%nat)
              (map (λ kv, match kv with (_, x) => need x end) props)
              (map (λ kv, match kv with
                          | (k, x) => quote k +:+ ":" +:+ stringify x
                          end) props)) as H.
    { induction IH as [|[k x] props Hx _ IH']; simpl; constructor; [|done].
      cbn [snd] in Hx. rewrite !length_app_str. lia. }
    apply length_join_bound in H. rewrite length_map in H.
    cbn [need stringify]. rewrite !length_app_str. simpl. lia.
Qed.

(** [JSON.parse(JSON.stringify(v) + trailer)] is [v], for a trailer of
    white space such as the line feed that ends a frame. *)
Lemma parse_stringify v trailer :
  wellFormed v = true → skipWs trailer = "" → delimited trailer = true →
  parse (stringify v +:+ trailer) = Some v.
Proof.
  intros Hwf Hws Hdel. unfold parse.
  rewrite (parseValue_stringify v Hwf); [by rewrite Hws|done|].
  pose proof (need_le_length v). rewrite length_app_str. lia.
Qed.

(** *** Frames *)

Definition wellFormedData (data : option json) : bool :=
  match data with
  | Some v => wellFormed v
  | None => true
  end.

Lemma wellFormed_object props :
  wellFormed (JObj props)
  = distinct (map fst props) && forallb (λ kv, wellFormed kv.2) props.
Proof.
  cbn [wellFormed]. f_equal. induction props as [|[k x] props IH]; [done|].
  cbn [forallb snd]. by rewrite IH.
Qed.

Lemma response_wellFormed r :
  wellFormedData (RpcResponse.data r) = true →
  wellFormed (RpcResponse.toObject r) = true.
Proof.
  destruct r as [c s [d|] [e|] [i|]]; intros Hd;
    unfold RpcResponse.toObject, RpcEvent.toObject;
    rewrite wellFormed_object; (apply andb_true_iff; split; [by vm_compute|]);
    cbn in Hd; cbn -[wellFormed]; rewrite ?Hd; done.
Qed.

Lemma event_wellFormed e :
  wellFormedData (RpcEvent.data e) = true →
  wellFormed (RpcEvent.toObject e) = true.
Proof.
  destruct e as [ev [d|] [i|]]; intros Hd;
    unfold RpcResponse.toObject, RpcEvent.toObject;
    rewrite wellFormed_object; (apply andb_true_iff; split; [by vm_compute|]);
    cbn in Hd; cbn -[wellFormed]; rewrite ?Hd; done.
Qed.

Lemma response_ofObject r : RpcResponse.ofObject (RpcResponse.toObject r) = Some r.
Proof. by destruct r as [c s [d|] [e|] [i|]]. Qed.

Lemma event_ofObject e : RpcEvent.ofObject (RpcEvent.toObject e) = Some e.
Proof. by destruct e as [ev [d|] [i|]]. Qed.

(** *** Framing *)

Lemma quoteChar_one_line c : lacks "010" (quoteChar c).
Proof.
  apply includes_char_false.
  destruct c as [[] [] [] [] [] [] [] []]; reflexivity.
Qed.

Lemma quoteBody_one_line s : lacks "010" (quoteBody s).
Proof.
  induction s as [|c s IH]; [done|]. cbn [quoteBody].
  apply lacks_app; [apply quoteChar_one_line|done].
Qed.

Lemma quote_one_line s : lacks "010" (quote s).
Proof.
  unfold quote. split; [done|]. apply lacks_app; [apply quoteBody_one_line|done].
Qed.

Lemma digitsFuel_one_line f : ∀ n acc,
  lacks "010" acc → lacks "010" (digitsFuel f n acc).
Proof.
  induction f as [|f IH]; intros n acc Hacc; [done|]. cbn [digitsFuel].
  assert (lacks "010" (String (digitChar (n mod 10)) acc)) as Hd.
  { split; [|done]. intros E. apply (f_equal N_of_ascii) in E.
    rewrite digitChar_code in E by (apply N.mod_lt; lia).
    change (N_of_ascii "010") with 10%N in E.
    remember (n mod 10)%N as d. lia. }
  destruct (n / 10 =? 0)%N; [done|]. by apply IH.
Qed.

Lemma numberToString_one_line n : lacks "010" (numberToString n).
Proof.
  destruct n as [|p|p]; cbn [numberToString]; [done| |].
  - by apply digitsFuel_one_line.
  - apply lacks_app; [done|]. by apply digitsFuel_one_line.
Qed.

Lemma join_one_line (texts : list string) :
  Forall (lacks "010") texts → lacks "010" (Js.join "," texts).
Proof.
  induction 1 as [|t texts Ht Hall IH]; [done|].
  destruct texts as [|t' texts']; [done|].
  change (Js.join "," (t :: t' :: texts')) with (t +:+ "," +:+ Js.join "," (t' :: texts')).
  apply lacks_app; [done|]. apply lacks_app; [done|]. exact IH.
Qed.

(** The text of a value holds no line feed: a frame is one line. *)
Lemma stringify_one_line v : lacks "010" (stringify v).
Proof.
  induction v as [|b|n|s|items IH|props IH] using json_induction.
  - done.
  - by destruct b.
  - apply numberToString_one_line.
  - apply quote_one_line.
  - cbn [stringify]. apply lacks_app; [done|]. apply lacks_app; [|done].
    apply join_one_line. induction IH; simpl; constructor; done.
  - cbn [stringify]. apply lacks_app; [done|]. apply lacks_app; [|done].
    apply join_one_line.
    induction IH as [|[k x] props Hx _ IH']; simpl; constructor; [|done].
    apply lacks_app; [apply quote_one_line|]. by apply lacks_app.
Qed.

Lemma trimEnd_closed s c :
  Js.isWhiteSpace c = false → Js.trimEnd (s +:+ String c "") = s +:+ String c "".
Proof.
  intros Hc. induction s as [|d s IH].
  - rewrite app_empty_l. cbn [Js.trimEnd]. by rewrite Hc.
  - rewrite app_cons. cbn [Js.trimEnd]. rewrite IH. by destruct s.
Qed.

Lemma trim_object props : Js.trim (stringify (JObj props)) = stringify (JObj props).
Proof.
  cbn [stringify]. unfold Js.trim.
  match goal with
  | |- context [Js.trimStart ("{" +:+ ?t)] => change ("{" +:+ t) with (String "{" t)
  end.
  cbn [Js.trimStart Js.isWhiteSpace].
  rewrite app_comm_cons_str. by apply trimEnd_closed.
Qed.

(** What the reader of a connection gets from the line of an object: that
    one line, trimmed. *)
Lemma framed_object props :
  commandLines (Js.split "010" (stringify (JObj props) +:+ Js.LF))
  = [stringify (JObj props)].
Proof.
  unfold Js.LF. rewrite split_app_sep, split_lacks by apply stringify_one_line.
  unfold commandLines. cbn [removelast List.last app map Js.split].
  rewrite trim_object. by cbn.
Qed.

(** C8. The line written for a response or an event, framed at its line
    feed, trimmed and read back by [JSON.parse], is the object that was
    written, and its typed view is the frame itself, optional [data],
    [error], [id] and [subscriptionId] included: absent stays absent,
    present stays equal.  The data of a frame is any JSON value whose
    numbers are safe integers. *)
Theorem frame_roundtrip (response : RpcResponse.t) (event : RpcEvent.t)
    (Hresponse : wellFormedData (RpcResponse.data response) = true)
    (Hevent : wellFormedData (RpcEvent.data event) = true) :
  (commandLines (Js.split "010" (ControlRpc.responseLine response))
   = [stringify (RpcResponse.toObject response)]
   ∧ parse (stringify (RpcResponse.toObject response))
     = Some (RpcResponse.toObject response)
   ∧ RpcResponse.ofObject (RpcResponse.toObject response) = Some response)
  ∧ (commandLines (Js.split "010" (ControlRpc.eventLine event))
     = [stringify (RpcEvent.toObject event)]
     ∧ parse (stringify (RpcEvent.toObject event)) = Some (RpcEvent.toObject event)
     ∧ RpcEvent.ofObject (RpcEvent.toObject event) = Some event).
Proof.
  split; (split; [apply framed_object|]); (split; [|apply response_ofObject
                                                     || apply event_ofObject]).
  - rewrite <- (app_empty_r (stringify _)) at 1.
    apply parse_stringify; [by apply response_wellFormed|done..].
  - rewrite <- (app_empty_r (stringify _)) at 1.
    apply parse_stringify; [by apply event_wellFormed|done..].
Qed.

End CodecFacts.

(** ** Concrete runs *)

Section ConcreteRuns.
Import Host ControlMessages ControlRpc Control.

(** The engine's parser, taken to be the parser [JSON.parse] above; a fixed
    text stands for the message of its syntax error. *)
Definition parseText (text : string) : parsed :=
  match JSON.parse text with
  | Some v => Value v
  | None => SyntaxError "Unexpected token in JSON"
  end.

Definition KNOWN_TYPES : list string :=
  ["send"; "get_message"; "get_summary"; "clear"; "abort"; "subscribe"].

(** C3 does not hold as worded: the decoder returns a command whose type is
    none of the six known ones.  The sentence "which is one of send,
    get_message, get_summary, clear, abort, subscribe" fails at the line
    [{"type":"restart"}]. *)
Lemma decoder_returns_unknown_type :
  ¬ (∀ command,
       parseCommand parseText (JSON.stringify (JObj [("type", JStr "restart")]))
       = Command command →
       RpcCommand.type command ∈ KNOWN_TYPES).
Proof.
  intros H.
  specialize (H (RpcCommand.Make "restart" (JObj [("type", JStr "restart")])) eq_refl).
  cbn [RpcCommand.type] in H.
  repeat (apply elem_of_cons in H as [H|H]; [discriminate H|]).
  by apply elem_of_nil in H.
Qed.

(** An array is an object for [typeof]: it passes the first test of the
    decoder and fails the second. *)
Example array_has_no_type :
  parseCommand parseText (JSON.stringify (JArr [JNum 1; JNum 2]))
  = Error "Missing command type".
Proof. reflexivity. Qed.

Example number_is_not_an_object :
  parseCommand parseText (JSON.stringify (JNum 42))
  = Error "Invalid command: expected JSON object".
Proof. reflexivity. Qed.

Definition failedSend : json :=
  JObj [("type", JStr "response"); ("command", JStr "send");
        ("success", JBool false); ("error", JStr "Missing message")].

Definition sendHello : RpcCommand.t :=
  RpcCommand.Make "send"
    (JObj [("type", JStr "send"); ("message", JStr "hello");
           ("mode", JStr "follow_up")]).

(** A server-side failure reaches the caller inside the resolved value. *)
Example failed_command_is_resolved :
  settled (sendRpcCommand parseText sendHello false
             [Connect; Data (JSON.stringify failedSend +:+ Js.LF)])
  = Some (Resolved failedSend None).
Proof. by vm_compute. Qed.

Definition noModels : ModelRegistry := MkRegistry (λ _ _, None) (λ _, None).

Definition offline : Runtime :=
  MkRuntime 1700000000000 "k3x9qa" (λ _ _ _ _, CompleteThrew "offline").

Definition assistantSaid (id : string) (parent : option string) (text : list contentPart)
    (at_ : Z) : SessionEntry :=
  MkEntry id parent (MessageEntry (MkMessage (Some "assistant") text at_)).

Definition someBranch : list SessionEntry :=
  [MkEntry "e1" None (MessageEntry (MkMessage (Some "user") [TextContent "hi"] 10));
   assistantSaid "e2" (Some "e1") [TextContent "first"; OtherContent "toolCall";
                                   TextContent "second"] 20;
   assistantSaid "e3" (Some "e2") [OtherContent "toolCall"] 30].

Definition sessionWith (idle : bool) : ExtensionContext :=
  MkContext idle someBranch someBranch (Some "e3") "s1" (Some "worker1")
    RewindMissing None noModels.

Definition serving (ctx : ExtensionContext) : SocketState :=
  MkState true (Some "/home/u/.pi/session-control/s1.sock") (Some ctx) None true [].

Definition bare (type : string) : RpcCommand.t :=
  RpcCommand.Make type (JObj [("type", JStr type)]).


Definition subscribeTurnEnd : RpcCommand.t := RpcCommand.Make "subscribe" subscribeCmd.





Definition subscribed (subscriptionId : string) : json :=
  RpcResponse.toObject
    (RpcResponse.Make "subscribe" true
       (Some (JObj [("subscriptionId", JStr subscriptionId); ("event", JStr "turn_end")]))
       None None).


(** The answer to [{"type":"abort","id":"x"}] carries the command, the
    success flag and the id, and nothing else. *)
Example abort_is_acknowledged :
  (λ w, JSON.parse w.2)
    <$> writesOf (handleCommand offline (serving (sessionWith false))
                    (RpcCommand.Make "abort"
                       (JObj [("type", JStr "abort"); ("id", JStr "x")])) 7).2
  = [Some (JObj [("type", JStr "response"); ("command", JStr "abort");
                 ("success", JBool true); ("id", JStr "x")])].
Proof. by vm_compute. Qed.

(** With no assistant message, [get_message] succeeds with a null
    message. *)
Example get_message_without_assistant :
  (λ w, JSON.parse w.2)
    <$> writesOf (handleCommand offline
                    (serving (MkContext true [] [] None "s1" None RewindMissing None
                                noModels))
                    (bare "get_message") 7).2
  = [Some (JObj [("type", JStr "response"); ("command", JStr "get_message");
                 ("success", JBool true); ("data", JObj [("message", JNull)])])].
Proof. by vm_compute. Qed.

Lemma clear_while_busy_witness :
  isIdle (sessionWith false) = false
  ∧ ∃ error,
      handleCommand offline (serving (sessionWith false)) (bare "clear") 7
      = (serving (sessionWith false),
         [SyncAlias; SyncAlias;
          SocketWrite 7
            (responseLine (RpcResponse.Make "clear" false None (Some error) None))])
      ∧ Js.includes error "busy" = true.
Proof.
  split; [reflexivity|].
  destruct (clear_while_busy_refused offline (serving (sessionWith false))
              (sessionWith false) (bare "clear") 7 eq_refl eq_refl eq_refl)
    as (error & Hrun & Hbusy & _).
  exact (ex_intro _ error (conj Hrun Hbusy)).
Defined.

Lemma send_delivery_witness :
  handleCommand offline (serving (sessionWith false)) sendHello 7
  = (serving (sessionWith false),
     [SyncAlias;
      SendMessage SESSION_MESSAGE_TYPE "hello" true true (Some "followUp");
      SyncAlias;
      SocketWrite 7
        (responseLine
           (RpcResponse.Make "send" true
              (Some (JObj [("delivered", JBool true); ("mode", JStr "follow_up")]))
              None None))]).
Proof.
  apply (proj2 (send_delivery offline (serving (sessionWith false))
                  (sessionWith false) sendHello 7 eq_refl eq_refl)
           "hello" (Some "follow_up")).
  - reflexivity.
  - by vm_compute.
  - reflexivity.
  - apply list_elem_of_further, list_elem_of_further, list_elem_of_here.
Defined.


(** A text part counts as text content even when its text is empty: such a
    turn is returned, with empty content. *)
Example empty_text_part_is_text_content :
  getLastAssistantMessage
    (MkContext true [assistantSaid "e1" None [TextContent ""] 5] [] None "s1" None
       RewindMissing None noModels)
  = Some (ExtractedMessage.Make "assistant" "" 5).
Proof. reflexivity. Qed.

Definition answered : RpcResponse.t :=
  RpcResponse.Make "get_message" true
    (Some (JObj [("message",
                  ExtractedMessage.toObject
                    (ExtractedMessage.Make "assistant" ("first" +:+ Js.LF +:+ "second") 20))]))
    None (Some "req-1").

Definition notified : RpcEvent.t :=
  RpcEvent.Make "turn_end" (Some (JObj [("turnIndex", JNum 3)])) (Some "sub-1").

Lemma frame_roundtrip_witness :
  (commandLines (Js.split "010" (responseLine answered))
   = [JSON.stringify (RpcResponse.toObject answered)]
   ∧ JSON.parse (JSON.stringify (RpcResponse.toObject answered))
     = Some (RpcResponse.toObject answered)
   ∧ RpcResponse.ofObject (RpcResponse.toObject answered) = Some answered)
  ∧ (commandLines (Js.split "010" (eventLine notified))
     = [JSON.stringify (RpcEvent.toObject notified)]
     ∧ JSON.parse (JSON.stringify (RpcEvent.toObject notified))
       = Some (RpcEvent.toObject notified)
     ∧ RpcEvent.ofObject (RpcEvent.toObject notified) = Some notified).
Proof. exact (frame_roundtrip answered notified eq_refl eq_refl). Defined.

End ConcreteRuns.
(** ** Normal forms of paths *)

Section PathShape.
Import Fs ControlSocket.

Lemma split_lacks_all c s : Forall (lacks c) (Js.split c s).
Proof.
  induction s as [|d s IH]; simpl.
  - by repeat constructor.
  - case_bool_decide as Hd.
    + by constructor.
    + destruct (Js.split c s) as [|seg segs].
      * repeat constructor. congruence.
      * inversion IH; subst. constructor; [|done]. simpl. split; [congruence|done].
Qed.

Lemma join_split c s : Js.join (String c "") (Js.split c s) = s.
Proof.
  induction s as [|d s IH]; [done|]. simpl.
  pose proof (split_nonempty c s) as Hne.
  destruct (Js.split c s) as [|seg segs] eqn:E; [done|].
  case_bool_decide as Hd.
  - subst d. change (Js.join (String c "") ("" :: seg :: segs))
      with ("" +:+ String c "" +:+ Js.join (String c "") (seg :: segs)).
    by rewrite IH.
  - destruct segs as [|seg' segs'].
    + simpl in *. by rewrite IH.
    + change (Js.join (String c "") (String d seg :: seg' :: segs'))
        with (String d (seg +:+ String c "" +:+ Js.join (String c "") (seg' :: segs'))).
      by rewrite <- IH.
Qed.

Lemma split_join c segs :
  segs ≠ [] → Forall (lacks c) segs →
  Js.split c (Js.join (String c "") segs) = segs.
Proof.
  induction segs as [|x segs IH]; [done|]. intros _ Hl.
  inversion Hl as [|? ? Hx Hrest]; subst.
  destruct segs as [|y segs'].
  - by apply split_lacks.
  - change (Js.join (String c "") (x :: y :: segs'))
      with (x +:+ String c (Js.join (String c "") (y :: segs'))).
    rewrite split_app_sep, (split_lacks c x) by done. simpl removelast.
    simpl List.last. rewrite IH by done. done.
Qed.

Lemma endsWith_char_app a b c :
  b ≠ "" → Js.endsWith (a +:+ b) (String c "") = Js.endsWith b (String c "").
Proof.
  intros Hb. induction a as [|x a IH]; [done|].
  rewrite app_cons. cbn [Js.endsWith]. rewrite IH.
  replace (Js.str_eqb (String x (a +:+ b)) (String c "")) with false; [done|].
  symmetry. apply str_eqb_neq. intros [= _ E].
  destruct a; [by rewrite app_empty_l in E|done].
Qed.

Lemma endsWith_lacks c t : lacks c t → Js.endsWith t (String c "") = false.
Proof.
  induction t as [|d t IH]; [done|]. intros [Hd Ht]. cbn [Js.endsWith].
  rewrite IH by done. rewrite orb_false_r. apply str_eqb_neq. congruence.
Qed.

(** Segments that [normalizeString] keeps are kept in place. *)
Lemma normalizeSegs_keeps allow segs :
  Forall plainName segs →
  ∀ acc rest, Path.normalizeSegs allow acc (segs ++ rest)
              = Path.normalizeSegs allow (rev segs ++ acc) rest.
Proof.
  induction 1 as [|x segs (_ & Hskip & Hdots) _ IH]; intros acc rest; [done|].
  simpl. rewrite Hskip, Hdots, IH. by rewrite <- app_assoc.
Qed.

Lemma normalizeSegs_normal allow segs :
  Forall plainName segs → Path.normalizeSegs allow [] segs = segs.
Proof.
  intros H. rewrite <- (app_nil_r segs) at 1.
  rewrite normalizeSegs_keeps by done. simpl. by rewrite app_nil_r, rev_involutive.
Qed.

(** Below the root, what [normalizeString] has kept are plain names. *)
Lemma normalizeSegs_root xs :
  Forall (lacks "/") xs →
  ∀ acc, Forall plainName acc →
    ∃ acc', Forall plainName acc'
            ∧ ∀ ys, Path.normalizeSegs false acc (xs ++ ys)
                    = Path.normalizeSegs false acc' ys.
Proof.
  induction 1 as [|x xs Hx _ IH]; intros acc Hacc; [by exists acc|].
  simpl. destruct (Path.is_skip x) eqn:Hskip; [by apply IH|].
  destruct (Path.is_dots x) eqn:Hdots.
  - destruct acc as [|l acc]; [by apply IH|].
    inversion Hacc; subst. destruct (Path.is_dots l); by apply IH.
  - apply IH. by constructor.
Qed.

Lemma isAbsolute_slash x : Path.isAbsolute (String "/" x) = true.
Proof.
  unfold Path.isAbsolute. cbn [Js.startsWith].
  by rewrite startsWith_empty, bool_decide_eq_true_2.
Qed.

(** The absolute path with the segments [segs]. *)
Definition rooted (segs : list string) : string := "/" +:+ Js.join "/" segs.

(** A normalized absolute directory other than the root. *)
Definition normalDir (D : string) : Prop :=
  ∃ segs, segs ≠ [] ∧ Forall plainName segs ∧ D = rooted segs.

Lemma rooted_snoc segs t :
  segs ≠ [] → rooted (segs ++ [t]) = rooted segs +:+ "/" +:+ t.
Proof.
  intros Hne. unfold rooted. rewrite join_snoc.
  destruct segs; [done|]. by rewrite !app_assoc_str.
Qed.

Lemma split_rooted segs :
  segs ≠ [] → Forall plainName segs → Js.split "/" (rooted segs) = "" :: segs.
Proof.
  intros Hne Hp. unfold rooted. rewrite app_cons, app_empty_l. simpl.
  rewrite split_join; [done|done|].
  eapply Forall_impl; [exact Hp|]. by intros ? (? & _).
Qed.

Lemma plainName_snoc segs t :
  Forall plainName segs → plainName t → Forall plainName (segs ++ [t]).
Proof. intros. apply Forall_app. split; [done|]. by apply Forall_singleton. Qed.

Lemma normalDir_child D t : normalDir D → plainName t → normalDir (D +:+ "/" +:+ t).
Proof.
  intros (segs & Hne & Hp & ->) Ht. exists (segs ++ [t]).
  split; [by destruct segs|]. split; [by apply plainName_snoc|].
  by rewrite rooted_snoc.
Qed.

Lemma normalDir_absolute D : normalDir D → Path.isAbsolute D = true ∧ D ≠ "".
Proof.
  intros (segs & _ & _ & ->). unfold rooted. rewrite app_cons.
  split; [apply isAbsolute_slash|done].
Qed.

Lemma normalize_normalDir D : normalDir D → Path.normalize D = D.
Proof.
  intros (segs & Hne & Hp & ->). unfold Path.normalize.
  assert (Js.endsWith (rooted segs) "/" = false) as Htrail.
  { destruct (exists_last Hne) as (l & t & ->).
    unfold rooted. rewrite join_snoc.
    apply Forall_app in Hp as [_ Ht]. inversion Ht as [|? ? Hplain _]; subst.
    transitivity (Js.endsWith t "/"); [|apply endsWith_lacks, Hplain].
    destruct l.
    - apply endsWith_char_app. by apply plainName_nonempty.
    - rewrite <- !app_assoc_str. apply endsWith_char_app. by apply plainName_nonempty. }
  rewrite Htrail. change (Js.str_eqb (rooted segs) "") with false.
  replace (Path.isAbsolute (rooted segs)) with true
    by (symmetry; apply isAbsolute_slash).
  cbn [negb].
  unfold Path.normalizeString. rewrite split_rooted by done.
  change (Path.normalizeSegs false [] ("" :: segs))
    with (Path.normalizeSegs false [] segs).
  rewrite normalizeSegs_normal by done.
  assert (Js.join "/" segs ≠ "") as Hq.
  { destruct segs as [|x l]; [done|]. inversion Hp; subst.
    assert (x ≠ "") by by apply plainName_nonempty.
    destruct x; [done|]. by destruct l. }
  rewrite (proj2 (str_eqb_neq _ "")) by done. by rewrite app_empty_r.
Qed.

Lemma join_child D t :
  normalDir D → plainName t → Path.join [D; t] = D +:+ "/" +:+ t.
Proof.
  intros HD Ht. unfold Path.join.
  rewrite filter_cons_True by apply (normalDir_absolute D HD).
  rewrite filter_cons_True by by apply plainName_nonempty.
  rewrite filter_nil. cbn [Js.join].
  apply normalize_normalDir. by apply normalDir_child.
Qed.

Lemma resolve_child cwd D t :
  normalDir D → plainName t → Path.resolve cwd [D; t] = D +:+ "/" +:+ t.
Proof.
  intros HD Ht. unfold Path.resolve.
  change (rev [cwd; D; t]) with [t; D; cwd].
  rewrite resolveLoop_relative
    by (by apply plainName_nonempty || by apply plainName_relative).
  destruct (normalDir_absolute D HD) as [Habs HDne].
  cbn [Path.resolveLoop]. rewrite (proj2 (str_eqb_neq D "")), Habs by done.
  destruct (normalDir_child D t HD Ht) as (segs & Hne & Hp & Hshape).
  rewrite app_empty_r.
  replace (D +:+ "/" +:+ t +:+ "/") with (rooted segs +:+ String "/" "")
    by (by rewrite <- Hshape, !app_assoc_str).
  unfold Path.normalizeString.
  rewrite split_app_sep, split_rooted by done.
  change (Js.split "/" "") with [""].
  rewrite (cons_middle (List.last _ _)), app_assoc.
  rewrite <- app_removelast_last by done.
  change (Path.normalizeSegs (negb true) [] (("" :: segs) ++ [""]))
    with (Path.normalizeSegs false [] (segs ++ [""])).
  rewrite normalizeSegs_keeps by done. simpl.
  rewrite app_nil_r, rev_involutive. by rewrite Hshape.
Qed.

Lemma parent_child D t :
  normalDir D → plainName t →
  parent (D +:+ "/" +:+ t) = D ∧ entryName (D +:+ "/" +:+ t) = t.
Proof.
  intros (segs & Hne & Hp & ->) Ht.
  rewrite <- rooted_snoc by done.
  unfold parent, entryName.
  rewrite split_rooted; [|by destruct segs|by apply plainName_snoc].
  rewrite app_comm_cons, removelast_last, last_last.
  split; [|done].
  replace (Js.join "/" ("" :: segs)) with (rooted segs) by by destruct segs.
  done.
Qed.

Lemma basename_child D t : plainName t → Path.basename (D +:+ "/" +:+ t) = t.
Proof. intros Ht. apply basename_endsInName; [done|]. right. by exists D. Qed.

(** [os.homedir()] is an absolute path: the control directory is then a
    normalized absolute directory. *)
Lemma controlDir_normal homedir :
  Path.isAbsolute homedir = true → normalDir (CONTROL_DIR homedir).
Proof.
  intros Habs. destruct homedir as [|c h]; [done|].
  unfold Path.isAbsolute in Habs. cbn [Js.startsWith] in Habs.
  apply andb_true_iff in Habs as [Hc _]. apply bool_decide_eq_true in Hc. subst c.
  unfold CONTROL_DIR, Path.join.
  rewrite !filter_cons_True by done. rewrite filter_nil. cbn [Js.join].
  set (hd := String "/" h).
  unfold Path.normalize.
  change (Js.str_eqb (hd +:+ "/" +:+ ".pi" +:+ "/" +:+ "session-control") "") with false.
  replace (Path.isAbsolute (hd +:+ "/" +:+ ".pi" +:+ "/" +:+ "session-control")) with true
    by (symmetry; apply isAbsolute_slash).
  cbn [negb].
  assert (Js.endsWith (hd +:+ "/" +:+ ".pi" +:+ "/" +:+ "session-control") "/" = false)
    as ->.
  { rewrite <- !app_assoc_str. by rewrite endsWith_char_app. }
  unfold Path.normalizeString.
  change (hd +:+ "/" +:+ ".pi" +:+ "/" +:+ "session-control")
    with (hd +:+ String "/" (".pi" +:+ "/" +:+ "session-control")).
  rewrite split_app_sep.
  change (Js.split "/" (".pi" +:+ "/" +:+ "session-control"))
    with [".pi"; "session-control"].
  rewrite (cons_middle (List.last _ _)), app_assoc.
  rewrite <- app_removelast_last by apply split_nonempty.
  destruct (normalizeSegs_root (Js.split "/" hd) (split_lacks_all "/" hd) [])
    as (acc & Hacc & ->); [constructor|].
  assert (Forall plainName [".pi"; "session-control"]) as Htail.
  { repeat constructor; vm_compute; congruence. }
  rewrite <- (app_nil_r [".pi"; "session-control"]).
  rewrite normalizeSegs_keeps by done. cbn [Path.normalizeSegs].
  rewrite rev_app_distr, rev_involutive.
  set (segs := rev acc ++ [".pi"; "session-control"]).
  assert (Forall plainName segs) as Hp.
  { apply Forall_app. split; [|done]. by apply Forall_rev. }
  assert (segs ≠ []) as Hne by (subst segs; by destruct (rev acc)).
  assert (Js.join "/" segs ≠ "") as Hq.
  { destruct segs as [|x l]; [done|]. inversion Hp; subst.
    assert (x ≠ "") by by apply plainName_nonempty.
    destruct x; [done|]. by destruct l. }
  rewrite (proj2 (str_eqb_neq _ "")) by done. rewrite app_empty_r.
  by exists segs.
Qed.

End PathShape.

(** ** Removing the aliases of a socket *)

Section SweepFacts.
Import Fs ControlSocket.

Variable homedir : string.
Variable cwd : string.

(** The path [a] holds a link that resolves, from the control directory, to
    the socket path [p]. *)
Definition pointsAt (p : string) (fs : gmap string node) (a : string) : Prop :=
  ∃ t, fs !! a = Some (NSymlink t)
       ∧ Path.resolve cwd [CONTROL_DIR homedir; t] = p.

(** The path at which [removeAliasesForSocket] looks for the entry. *)
Definition aliasPathOf (entry : dirent) : string :=
  Path.join [CONTROL_DIR homedir; name entry].

(** The body of the loop of [removeAliasesForSocket]. *)
Definition sweepEntry (p : string) (entry : dirent) : M unit :=
  if negb (isSymbolicLink entry) then mret tt
  else
    let aliasPath := Path.join [CONTROL_DIR homedir; name entry] in
    target ← tryCatch (t ← readlink aliasPath; mret (Some t)) (λ _, mret None);
    match target with
    | None => mret tt
    | Some target =>
        let resolvedTarget := Path.resolve cwd [CONTROL_DIR homedir; target] in
        if Js.str_eqb resolvedTarget p then unlink aliasPath else mret tt
    end.

(** What [readdir] lists in the control directory. *)
Definition snapshot (fs : gmap string node) : list dirent :=
  direntOf <$> List.filter (isChildOf (CONTROL_DIR homedir)) (map_to_list fs).

Lemma pointsAt_weaken p fs fs' a : fs ⊆ fs' → pointsAt p fs a → pointsAt p fs' a.
Proof.
  intros Hsub (t & Hl & Hr). exists t. split; [|done].
  by eapply lookup_weaken.
Qed.

Lemma snapshot_weaken fs fs' e : fs ⊆ fs' → e ∈ snapshot fs → e ∈ snapshot fs'.
Proof.
  intros Hsub. unfold snapshot. rewrite !list_elem_of_fmap.
  intros ([q n] & -> & Hin). exists (q, n). split; [done|].
  apply list_elem_of_In, filter_In in Hin as [Hin Hchild].
  apply list_elem_of_In, filter_In. split; [|done].
  apply list_elem_of_In, elem_of_map_to_list.
  apply list_elem_of_In, elem_of_map_to_list in Hin.
  by eapply lookup_weaken.
Qed.

Lemma sweepEntry_spec p entry w :
  ∃ w', sweepEntry p entry w = (Ok tt, w')
        ∧ stderr w' = stderr w
        ∧ ((files w' = files w
            ∧ (isSymbolicLink entry = true → ¬ pointsAt p (files w) (aliasPathOf entry)))
           ∨ (isSymbolicLink entry = true
              ∧ pointsAt p (files w) (aliasPathOf entry)
              ∧ files w' = delete (aliasPathOf entry) (files w))).
Proof.
  unfold sweepEntry, aliasPathOf.
  set (a := Path.join [CONTROL_DIR homedir; name entry]).
  destruct (isSymbolicLink entry); cbn [negb].
  2: { exists w. split; [done|]. split; [done|]. left. by split. }
  unfold mbind, M_bind, bind, tryCatch, readlink.
  destruct (files w !! a) as [[| |t|]|] eqn:E; cbn.
  1,2,4,5: (eexists; split; [done|]; split; [done|]; left; split; [done|];
            intros _ (t' & Ht' & _); congruence).
  destruct (Js.str_eqb (Path.resolve cwd [CONTROL_DIR homedir; t]) p) eqn:Hres.
  - unfold unlink. cbn. rewrite E. eexists. split; [done|]. split; [done|].
    right. split; [done|]. split; [|done].
    exists t. split; [done|]. by apply str_eqb_eq.
  - eexists. split; [done|]. split; [done|]. left. split; [done|].
    intros _ (t' & Ht' & Hp). assert (t' = t) as -> by congruence.
    apply str_eqb_neq in Hres. done.
Qed.

(** What the loop leaves: it only takes away links that pointed at the
    socket, and no entry it went through still points at it. *)
Lemma sweep_loop p entries :
  ∀ w, ∃ w',
    forEach entries (sweepEntry p) w = (Ok tt, w')
    ∧ stderr w' = stderr w
    ∧ files w' ⊆ files w
    ∧ (∀ q, is_Some (files w !! q) → files w' !! q = None → pointsAt p (files w) q)
    ∧ (∀ e, e ∈ entries → isSymbolicLink e = true →
         ¬ pointsAt p (files w') (aliasPathOf e)).
Proof.
  induction entries as [|e entries IH]; intros w.
  { exists w. split; [done|]. split; [done|]. split; [done|].
    split; [|by intros ? ?%elem_of_nil].
    intros q [n Hq] Hn. congruence. }
  destruct (sweepEntry_spec p e w) as (w1 & Hrun & Herr & Hcase).
  destruct (IH w1) as (w' & Hloop & Herr' & Hsub & Hgone & Hdone).
  exists w'. cbn [forEach]. unfold mbind, M_bind, bind. rewrite Hrun.
  split; [exact Hloop|]. split; [congruence|].
  assert (files w1 ⊆ files w) as Hsub1.
  { destruct Hcase as [[-> _] | (_ & _ & ->)]; [done|apply delete_subseteq]. }
  split; [by etrans|]. split.
  - intros q Hq Hn. destruct (files w1 !! q) as [n1|] eqn:E1.
    + apply (pointsAt_weaken p (files w1)); [done|]. apply Hgone; [by eexists|done].
    + destruct Hcase as [[Hsame _] | (_ & Hp & Hdel)].
      * rewrite Hsame in E1. destruct Hq as [n Hq]. congruence.
      * destruct (decide (q = aliasPathOf e)) as [->|Hne]; [done|].
        rewrite Hdel, lookup_delete_ne in E1 by done.
        destruct Hq as [n Hq]. congruence.
  - intros e' [->|Hin]%elem_of_cons Hsym; [|by apply Hdone].
    intros Hp. apply (pointsAt_weaken p _ (files w1)) in Hp; [|done].
    destruct Hcase as [[Hsame Hnot] | (_ & _ & Hdel)].
    + rewrite Hsame in Hp. by apply Hnot.
    + destruct Hp as (t & Ht & _). rewrite Hdel, lookup_delete_eq in Ht. done.
Qed.

(** A loop over entries none of which points at the socket removes
    nothing. *)
Lemma sweep_loop_clean p entries :
  ∀ w, (∀ e, e ∈ entries → isSymbolicLink e = true →
          ¬ pointsAt p (files w) (aliasPathOf e)) →
       ∃ w', forEach entries (sweepEntry p) w = (Ok tt, w')
             ∧ stderr w' = stderr w ∧ files w' = files w.
Proof.
  induction entries as [|e entries IH]; intros w Hclean; [by exists w|].
  destruct (sweepEntry_spec p e w) as (w1 & Hrun & Herr & Hcase).
  destruct Hcase as [[Hsame _] | (Hsym & Hp & _)].
  2: { exfalso. eapply Hclean; [apply list_elem_of_here|done|done]. }
  destruct (IH w1) as (w' & Hloop & Herr' & Hsame').
  { intros e' Hin Hsym. rewrite Hsame. apply Hclean; [by apply list_elem_of_further|done]. }
  exists w'. cbn [forEach]. unfold mbind, M_bind, bind. rewrite Hrun.
  split; [done|]. split; congruence.
Qed.

(** [removeAliasesForSocket] for a socket path that is given. *)
Lemma sweep_unfold p w :
  Js.truthy p = true →
  removeAliasesForSocket homedir cwd (Some p) w
  = tryCatch (entries ← readdir (CONTROL_DIR homedir); forEach entries (sweepEntry p))
      (λ e, if negb (isEnoent e)
            then stderrWrite ("[control] Failed to remove aliases for " +:+ p +:+ ": "
                              +:+ message e +:+ Js.LF)
            else mret tt) w.
Proof. intros Hp. unfold removeAliasesForSocket. by rewrite Hp. Qed.

Lemma sweep_listed p w :
  Js.truthy p = true → files w !! CONTROL_DIR homedir = Some NDir →
  removeAliasesForSocket homedir cwd (Some p) w
  = forEach (snapshot (files w)) (sweepEntry p) (record (Scandir (CONTROL_DIR homedir)) w).
Proof.
  intros Hp Hdir. rewrite sweep_unfold by done.
  unfold tryCatch, mbind, M_bind, bind, readdir. rewrite Hdir.
  fold (snapshot (files w)).
  destruct (sweep_loop p (snapshot (files w))
              (record (Scandir (CONTROL_DIR homedir)) w)) as (w' & -> & _).
  done.
Qed.

Lemma sweep_unlisted p w :
  files w !! CONTROL_DIR homedir ≠ Some NDir →
  ∃ w', removeAliasesForSocket homedir cwd (Some p) w = (Ok tt, w')
        ∧ files w' = files w.
Proof.
  intros Hdir. unfold removeAliasesForSocket.
  destruct (negb (Js.truthy p)); [by exists w|].
  unfold tryCatch, mbind, M_bind, bind, readdir.
  destruct (files w !! CONTROL_DIR homedir) as [[| |t|]|] eqn:E; try done;
    cbn; by eexists.
Qed.

Lemma dir_or_not (fs : gmap string node) d : fs !! d = Some NDir ∨ fs !! d ≠ Some NDir.
Proof. destruct (fs !! d) as [[| |t|]|]; (by left) || by right. Qed.

(** The sweep as a whole, for any socket path. *)
Lemma sweep_spec socketPath w :
  ∃ w', removeAliasesForSocket homedir cwd socketPath w = (Ok tt, w')
        ∧ files w' ⊆ files w
        ∧ (∀ q, is_Some (files w !! q) → files w' !! q = None →
             ∃ p, socketPath = Some p ∧ Js.truthy p = true ∧ pointsAt p (files w) q)
        ∧ (∀ p e, socketPath = Some p → Js.truthy p = true →
             files w !! CONTROL_DIR homedir = Some NDir →
             e ∈ snapshot (files w) → isSymbolicLink e = true →
             ¬ pointsAt p (files w') (aliasPathOf e)).
Proof.
  assert (∀ w0 : world, files w0 = files w →
            (∀ q, is_Some (files w !! q) → files w0 !! q = None →
               ∃ p, socketPath = Some p ∧ Js.truthy p = true ∧ pointsAt p (files w) q))
    as Hkept.
  { intros w0 -> q [n Hq] Hn. congruence. }
  destruct socketPath as [p|]; [|exists w; repeat split; [done|by apply Hkept|done]].
  destruct (Js.truthy p) eqn:Hp.
  2: { exists w. split; [unfold removeAliasesForSocket; by rewrite Hp|].
       split; [done|]. split; [by apply Hkept|]. intros ? ? [= <-]. congruence. }
  destruct (dir_or_not (files w) (CONTROL_DIR homedir)) as [Hdir|Hdir].
  - rewrite sweep_listed by done.
    destruct (sweep_loop p (snapshot (files w))
                (record (Scandir (CONTROL_DIR homedir)) w))
      as (w' & Hrun & _ & Hsub & Hgone & Hdone).
    exists w'. split; [done|]. split; [done|]. split.
    + intros q Hq Hn. exists p. split; [done|]. split; [done|]. by apply Hgone.
    + intros p' e [= <-] _ _. apply Hdone.
  - destruct (sweep_unlisted p w Hdir) as (w' & Hrun & Hsame).
    exists w'. split; [done|]. split; [by rewrite Hsame|].
    split; [by apply Hkept|]. intros. done.
Qed.

(** X1. [removeAliasesForSocket] never rejects, and all it takes away are
    symbolic links whose target resolves, from the control directory, to the
    socket path: every other file, socket, directory and link is still
    there, unchanged. *)
Theorem sweep_removes_only_aliases_of_socket (socketPath : option string) (w : world) :
  ∃ w', removeAliasesForSocket homedir cwd socketPath w = (Ok tt, w')
        ∧ ∀ q n, files w !! q = Some n →
            files w' !! q = Some n
            ∨ (files w' !! q = None
               ∧ ∃ p t, socketPath = Some p ∧ n = NSymlink t
                        ∧ Path.resolve cwd [CONTROL_DIR homedir; t] = p).
Proof.
  destruct (sweep_spec socketPath w) as (w' & Hrun & Hsub & Hgone & _).
  exists w'. split; [done|]. intros q n Hq.
  destruct (files w' !! q) as [n'|] eqn:E.
  - left. pose proof (lookup_weaken _ _ _ _ E Hsub). congruence.
  - right. split; [done|].
    destruct (Hgone q) as (p & -> & _ & t & Ht & Hres); [by eexists|done|].
    exists p, t. split; [done|]. split; [congruence|done].
Qed.

(** X2. Sweeping twice leaves the files as sweeping once does: the second
    call of [removeAliasesForSocket] finds nothing to remove. *)
Theorem sweep_idempotent (socketPath : option string) (w : world) :
  ∃ w1 w2,
    removeAliasesForSocket homedir cwd socketPath w = (Ok tt, w1)
    ∧ removeAliasesForSocket homedir cwd socketPath w1 = (Ok tt, w2)
    ∧ files w2 = files w1.
Proof.
  destruct (sweep_spec socketPath w) as (w1 & Hrun & Hsub & Hgone & Hdone).
  exists w1.
  destruct socketPath as [p|]; [|by exists w1].
  destruct (Js.truthy p) eqn:Hp.
  2: { exists w1. unfold removeAliasesForSocket in *. rewrite Hp in *. by split. }
  destruct (dir_or_not (files w) (CONTROL_DIR homedir)) as [Hdir|Hdir].
  - assert (files w1 !! CONTROL_DIR homedir = Some NDir) as Hdir1.
    { destruct (files w1 !! CONTROL_DIR homedir) as [n|] eqn:E.
      - pose proof (lookup_weaken _ _ _ _ E Hsub). congruence.
      - destruct (Hgone (CONTROL_DIR homedir)) as (_ & _ & _ & t & Ht & _);
          [by eexists|done|congruence]. }
    rewrite (sweep_listed p w1) by done.
    destruct (sweep_loop_clean p (snapshot (files w1))
                (record (Scandir (CONTROL_DIR homedir)) w1)) as (w2 & Hrun2 & _ & Hsame).
    { intros e Hin Hsym. apply (Hdone p); try done.
      by apply (snapshot_weaken (files w1)). }
    exists w2. done.
  - destruct (sweep_unlisted p w Hdir) as (w1' & Hrun' & Hsame).
    assert (w1' = w1) as -> by congruence.
    destruct (sweep_unlisted p w1) as (w2 & Hrun2 & Hsame2); [by rewrite Hsame|].
    by exists w2.
Qed.

End SweepFacts.

(** ** Paths and aliases of a session *)

Section AliasFacts.
Import Fs Host ControlSocket Control Alias.

Lemma safe_alias_plain a : isSafeAlias a = true → plainName (a +:+ ".alias").
Proof.
  unfold isSafeAlias. intros H. repeat (apply andb_true_iff in H as [H ?]).
  apply negb_true_iff in H. apply includes_char_false in H.
  assert (6 ≤ String.length (a +:+ ".alias"))%nat as Hlen.
  { rewrite length_app_str. simpl. lia. }
  split; [|split].
  - apply lacks_app; [done|]. by vm_compute.
  - unfold Path.is_skip. apply orb_false_iff. split; apply str_eqb_neq;
      intros E; rewrite E in Hlen; simpl in Hlen; lia.
  - unfold Path.is_dots. apply str_eqb_neq.
    intros E; rewrite E in Hlen; simpl in Hlen; lia.
Qed.

Lemma safe_id_truthy s : isSafeSessionId s = true → Js.truthy s = true.
Proof.
  unfold isSafeSessionId. intros H. repeat (apply andb_true_iff in H as [H ?]).
  by destruct s.
Qed.

Lemma str_app_inv_head (a b c : string) : a +:+ b = a +:+ c → b = c.
Proof.
  induction a as [|x a IH]; [done|]. rewrite !app_cons. intros [= E]. by apply IH.
Qed.

Lemma str_app_inv_tail (p a b : string) : a +:+ p = b +:+ p → a = b.
Proof.
  revert b. induction a as [|x a IH]; intros [|y b] E.
  - done.
  - apply (f_equal String.length) in E. rewrite !length_app_str in E. simpl in E. lia.
  - apply (f_equal String.length) in E. rewrite !length_app_str in E. simpl in E. lia.
  - rewrite !app_cons in E. injection E as -> E. f_equal. by apply IH.
Qed.

Lemma socketPath_shape homedir s :
  Path.isAbsolute homedir = true → isSafeSessionId s = true →
  getSocketPath homedir s = CONTROL_DIR homedir +:+ "/" +:+ (s +:+ SOCKET_SUFFIX).
Proof.
  intros Habs Hs. unfold getSocketPath.
  apply join_child; [by apply controlDir_normal|by apply safe_id_plain].
Qed.

Lemma aliasPath_shape homedir a :
  Path.isAbsolute homedir = true → isSafeAlias a = true →
  getAliasPath homedir a = CONTROL_DIR homedir +:+ "/" +:+ (a +:+ ".alias").
Proof.
  intros Habs Ha. unfold getAliasPath.
  apply join_child; [by apply controlDir_normal|by apply safe_alias_plain].
Qed.

Lemma aliasPath_inj homedir a b :
  Path.isAbsolute homedir = true → isSafeAlias a = true → isSafeAlias b = true →
  getAliasPath homedir a = getAliasPath homedir b → a = b.
Proof.
  intros Habs Ha Hb. rewrite !aliasPath_shape by done.
  intros E%str_app_inv_head%str_app_inv_head. by apply str_app_inv_tail in E.
Qed.

Lemma socketPath_truthy homedir s :
  Path.isAbsolute homedir = true → isSafeSessionId s = true →
  Js.truthy (getSocketPath homedir s) = true.
Proof.
  intros Habs Hs. rewrite socketPath_shape by done.
  destruct (controlDir_normal homedir Habs) as (segs & _ & _ & ->).
  unfold rooted. by rewrite !app_cons.
Qed.

(** X3. With an absolute home directory, the socket path of a path-safe
    session id is the control directory, a separator, the id and the socket
    suffix: it lies directly in the control directory, its base name gives
    the id back, and two safe ids with the same socket path are equal. *)
Theorem safe_id_stays_in_control_dir (homedir s : string)
    (Habs : Path.isAbsolute homedir = true) (Hs : isSafeSessionId s = true) :
  getSocketPath homedir s = CONTROL_DIR homedir +:+ "/" +:+ s +:+ SOCKET_SUFFIX
  ∧ parent (getSocketPath homedir s) = CONTROL_DIR homedir
  ∧ Js.dropEnd (String.length SOCKET_SUFFIX) (Path.basename (getSocketPath homedir s)) = s
  ∧ ∀ s', isSafeSessionId s' = true →
      getSocketPath homedir s' = getSocketPath homedir s → s' = s.
Proof.
  pose proof (controlDir_normal homedir Habs) as HD.
  pose proof (safe_id_plain s Hs) as Hplain.
  rewrite socketPath_shape by done.
  split; [done|]. split; [by apply parent_child|].
  split; [by rewrite basename_child, dropEnd_app|].
  intros s' Hs'. rewrite socketPath_shape by done.
  intros E%str_app_inv_head%str_app_inv_head. by apply str_app_inv_tail in E.
Qed.

Lemma safe_id_stays_witness :
  parent (getSocketPath "/home/u" "s1") = CONTROL_DIR "/home/u".
Proof.
  apply (safe_id_stays_in_control_dir "/home/u" "s1"); reflexivity.
Defined.

(** *** [removeSocket] *)



(** A control directory with the socket of session [s1] and the alias
    [worker1] pointing at it. *)
Definition aliasedControlDir : world :=
  MkWorld (<["/home/u/.pi/session-control/worker1.alias" := NSymlink "s1.sock"]>
             (<["/home/u/.pi/session-control/s1.sock" := NSocket]>
                (<["/home/u/.pi/session-control" := NDir]> ∅))) [] [].


(** *** Aliases after a sweep *)

Section Directory.
Variable homedir : string.
Variable cwd : string.
Hypothesis absoluteHome : Path.isAbsolute homedir = true.

Lemma sweep_complete p w :
  Js.truthy p = true → files w !! CONTROL_DIR homedir = Some NDir →
  ∃ w', removeAliasesForSocket homedir cwd (Some p) w = (Ok tt, w')
        ∧ files w' ⊆ files w
        ∧ (∀ q, is_Some (files w !! q) → files w' !! q = None →
             pointsAt homedir cwd p (files w) q)
        ∧ ∀ t, plainName t →
            ¬ pointsAt homedir cwd p (files w') (CONTROL_DIR homedir +:+ "/" +:+ t).
Proof.
  intros Hp Hdir.
  pose proof (controlDir_normal homedir absoluteHome) as HD.
  destruct (sweep_spec homedir cwd (Some p) w) as (w' & Hrun & Hsub & Hgone & Hdone).
  exists w'. split; [done|]. split; [done|]. split.
  { intros q Hq Hn. destruct (Hgone q Hq Hn) as (p' & [= <-] & _ & Hpt). done. }
  intros t Ht Hpt.
  destruct (parent_child _ t HD Ht) as [Hparent Hname].
  assert (MkDirent t true ∈ snapshot homedir (files w)) as Hin.
  { destruct Hpt as (t0 & Hl & _).
    pose proof (lookup_weaken _ _ _ _ Hl Hsub) as Hl0.
    unfold snapshot. apply list_elem_of_fmap.
    exists (CONTROL_DIR homedir +:+ "/" +:+ t, NSymlink t0).
    split; [unfold direntOf; cbn [fst snd]; by rewrite Hname|].
    apply list_elem_of_In, filter_In. split.
    - by apply list_elem_of_In, elem_of_map_to_list.
    - unfold isChildOf. cbn [fst snd]. rewrite Hparent, Hname.
      rewrite (proj2 (str_eqb_eq _ _)) by done.
      rewrite (proj2 (str_eqb_neq t "")) by by apply plainName_nonempty. done. }
  apply (Hdone p (MkDirent t true)); try done.
  unfold aliasPathOf. cbn. by rewrite join_child.
Qed.

(** X5. When the control directory exists, no alias of a path-safe name is
    left pointing at the socket once [removeAliasesForSocket] has run. *)
Theorem sweep_leaves_no_alias (p : string) (w : world)
    (Hp : Js.truthy p = true)
    (Hdir : files w !! CONTROL_DIR homedir = Some NDir) :
  ∃ w', removeAliasesForSocket homedir cwd (Some p) w = (Ok tt, w')
        ∧ ∀ alias target,
            isSafeAlias alias = true →
            files w' !! getAliasPath homedir alias = Some (NSymlink target) →
            Path.resolve cwd [CONTROL_DIR homedir; target] ≠ p.
Proof.
  destruct (sweep_complete p w Hp Hdir) as (w' & Hrun & _ & _ & Hclean).
  exists w'. split; [done|]. intros a target Ha Hl Hres.
  apply (Hclean (a +:+ ".alias")); [by apply safe_alias_plain|].
  exists target. by rewrite <- aliasPath_shape.
Qed.

Lemma unlink_caught p (log : error → string) w :
  ∃ w', tryCatch (unlink p)
          (λ e, if negb (isEnoent e) then stderrWrite (log e) else mret tt) w
        = (Ok tt, w')
        ∧ (files w' = files w ∨ files w' = delete p (files w)).
Proof.
  unfold tryCatch, unlink.
  destruct (files w !! p) as [[| |t|]|] eqn:E; cbn; eexists; (split; [done|]);
    cbn; auto.
Qed.

Lemma symlink_caught target p (log : error → string) w :
  ∃ w', tryCatch (symlink target p)
          (λ e, if negb (isEexist e) then stderrWrite (log e) else mret tt) w
        = (Ok tt, w')
        ∧ (files w' = files w ∨ files w' = <[p := NSymlink target]> (files w)).
Proof.
  unfold tryCatch, symlink.
  destruct (files w !! p) as [n|] eqn:E; cbn; [eexists; split; [done|]; by left|].
  destruct (files w !! parent p) as [[| |t|]|] eqn:E'; cbn; eexists; (split; [done|]);
    cbn; auto.
Qed.

Lemma createAliasSymlink_frame s a w :
  ∃ w', createAliasSymlink homedir s a w = (Ok tt, w')
        ∧ ∀ q, q ≠ getAliasPath homedir a → files w' !! q = files w !! q.
Proof.
  unfold createAliasSymlink.
  destruct (negb (Js.truthy a) || negb (isSafeAlias a)); [by exists w|].
  set (p := getAliasPath homedir a).
  unfold mbind, M_bind, bind.
  edestruct (unlink_caught p) as (w1 & -> & H1).
  edestruct (symlink_caught (s +:+ SOCKET_SUFFIX) p) as (w2 & -> & H2).
  exists w2. split; [done|]. intros q Hq.
  destruct H2 as [-> | ->], H1 as [-> | ->];
    rewrite ?lookup_insert_ne, ?lookup_delete_ne by done; done.
Qed.

Lemma getSessionAlias_safe ctx a :
  getSessionAlias ctx = Some a → isSafeAlias a = true ∧ Js.truthy a = true.
Proof.
  unfold getSessionAlias.
  set (alias := match getSessionName ctx with Some n => _ | None => _ end).
  destruct (Js.truthy alias) eqn:Ht; [|done].
  destruct (isSafeAlias alias) eqn:Hs; [|done].
  cbn. by intros [= <-].
Qed.

End Directory.
End AliasFacts.

Lemma sweep_leaves_no_alias_witness :
  ∃ w', ControlSocket.removeAliasesForSocket "/home/u" "/"
          (Some "/home/u/.pi/session-control/s1.sock") aliasedControlDir = (Fs.Ok tt, w')
        ∧ ∀ alias target,
            ControlSocket.isSafeAlias alias = true →
            Fs.files w' !! ControlSocket.getAliasPath "/home/u" alias
              = Some (Fs.NSymlink target) →
            Path.resolve "/" [ControlSocket.CONTROL_DIR "/home/u"; target]
              ≠ "/home/u/.pi/session-control/s1.sock".
Proof.
  apply (sweep_leaves_no_alias "/home/u" "/").
  - reflexivity.
  - reflexivity.
  - vm_compute. reflexivity.
Defined.

(** ** Keeping the alias in step with the session name *)

Section SyncFacts.
Import Fs Host ControlSocket Control Alias Lifecycle SessionTool.

Variable homedir : string.
Variable cwd : string.

(** X6. [syncAlias] never rejects, and once it has run, running it again
    with the same session name does nothing: no system call, no change of
    the state. *)
Theorem syncAlias_settles (state : SocketState) (ctx : ExtensionContext) (w : world) :
  ∃ state' w',
    syncAlias homedir cwd state ctx w = (Ok state', w')
    ∧ syncAlias homedir cwd state' ctx w' = (Ok state', w').
Proof.
  unfold syncAlias.
  destruct (negb (server state) || negb (truthyOpt (socketPath state))) eqn:Hguard.
  { exists state, w. by rewrite Hguard. }
  destruct (truthyOpt (getSessionAlias ctx)
            && negb (bool_decide (getSessionAlias ctx = alias state))) eqn:H1.
  - unfold mbind, M_bind, bind.
    destruct (sweep_spec homedir cwd (socketPath state) w) as (w1 & -> & _).
    destruct (createAliasSymlink_frame homedir (getSessionId ctx)
                (default "" (getSessionAlias ctx)) w1) as (w2 & -> & _).
    eexists _, _. split; [done|]. unfold withAlias. cbn [server socketPath alias].
    rewrite Hguard, bool_decide_eq_true_2 by done.
    apply andb_true_iff in H1 as [-> _]. done.
  - destruct (negb (truthyOpt (getSessionAlias ctx)) && truthyOpt (alias state)) eqn:H2.
    + unfold mbind, M_bind, bind.
      destruct (sweep_spec homedir cwd (socketPath state) w) as (w1 & -> & _).
      eexists _, _. split; [done|]. unfold withAlias. cbn [server socketPath alias].
      rewrite Hguard. apply andb_true_iff in H2 as [Hno _].
      apply negb_true_iff in Hno. rewrite Hno. done.
    + exists state, w. by rewrite Hguard, H1, H2.
Qed.

Lemma resolve_total a w :
  ∃ r w', resolveSessionIdFromAlias homedir cwd a w = (Ok r, w')
          ∧ files w' = files w ∧ stderr w' = stderr w
          ∧ ∀ s, r = Some s → isSafeSessionId s = true.
Proof.
  unfold resolveSessionIdFromAlias.
  destruct (negb (Js.truthy a) || negb (isSafeAlias a)).
  { exists None, w. by repeat split. }
  unfold tryCatch, mbind, M_bind, bind, readlink.
  destruct (files w !! getAliasPath homedir a) as [[| |t|]|] eqn:E; cbn.
  1,2,4,5: (eexists None, _; by repeat split).
  destruct (negb (Js.endsWith _ SOCKET_SUFFIX)); cbn.
  { eexists None, _. by repeat split. }
  destruct (isSafeSessionId _) eqn:Hsafe; eexists _, _; repeat split; try done.
  by intros s [= <-].
Qed.

Ltac refused :=
  eexists _, _; split; [reflexivity|]; split; [assumption|]; by intros ? [=].

(** X7. The target selection of [send_to_session] never rejects and
    changes no file; when it selects a session, the id is path-safe, and it
    is the trimmed [sessionId] parameter when one was given. *)
Theorem selectTarget_is_safe (paramName paramId : option string) (w : world) :
  ∃ r w',
    selectTarget homedir cwd paramName paramId w = (Ok r, w')
    ∧ files w' = files w
    ∧ ∀ t, r = Target t →
        isSafeSessionId t = true
        ∧ ∀ given, paramId = Some given → Js.trim given ≠ "" → t = Js.trim given.
Proof.
  unfold selectTarget. unfold mbind, M_bind, bind.
  assert (∃ fromAlias w',
            (if truthyOpt (Js.trim <$> paramName)
             then resolveSessionIdFromAlias homedir cwd (default "" (Js.trim <$> paramName))
             else mret None) w = (Ok fromAlias, w')
            ∧ files w' = files w
            ∧ ∀ s, fromAlias = Some s → isSafeSessionId s = true)
    as (fromAlias & w' & -> & Hfiles & Hsafe).
  { destruct (truthyOpt (Js.trim <$> paramName)).
    - destruct (resolve_total (default "" (Js.trim <$> paramName)) w)
        as (r & w' & Hrun & Hf & _ & Hs). by exists r, w'.
    - by exists None, w. }
  destruct (truthyOpt (Js.trim <$> paramName) && negb (truthyOpt fromAlias));
    [refused|].
  destruct paramId as [given|];
    cbn [fmap option_fmap option_map truthyOpt default from_option Datatypes.id].
  - destruct (Js.truthy (Js.trim given)) eqn:Hgiven.
    + destruct (isSafeSessionId (Js.trim given)) eqn:Hid; cbn [negb]; [|refused].
      destruct (truthyOpt fromAlias
                && negb (bool_decide (fromAlias = Some (Js.trim given)))); [refused|].
      eexists _, _. split; [reflexivity|]. split; [assumption|].
      intros t [= <-]. split; [done|]. by intros ? [= <-].
    + destruct fromAlias as [s|]; cbn [truthyOpt]; [|refused].
      destruct (Js.truthy s); cbn [negb]; [|refused].
      eexists _, _. split; [reflexivity|]. split; [assumption|].
      intros t [= <-]. split; [by apply Hsafe|].
      intros ? [= <-] Hne. apply str_eqb_neq in Hne.
      unfold Js.truthy in Hgiven. by rewrite Hne in Hgiven.
  - destruct fromAlias as [s|]; cbn [truthyOpt]; [|refused].
    destruct (Js.truthy s); cbn [negb]; [|refused].
    eexists _, _. split; [reflexivity|]. split; [assumption|].
    intros t [= <-]. split; [by apply Hsafe|]. by intros.
Qed.

(** *** The alias map after a sweep *)

Lemma addAlias_keys k aliasName aliasMap k' :
  k' ∈ (addAlias k aliasName aliasMap).*1 → k' = k ∨ k' ∈ aliasMap.*1.
Proof.
  induction aliasMap as [|[k0 l] rest IH]; cbn.
  - intros ->%list_elem_of_singleton. by left.
  - destruct (Js.str_eqb k0 k); cbn.
    + by right.
    + intros [->|Hin]%elem_of_cons.
      * right. apply list_elem_of_here.
      * destruct (IH Hin) as [->|?]; [by left|]. right. by apply list_elem_of_further.
Qed.

Lemma collectAliases_keys entries :
  ∀ aliasMap w, ∃ m w',
    collectAliases homedir cwd entries aliasMap w = (Ok m, w')
    ∧ files w' = files w
    ∧ ∀ k, k ∈ m.*1 →
        k ∈ aliasMap.*1
        ∨ ∃ e, e ∈ entries ∧ isSymbolicLink e = true
               ∧ pointsAt homedir cwd k (files w) (aliasPathOf homedir e).
Proof.
  induction entries as [|e entries IH]; intros aliasMap w.
  { exists aliasMap, w. repeat split; try done. by left. }
  assert (∀ acc w0, files w0 = files w → ∃ m w',
            collectAliases homedir cwd entries acc w0 = (Ok m, w')
            ∧ files w' = files w
            ∧ ∀ k, k ∈ m.*1 →
                k ∈ acc.*1
                ∨ ∃ e', e' ∈ e :: entries ∧ isSymbolicLink e' = true
                        ∧ pointsAt homedir cwd k (files w) (aliasPathOf homedir e'))
    as Hrest.
  { intros acc w0 Hw0. destruct (IH acc w0) as (m & w' & Hrun & Hf & Hk).
    exists m, w'. split; [done|]. split; [congruence|].
    intros k Hin. destruct (Hk k Hin) as [?|(e' & He' & Hsym & Hpt)]; [by left|].
    right. exists e'. split; [by apply list_elem_of_further|]. split; [done|].
    by rewrite <- Hw0. }
  cbn [collectAliases].
  destruct (isSymbolicLink e) eqn:Hsym; cbn [negb]; [|by apply Hrest].
  destruct (Js.endsWith (name e) ".alias"); cbn [negb]; [|by apply Hrest].
  unfold mbind, M_bind, bind, tryCatch, readlink.
  destruct (files w !! Path.join [CONTROL_DIR homedir; name e]) as [[| |t|]|] eqn:E; cbn.
  1,2,4,5: by apply Hrest.
  destruct (Hrest (addAlias (Path.resolve cwd [CONTROL_DIR homedir; t])
                     (Js.dropEnd (String.length ".alias") (name e)) aliasMap)
              (record (Readlink (Path.join [CONTROL_DIR homedir; name e])) w))
    as (m & w' & Hrun & Hf & Hk); [done|].
  exists m, w'. split; [done|]. split; [done|].
  intros k Hin. destruct (Hk k Hin) as [Hadd|?]; [|by right].
  apply addAlias_keys in Hadd as [->|?]; [|by left].
  right. exists e. split; [apply list_elem_of_here|]. split; [done|]. by exists t.
Qed.

(** X8. Right after [removeAliasesForSocket] has swept a socket path,
    [getAliasMap] has no entry for it. *)
Theorem swept_socket_has_no_aliases (p : string) (w : world)
    (Hp : Js.truthy p = true) :
  ∃ w1 aliasMap w2,
    removeAliasesForSocket homedir cwd (Some p) w = (Ok tt, w1)
    ∧ getAliasMap homedir cwd w1 = (Ok aliasMap, w2)
    ∧ p ∉ aliasMap.*1.
Proof.
  destruct (sweep_spec homedir cwd (Some p) w) as (w1 & Hrun & Hsub & _ & Hdone).
  exists w1. unfold getAliasMap, mbind, M_bind, bind, tryCatch, readdir.
  destruct (files w1 !! CONTROL_DIR homedir) as [[| |t|]|] eqn:E; cbn.
  1,2,3,5: (eexists _, _; split; [done|]; split; [done|]; apply not_elem_of_nil).
  fold (snapshot homedir (files w1)).
  destruct (collectAliases_keys (snapshot homedir (files w1)) []
              (record (Scandir (CONTROL_DIR homedir)) w1)) as (m & w2 & -> & _ & Hk).
  exists m, w2. split; [done|]. split; [done|].
  intros Hin. destruct (Hk p Hin) as [[]%elem_of_nil|(e & He & Hsym & Hpt)].
  apply (Hdone p e); try done.
  - by eapply lookup_weaken.
  - by apply (snapshot_weaken homedir (files w1)).
Qed.

(** *** Renaming, and stopping the server *)

Section Named.
Hypothesis absoluteHome : Path.isAbsolute homedir = true.

Variable state : SocketState.
Variable ctx : ExtensionContext.
Variable w : world.

(** The socket of the session the server is bound to. *)
Hypothesis safeId : isSafeSessionId (getSessionId ctx) = true.
Hypothesis listening : server state = true.
Hypothesis bound : socketPath state = Some (getSocketPath homedir (getSessionId ctx)).
Hypothesis controlDir : files w !! CONTROL_DIR homedir = Some NDir.

Lemma session_target_points :
  Path.resolve cwd [CONTROL_DIR homedir; getSessionId ctx +:+ SOCKET_SUFFIX]
  = getSocketPath homedir (getSessionId ctx).
Proof.
  rewrite socketPath_shape by done.
  apply resolve_child; [by apply controlDir_normal|by apply safe_id_plain].
Qed.

Lemma swept_session w1 :
  files w1 ⊆ files w →
  (∀ q, is_Some (files w !! q) → files w1 !! q = None →
     pointsAt homedir cwd (getSocketPath homedir (getSessionId ctx)) (files w) q) →
  (∀ t, plainName t →
     ¬ pointsAt homedir cwd (getSocketPath homedir (getSessionId ctx)) (files w1)
         (CONTROL_DIR homedir +:+ "/" +:+ t)) →
  files w1 !! CONTROL_DIR homedir = Some NDir
  ∧ ∀ old, isSafeAlias old = true →
      files w !! getAliasPath homedir old
        = Some (NSymlink (getSessionId ctx +:+ SOCKET_SUFFIX)) →
      files w1 !! getAliasPath homedir old = None.
Proof.
  intros Hsub Hgone Hclean. split.
  - destruct (files w1 !! CONTROL_DIR homedir) as [n|] eqn:E.
    + pose proof (lookup_weaken _ _ _ _ E Hsub). congruence.
    + destruct (Hgone (CONTROL_DIR homedir)) as (t & Ht & _); [by eexists|done|congruence].
  - intros old Hold Hlink.
    destruct (files w1 !! getAliasPath homedir old) as [n|] eqn:E; [|done].
    pose proof (lookup_weaken _ _ _ _ E Hsub) as E0.
    exfalso. apply (Hclean (old +:+ ".alias")); [by apply safe_alias_plain|].
    rewrite <- aliasPath_shape by done.
    exists (getSessionId ctx +:+ SOCKET_SUFFIX).
    split; [congruence|apply session_target_points].
Qed.

(** X9. Renaming a served session: when the session name gives a safe alias
    other than the recorded one, [syncAlias] records it, the new alias
    resolves to the session id, no other alias of a safe name points at the
    socket any more, and an alias that pointed at it no longer resolves. *)
Theorem syncAlias_renames (new : string)
    (Hnew : getSessionAlias ctx = Some new)
    (Hchanged : alias state ≠ Some new)
    (Hnd : files w !! getAliasPath homedir new ≠ Some NDir) :
  ∃ state' w',
    syncAlias homedir cwd state ctx w = (Ok state', w')
    ∧ alias state' = Some new
    ∧ (∃ w'', resolveSessionIdFromAlias homedir cwd new w'
              = (Ok (Some (getSessionId ctx)), w''))
    ∧ (∀ other target,
         isSafeAlias other = true → other ≠ new →
         files w' !! getAliasPath homedir other = Some (NSymlink target) →
         Path.resolve cwd [CONTROL_DIR homedir; target]
         ≠ getSocketPath homedir (getSessionId ctx))
    ∧ (∀ old,
         isSafeAlias old = true → old ≠ new →
         files w !! getAliasPath homedir old
           = Some (NSymlink (getSessionId ctx +:+ SOCKET_SUFFIX)) →
         ∃ w'', resolveSessionIdFromAlias homedir cwd old w' = (Ok None, w'')).
Proof.
  destruct (getSessionAlias_safe ctx new Hnew) as [Hsafe Htruthy].
  pose proof (socketPath_truthy homedir _ absoluteHome safeId) as Hp.
  pose proof (controlDir_normal homedir absoluteHome) as HD.
  unfold syncAlias. rewrite listening, bound, Hnew.
  cbn [truthyOpt negb orb default from_option Datatypes.id].
  rewrite Hp, Htruthy. cbn [negb orb andb].
  rewrite bool_decide_eq_false_2 by congruence. cbn [negb].
  unfold mbind, M_bind, bind.
  destruct (sweep_complete homedir cwd absoluteHome _ w Hp controlDir)
    as (w1 & -> & Hsub & Hgone & Hclean).
  destruct (swept_session w1 Hsub Hgone Hclean) as [Hdir1 Hold1].
  assert (files w1 !! parent (getAliasPath homedir new) = Some NDir) as Hpar.
  { rewrite aliasPath_shape by done.
    destruct (parent_child _ (new +:+ ".alias") HD) as [-> _];
      [by apply safe_alias_plain|done]. }
  assert (files w1 !! getAliasPath homedir new ≠ Some NDir) as Hnd1.
  { intros E. apply Hnd. by eapply lookup_weaken. }
  destruct (createAliasSymlink_creates homedir (getSessionId ctx) new w1 Hsafe Hpar Hnd1)
    as (w2 & Hcreate & Hlink).
  destruct (createAliasSymlink_frame homedir (getSessionId ctx) new w1)
    as (w2' & Hcreate' & Hframe).
  assert (w2' = w2) as -> by congruence.
  rewrite Hcreate. eexists _, w2. split; [done|]. split; [done|]. split; [|split].
  - eexists. rewrite (resolve_reads homedir cwd new w2 _ Hsafe Hlink).
    rewrite basename_resolve by by apply safe_id_plain.
    cbv zeta. by rewrite endsWith_app, dropEnd_app, safeId.
  - intros other target Hother Hne Hl Hres.
    rewrite Hframe in Hl by (intros E; by apply aliasPath_inj in E).
    apply (Hclean (other +:+ ".alias")); [by apply safe_alias_plain|].
    rewrite <- aliasPath_shape by done. by exists target.
  - intros old Hold Hne Hl.
    apply resolve_unreadable. intros target.
    rewrite Hframe by (intros E; by apply aliasPath_inj in E).
    by rewrite Hold1.
Qed.

(** X10. Losing the name: when the session has no usable name while an
    alias is recorded, [syncAlias] forgets the alias and removes the link
    that pointed at the socket, so the old alias no longer resolves. *)
Theorem syncAlias_unnames (old : string)
    (Hnone : getSessionAlias ctx = None)
    (Hold : alias state = Some old)
    (Hsafe : isSafeAlias old = true)
    (Hlink : files w !! getAliasPath homedir old
             = Some (NSymlink (getSessionId ctx +:+ SOCKET_SUFFIX))) :
  ∃ state' w',
    syncAlias homedir cwd state ctx w = (Ok state', w')
    ∧ alias state' = None
    ∧ files w' !! getAliasPath homedir old = None
    ∧ ∃ w'', resolveSessionIdFromAlias homedir cwd old w' = (Ok None, w'').
Proof.
  pose proof (socketPath_truthy homedir _ absoluteHome safeId) as Hp.
  unfold syncAlias. rewrite listening, bound, Hnone, Hold.
  cbn [truthyOpt negb orb andb]. rewrite Hp, (safe_alias_truthy old Hsafe).
  cbn [negb orb andb]. unfold mbind, M_bind, bind.
  destruct (sweep_complete homedir cwd absoluteHome _ w Hp controlDir)
    as (w1 & -> & Hsub & Hgone & Hclean).
  destruct (swept_session w1 Hsub Hgone Hclean) as [_ Hold1].
  eexists _, w1. split; [done|]. split; [done|].
  split; [by apply Hold1|].
  apply resolve_unreadable. intros target. by rewrite Hold1.
Qed.


End Named.

End SyncFacts.

Lemma swept_socket_witness :
  ∃ w1 aliasMap w2,
    ControlSocket.removeAliasesForSocket "/home/u" "/"
      (Some "/home/u/.pi/session-control/s1.sock") aliasedControlDir = (Fs.Ok tt, w1)
    ∧ Alias.getAliasMap "/home/u" "/" w1 = (Fs.Ok aliasMap, w2)
    ∧ "/home/u/.pi/session-control/s1.sock" ∉ aliasMap.*1.
Proof.
  apply (swept_socket_has_no_aliases "/home/u" "/"
           "/home/u/.pi/session-control/s1.sock" aliasedControlDir).
  reflexivity.
Defined.

(** The session [s1], served, whose name has become [worker2]. *)
Definition renamed : Host.ExtensionContext :=
  Host.MkContext true [] [] None "s1" (Some " worker2 ") Host.RewindMissing None
    (Host.MkRegistry (λ _ _, None) (λ _, None)).

Definition servingAs (alias : option string) : Control.SocketState :=
  Control.MkState true (Some "/home/u/.pi/session-control/s1.sock") (Some renamed)
    alias true [MkSubscription 7 "sub-1"].

Lemma syncAlias_renames_witness :
  ∃ state' w',
    Alias.syncAlias "/home/u" "/" (servingAs (Some "worker1")) renamed aliasedControlDir
    = (Fs.Ok state', w')
    ∧ Control.alias state' = Some "worker2"
    ∧ (∃ w'', ControlSocket.resolveSessionIdFromAlias "/home/u" "/" "worker2" w'
              = (Fs.Ok (Some "s1"), w''))
    ∧ (∃ w'', ControlSocket.resolveSessionIdFromAlias "/home/u" "/" "worker1" w'
              = (Fs.Ok None, w'')).
Proof.
  destruct (syncAlias_renames "/home/u" "/" eq_refl (servingAs (Some "worker1")) renamed
              aliasedControlDir) with (new := "worker2")
    as (state' & w' & Hrun & Halias & Hnew & _ & Hold).
  - reflexivity.
  - reflexivity.
  - reflexivity.
  - vm_compute. reflexivity.
  - reflexivity.
  - discriminate.
  - vm_compute. discriminate.
  - exists state', w'. split; [exact Hrun|]. split; [exact Halias|].
    split; [exact Hnew|]. apply Hold.
    + reflexivity.
    + discriminate.
    + vm_compute. reflexivity.
Defined.

(** The same session without a name. *)
Definition unnamed : Host.ExtensionContext :=
  Host.MkContext true [] [] None "s1" None Host.RewindMissing None
    (Host.MkRegistry (λ _ _, None) (λ _, None)).

Lemma syncAlias_unnames_witness :
  ∃ state' w',
    Alias.syncAlias "/home/u" "/" (servingAs (Some "worker1")) unnamed aliasedControlDir
    = (Fs.Ok state', w')
    ∧ Control.alias state' = None
    ∧ Fs.files w' !! ControlSocket.getAliasPath "/home/u" "worker1" = None
    ∧ ∃ w'', ControlSocket.resolveSessionIdFromAlias "/home/u" "/" "worker1" w'
             = (Fs.Ok None, w'').
Proof.
  apply (syncAlias_unnames "/home/u" "/" eq_refl (servingAs (Some "worker1")) unnamed
           aliasedControlDir).
  - reflexivity.
  - reflexivity.
  - reflexivity.
  - vm_compute. reflexivity.
  - reflexivity.
  - reflexivity.
  - reflexivity.
  - vm_compute. reflexivity.
Defined.


(** ** What a command can do to the session and to the server state *)

Section EffectFacts.
Import Host ControlMessages ControlRpc Control.

(** What has to hold of the command and of the session for the dispatcher
    to touch the session with [e]. *)
Definition warranted (ctx : ExtensionContext) (command : RpcCommand.t) (e : effect)
  : Prop :=
  let body := RpcCommand.body command in
  match e with
  | CtxAbort => RpcCommand.type command = "abort"
  | SendMessage customType content display triggerTurn deliverAs =>
      RpcCommand.type command = "send"
      ∧ prop body "message" = Some (JStr content)
      ∧ Js.trim content ≠ ""
      ∧ customType = SESSION_MESSAGE_TYPE
      ∧ (deliverAs = None ↔ isIdle ctx = true)
  | RewindTo entryId =>
      RpcCommand.type command = "clear"
      ∧ isIdle ctx = true
      ∧ getFirstEntryId ctx = Some entryId
      ∧ getLeafId ctx ≠ Some entryId
      ∧ truthy (prop body "summarize") = false
  | _ => True
  end.

Ltac effects_in H :=
  cbn in H; repeat (apply elem_of_cons in H as [->|H]); try done;
  try (by apply elem_of_nil in H).

Ltac untouched :=
  split; [intros e Hin Hch; effects_in Hin|cbn; lia].

(** X12. The dispatcher touches the session at most once per command, and
    only as the command warrants: it aborts only for [abort]; it sends only
    for [send], and then the very message of the command, which is not
    blank; it rewinds only for [clear] of an idle session, without
    [summarize], to the first entry, which is not the current leaf.  Without
    a session attached it touches nothing. *)
Theorem session_effects_are_warranted (rt : Runtime) (state : SocketState)
    (command : RpcCommand.t) (sock : nat) :
  (∀ e, e ∈ (handleCommand rt state command sock).2 → changesSession e = true →
     ∃ ctx, context state = Some ctx ∧ warranted ctx command e)
  ∧ (length (List.filter changesSession (handleCommand rt state command sock).2) ≤ 1)%nat.
Proof.
  unfold handleCommand, respond, writeResponse.
  destruct (context state) as [ctx|] eqn:Hctx; [|untouched].
  destruct (Js.str_eqb (RpcCommand.type command) "abort") eqn:Habort.
  { apply str_eqb_eq in Habort. split; [|cbn; lia].
    intros e Hin Hch. effects_in Hin. by exists ctx. }
  destruct (Js.str_eqb (RpcCommand.type command) "subscribe").
  { destruct (isStr _ "turn_end"); untouched. }
  destruct (Js.str_eqb (RpcCommand.type command) "get_message").
  { destruct (getLastAssistantMessage ctx); untouched. }
  destruct (Js.str_eqb (RpcCommand.type command) "get_summary").
  { destruct (getMessagesSinceLastPrompt ctx); [untouched|].
    destruct (ModelSelection.selectSmallModel _ _); [|untouched].
    destruct (getApiKey _ _); [|untouched].
    destruct (negb (Js.truthy _)); [untouched|].
    destruct (complete _ _ _ _ _); [|untouched].
    destruct (_ || _); untouched. }
  destruct (Js.str_eqb (RpcCommand.type command) "clear") eqn:Hclear.
  { apply str_eqb_eq in Hclear.
    destruct (isIdle ctx) eqn:Hidle; cbn [negb]; [|untouched].
    destruct (getFirstEntryId ctx) as [first|] eqn:Hfirst; [|untouched].
    destruct (negb (Js.truthy first)); [untouched|].
    case_bool_decide as Hleaf; [untouched|].
    destruct (truthy (prop (RpcCommand.body command) "summarize")) eqn:Hsum; [untouched|].
    destruct (rewindTo ctx) as [|throws]; [untouched|].
    destruct (throws first); (split; [|cbn; lia]);
      intros e Hin Hch; effects_in Hin; by exists ctx. }
  destruct (Js.str_eqb (RpcCommand.type command) "send") eqn:Hsend; [|untouched].
  apply str_eqb_eq in Hsend.
  destruct (prop (RpcCommand.body command) "message") as [[| | |message| |]|] eqn:Hmsg;
    cbn [asString]; try untouched.
  destruct (String.length (Js.trim message) =? 0)%nat eqn:Hblank; [untouched|].
  split; [|cbn; lia]. intros e Hin Hch. effects_in Hin.
  exists ctx. split; [done|]. cbn. rewrite Hmsg.
  split; [done|]. split; [done|]. split.
  { intros E. rewrite E in Hblank. done. }
  split; [done|]. by destruct (isIdle ctx).
Qed.


End EffectFacts.

(** ** Subscriptions of a connection that goes away *)

Section CleanupFacts.
Import Host ControlMessages ControlRpc Control.

(** No subscription of [subs] carries the id. *)
Definition unused (subscriptionId' : string) (subs : list TurnEndSubscription) : Prop :=
  ∀ sub, sub ∈ subs → subscriptionId sub ≠ subscriptionId'.

Lemma removeFirst_unused sid subs : unused sid subs → removeFirst sid subs = subs.
Proof.
  induction subs as [|s subs IH]; intros Hun; [done|]. cbn.
  rewrite (proj2 (str_eqb_neq _ _)) by (apply Hun, list_elem_of_here).
  rewrite IH; [done|]. intros sub Hin. by apply Hun, list_elem_of_further.
Qed.

Lemma removeFirst_found sid pre sub post :
  unused sid pre → subscriptionId sub = sid →
  removeFirst sid (pre ++ sub :: post) = pre ++ post.
Proof.
  induction pre as [|s pre IH]; intros Hun Hid; cbn.
  - by rewrite (proj2 (str_eqb_eq _ _)).
  - rewrite (proj2 (str_eqb_neq _ _)) by (apply Hun, list_elem_of_here).
    rewrite IH; [done| |done]. intros x Hin. by apply Hun, list_elem_of_further.
Qed.

(** X14. The [cleanup] that [subscribe] registers for the close and the
    error of the connection.  When the id of the new subscription was not in
    use, cleaning up restores the subscriptions as they were before the
    command, and a second call (both events may fire) changes nothing.  The
    search goes by id alone: when an earlier subscription already carries
    the id, it is that one which is removed, and the new one stays. *)
Theorem cleanup_after_subscribe (rt : Runtime) (state : SocketState)
    (ctx : ExtensionContext) (command : RpcCommand.t) (sock : nat)
    (Hctx : context state = Some ctx)
    (Htype : RpcCommand.type command = "subscribe")
    (Hevent : prop (RpcCommand.body command) "event" = Some (JStr "turn_end")) :
  let subscriptionId' := subscriptionIdOf rt command in
  let subscribed := (handleCommand rt state command sock).1 in
  (unused subscriptionId' (turnEndSubscriptions state) →
     cleanup subscribed subscriptionId' = state
     ∧ cleanup (cleanup subscribed subscriptionId') subscriptionId' = state)
  ∧ (∀ pre other post,
       turnEndSubscriptions state = pre ++ MkSubscription other subscriptionId' :: post →
       unused subscriptionId' pre →
       turnEndSubscriptions (cleanup subscribed subscriptionId')
       = pre ++ post ++ [MkSubscription sock subscriptionId']).
Proof.
  intros sid subscribed. subst subscribed.
  rewrite (subscribe_registers rt state command sock ctx Hctx Htype Hevent).
  fold sid. unfold cleanup, withSubscriptions. cbn. split.
  - intros Hun.
    rewrite (removeFirst_found sid _ (MkSubscription sock sid) []) by done.
    rewrite app_nil_r, removeFirst_unused by done. by destruct state.
  - intros pre other post -> Hun. rewrite <- app_assoc. cbn.
    by rewrite removeFirst_found.
Qed.

End CleanupFacts.

Lemma cleanup_after_subscribe_witness :
  Control.cleanup
    (Control.handleCommand offline (serving (sessionWith true)) subscribeTurnEnd 7).1
    "sub_1700000000000_k3x9qa"
  = serving (sessionWith true).
Proof.
  apply (cleanup_after_subscribe offline (serving (sessionWith true)) (sessionWith true)
           subscribeTurnEnd 7).
  - reflexivity.
  - reflexivity.
  - reflexivity.
  - intros sub Hin. by apply elem_of_nil in Hin.
Defined.

(** ** Framing does not depend on how the stream is cut into chunks *)

Section ChunkFacts.
Import Host ControlMessages ControlRpc Control.

Variable JSON_parse : string → parsed.





(** *** The client *)

Variable command : RpcCommand.t.
Variable waitForEvent : bool.

Lemma onLine_settles st line done :
  ControlRpc.onLine JSON_parse command waitForEvent st line = inl done →
  is_Some (settled done).
Proof.
  unfold ControlRpc.onLine. intros H.
  repeat case_match; simplify_eq; by eexists.
Qed.

Lemma onLine_goes_on st line st' :
  ControlRpc.onLine JSON_parse command waitForEvent st line = inr st' →
  settled st' = settled st ∧ sent st' = sent st ∧ ended st' = ended st.
Proof.
  unfold ControlRpc.onLine. intros H.
  repeat case_match; simplify_eq; done.
Qed.

(** What of the client the caller and the peer can see. *)
Definition visible (st : client) : option json * list string * bool * option outcome :=
  (response st, sent st, ended st, settled st).

Lemma client_drain_step st raw rest :
  rest ≠ [] →
  ControlRpc.drain JSON_parse command waitForEvent st (raw :: rest)
  = if negb (Js.truthy (Js.trim raw))
    then ControlRpc.drain JSON_parse command waitForEvent st rest
    else match ControlRpc.onLine JSON_parse command waitForEvent st (Js.trim raw) with
         | inl done => withBuffer done (Js.join Js.LF rest)
         | inr st' => ControlRpc.drain JSON_parse command waitForEvent st' rest
         end.
Proof. by destruct rest. Qed.

Lemma client_drain_buffer segs :
  segs ≠ [] →
  ∀ st b, ControlRpc.drain JSON_parse command waitForEvent (withBuffer st b) segs
          = ControlRpc.drain JSON_parse command waitForEvent st segs.
Proof.
  induction segs as [|raw rest IH]; intros Hne st b; [done|].
  destruct rest as [|next rest']; [done|].
  rewrite !drain_step. destruct (negb _); [by apply IH|].
  assert (ControlRpc.onLine JSON_parse command waitForEvent (withBuffer st b) (Js.trim raw)
          = match ControlRpc.onLine JSON_parse command waitForEvent st (Js.trim raw) with
            | inl done => inl (withBuffer done b)
            | inr st' => inr (withBuffer st' b)
            end) as ->.
  { unfold ControlRpc.onLine, withBuffer, settle. cbn.
    repeat case_match; simplify_eq; done. }
  destruct (ControlRpc.onLine _ _ _ st _); [done|]. by apply IH.
Qed.

Lemma client_drain_app partial xs :
  ∀ ys st, ys ≠ [] →
    let mid := ControlRpc.drain JSON_parse command waitForEvent st (xs ++ [partial]) in
    let all := ControlRpc.drain JSON_parse command waitForEvent st (xs ++ ys) in
    settled st = None →
    match settled mid with
    | None => all = ControlRpc.drain JSON_parse command waitForEvent mid ys
    | Some _ => visible all = visible mid
    end.
Proof.
  induction xs as [|raw xs IH]; intros ys st Hne mid all Hst; subst mid all.
  - cbn. rewrite Hst. by rewrite client_drain_buffer.
  - cbn [app].
    rewrite !client_drain_step by (by destruct xs, ys || by destruct xs).
    destruct (negb _); [by apply IH|].
    destruct (ControlRpc.onLine _ _ _ st _) as [done|st'] eqn:Hline.
    + destruct (onLine_settles _ _ _ Hline) as [o Ho]. cbn. by rewrite Ho.
    + apply IH; [done|]. destruct (onLine_goes_on _ _ _ Hline) as [-> _]. done.
Qed.

Lemma client_drain_partial segs :
  ∀ st, segs ≠ [] → settled st = None →
    settled (ControlRpc.drain JSON_parse command waitForEvent st segs) = None →
    buffer (ControlRpc.drain JSON_parse command waitForEvent st segs) = List.last segs "".
Proof.
  induction segs as [|raw rest IH]; intros st Hne Hst Hmid; [done|].
  destruct rest as [|next rest']; [done|].
  rewrite drain_step in Hmid |- *.
  destruct (negb _); [by apply IH|].
  destruct (ControlRpc.onLine _ _ _ st _) as [done|st'] eqn:Hline.
  - destruct (onLine_settles _ _ _ Hline) as [o Ho]. cbn in Hmid. congruence.
  - apply IH; [done| |done]. destruct (onLine_goes_on _ _ _ Hline) as [-> _]. done.
Qed.

(** X16. What the client ends with does not depend on how the reply is cut
    into chunks: after [chunk1] and then [chunk2] the response, the lines
    sent, the end of the socket and the outcome are those after the two
    received as one chunk. *)
Theorem client_ignores_chunking (st : client) (chunk1 chunk2 : string) :
  visible (step JSON_parse command waitForEvent
             (step JSON_parse command waitForEvent st (Data chunk1)) (Data chunk2))
  = visible (step JSON_parse command waitForEvent st (Data (chunk1 +:+ chunk2))).
Proof.
  destruct (settled st) as [o|] eqn:Hst.
  { by rewrite !(step_settled JSON_parse command waitForEvent st _ o Hst). }
  unfold step at 2 3. rewrite Hst.
  set (segs := Js.split "010" (buffer st +:+ chunk1)).
  assert (segs ≠ []) as Hne by apply split_nonempty.
  rewrite <- app_assoc_str, split_app_frame. fold segs.
  pose proof (client_drain_app (List.last segs "") (removelast segs)
                (Js.split "010" (List.last segs "" +:+ chunk2)) st
                (split_nonempty _ _) Hst) as Happ.
  cbv zeta in Happ. rewrite <- app_removelast_last in Happ by done.
  set (mid := ControlRpc.drain JSON_parse command waitForEvent st segs) in *.
  destruct (settled mid) as [o|] eqn:Hmid.
  - rewrite (step_settled JSON_parse command waitForEvent mid _ o Hmid). by rewrite Happ.
  - unfold step. rewrite Hmid, Happ.
    pose proof (client_drain_partial segs st Hne Hst Hmid) as Hbuffer.
    fold mid in Hbuffer. by rewrite Hbuffer.
Qed.


End ChunkFacts.


(** ** The messages since the last prompt *)

Section PromptFacts.
Import Host ControlMessages.







End PromptFacts.

(** ** The sender of a message, from the tool to the renderer *)

Section SenderFacts.
Import Alias SessionTool SenderInfo.

Lemma startsWith_app_self p rest : Js.startsWith (p +:+ rest) p = true.
Proof.
  induction p as [|c p IH]; [apply startsWith_empty|].
  rewrite app_cons. cbn [Js.startsWith]. by rewrite bool_decide_eq_true_2, IH.
Qed.

Lemma drop_app_self p rest : drop (String.length p) (p +:+ rest) = rest.
Proof. induction p as [|c p IH]; [done|]. by rewrite app_cons. Qed.

Lemma cut_unfold pat s :
  cut pat s
  = if Js.startsWith s pat then Some ("", drop (String.length pat) s)
    else match s with
         | EmptyString => None
         | String c s' =>
             match cut pat s' with
             | Some (before, after) => Some (String c before, after)
             | None => None
             end
         end.
Proof. by destruct s. Qed.

Lemma cut_here pat rest : cut pat (pat +:+ rest) = Some ("", rest).
Proof. by rewrite cut_unfold, startsWith_app_self, drop_app_self. Qed.

(** An occurrence cannot reach over a character the pattern lacks. *)
Lemma startsWith_absent c pat :
  lacks c pat → ∀ a b, Js.startsWith (a +:+ String c b) pat = Js.startsWith a pat.
Proof.
  induction pat as [|p pat IH]; intros Hl a b.
  - by rewrite !startsWith_empty.
  - destruct Hl as [Hp Hl]. destruct a as [|x a].
    + rewrite app_empty_l. cbn [Js.startsWith].
      by rewrite bool_decide_eq_false_2.
    + rewrite app_cons. cbn [Js.startsWith]. by rewrite IH.
Qed.

Lemma cut_skip c pat a b :
  lacks c pat → pat ≠ "" → Js.includes a pat = false →
  cut pat (a +:+ String c b)
  = match cut pat b with
    | Some (before, after) => Some (a +:+ String c before, after)
    | None => None
    end.
Proof.
  intros Hl Hne. induction a as [|x a IH]; intros Hinc.
  - rewrite app_empty_l, cut_unfold.
    replace (Js.startsWith (String c b) pat) with false; [done|].
    destruct pat as [|p pat]; [done|]. destruct Hl as [Hp _].
    cbn [Js.startsWith]. by rewrite bool_decide_eq_false_2.
  - cbn [Js.includes] in Hinc. apply orb_false_iff in Hinc as [Hhere Hlater].
    rewrite app_cons, cut_unfold, <- app_cons, startsWith_absent, Hhere by done.
    rewrite IH by done. by destruct (cut pat b) as [[? ?]|].
Qed.

Lemma cut_lacks c pat a rest :
  lacks c a → cut (String c pat) (a +:+ String c pat +:+ rest) = Some (a, rest).
Proof.
  intros Hl. induction a as [|x a IH].
  - rewrite app_empty_l. apply cut_here.
  - destruct Hl as [Hx Hl]. rewrite app_cons, cut_unfold. cbn [Js.startsWith].
    rewrite bool_decide_eq_false_2 by congruence. cbn [andb].
    by rewrite IH.
Qed.

(** *** Trimming *)

Lemma trimEnd_snoc c s :
  Js.isWhiteSpace c = true → Js.trimEnd (s +:+ String c "") = Js.trimEnd s.
Proof.
  intros Hc. induction s as [|x s IH].
  - rewrite app_empty_l. cbn [Js.trimEnd]. by rewrite Hc.
  - rewrite app_cons. cbn [Js.trimEnd]. by rewrite IH.
Qed.

Lemma trimStart_snoc c s :
  Js.isWhiteSpace c = true →
  Js.trimStart (s +:+ String c "")
  = if Js.str_eqb (Js.trimStart s) "" then "" else Js.trimStart s +:+ String c "".
Proof.
  intros Hc. induction s as [|x s IH].
  - rewrite app_empty_l. cbn [Js.trimStart]. by rewrite Hc.
  - rewrite app_cons. cbn [Js.trimStart]. destruct (Js.isWhiteSpace x); [done|].
    by rewrite <- app_cons.
Qed.

Lemma trim_snoc c s : Js.isWhiteSpace c = true → Js.trim (s +:+ String c "") = Js.trim s.
Proof.
  intros Hc. unfold Js.trim. rewrite trimStart_snoc by done.
  destruct (Js.str_eqb (Js.trimStart s) "") eqn:E.
  - apply str_eqb_eq in E. by rewrite E.
  - by apply trimEnd_snoc.
Qed.

Lemma trimEnd_cons x s :
  Js.trimEnd (String x s)
  = match Js.trimEnd s with
    | EmptyString => if Js.isWhiteSpace x then EmptyString else String x EmptyString
    | t => String x t
    end.
Proof. reflexivity. Qed.

Lemma trimEnd_idem s : Js.trimEnd (Js.trimEnd s) = Js.trimEnd s.
Proof.
  induction s as [|x s IH]; [done|]. rewrite trimEnd_cons.
  destruct (Js.trimEnd s) as [|y t] eqn:E.
  - destruct (Js.isWhiteSpace x) eqn:Hx; [done|]. rewrite trimEnd_cons. cbn. by rewrite Hx.
  - by rewrite trimEnd_cons, IH.
Qed.

(** What [trimEnd] leaves starts as the text does. *)
Lemma trimEnd_head x s :
  Js.isWhiteSpace x = false → ∃ t, Js.trimEnd (String x s) = String x t.
Proof.
  intros Hx. rewrite trimEnd_cons. destruct (Js.trimEnd s); [|by eexists].
  rewrite Hx. by eexists.
Qed.

Lemma trimStart_head s :
  Js.trimStart s = "" ∨ ∃ x t, Js.trimStart s = String x t ∧ Js.isWhiteSpace x = false.
Proof.
  induction s as [|x s IH]; [by left|]. cbn [Js.trimStart].
  destruct (Js.isWhiteSpace x) eqn:Hx; [done|]. right. by exists x, s.
Qed.

Lemma trim_idem s : Js.trim (Js.trim s) = Js.trim s.
Proof.
  unfold Js.trim.
  destruct (trimStart_head s) as [E|(x & t & E & Hx)]; rewrite E; [done|].
  destruct (trimEnd_head x t Hx) as [t' E']. rewrite E'.
  cbn [Js.trimStart]. rewrite Hx, <- E'. apply trimEnd_idem.
Qed.

(** *** The tag around the sender *)

Lemma quoteChar_no_tag c : c ≠ "<"%char → lacks "<" (JSON.quoteChar c).
Proof.
  intros Hc. apply includes_char_false. revert Hc.
  destruct c as [[] [] [] [] [] [] [] []]; try reflexivity. by intros [].
Qed.

Lemma quote_no_tag s : lacks "<" s → lacks "<" (JSON.quote s).
Proof.
  intros Hs. unfold JSON.quote. split; [done|]. apply lacks_app; [|done].
  induction s as [|c s IH]; [done|]. destruct Hs as [Hc Hs].
  cbn [JSON.quoteBody]. apply lacks_app; [by apply quoteChar_no_tag|by apply IH].
Qed.

Ltac no_tag :=
  repeat first [ assumption | by repeat split | apply quote_no_tag | apply lacks_app ].

Lemma senderObject_no_tag id name :
  lacks "<" id → (∀ n, name = Some n → lacks "<" n) →
  lacks "<" (JSON.stringify (senderObject id name)).
Proof.
  intros Hid Hname. unfold senderObject.
  destruct (if truthyOpt name then name else None) as [n|] eqn:E.
  - assert (lacks "<" n) as Hn.
    { apply Hname. destruct (truthyOpt name); [done|discriminate]. }
    cbn [fmap option_fmap option_map RpcResponse.optional app JSON.stringify map Js.join].
    no_tag.
  - cbn [fmap option_fmap option_map RpcResponse.optional app JSON.stringify map Js.join].
    no_tag.
Qed.

(** A message with the sender info the tool appends: where the tags are. *)
Lemma firstMatch_attached message body :
  Js.includes message OPEN_TAG = false → lacks "<" body →
  firstMatch (message +:+ Js.LF +:+ Js.LF +:+ OPEN_TAG +:+ body +:+ CLOSE_TAG)
  = Some (message +:+ Js.LF +:+ Js.LF, body, "").
Proof.
  intros Hmsg Hbody. unfold firstMatch, Js.LF.
  change (message +:+ String "010" "" +:+ String "010" "" +:+ OPEN_TAG +:+ body +:+ CLOSE_TAG)
    with (message +:+ String "010" ("" +:+ String "010" (OPEN_TAG +:+ body +:+ CLOSE_TAG))).
  rewrite cut_skip; [|by vm_compute|done|done].
  rewrite cut_skip; [|by vm_compute|done|done].
  rewrite cut_here. cbv beta iota.
  assert (cut CLOSE_TAG (body +:+ CLOSE_TAG) = Some (body, "")) as ->; [|done].
  pose proof (cut_lacks "<" "/sender_info>" body "" Hbody) as Hcut.
  by rewrite app_empty_r in Hcut.
Qed.

(** *** From the tool to the renderer *)

Variable JSON_parse : string → parsed.

(** X19. What [send_to_session] appends to a message is what the renderer
    of the receiving session reads back.  For a message without an opening
    sender tag, and a sender id and name without the character that opens a
    tag, [parseSenderInfo] returns the trimmed id and the trimmed name of
    the sender, [formatSenderInfo] labels it with the name followed by the
    id in parentheses, or with the id alone when there is no name, and
    [stripSenderInfo] returns the trimmed message. *)
Theorem sender_info_round_trip (message id : string) (name : option string)
    (Hparse : JSON_parse (JSON.stringify (senderObject id (Js.trim <$> name)))
              = Value (senderObject id (Js.trim <$> name)))
    (Hmessage : Js.includes message OPEN_TAG = false)
    (Hid : lacks "<" id) (Hname : ∀ n, name = Some n → lacks "<" (Js.trim n))
    (Hsender : Js.trim id ≠ "") :
  parseSenderInfo JSON_parse (message +:+ senderInfo (Some id) name)
  = Some (Make (Some (Js.trim id))
            (match name with
             | Some n => nonEmpty (Js.trim n)
             | None => None
             end))
  ∧ formatSenderInfo
      (parseSenderInfo JSON_parse (message +:+ senderInfo (Some id) name))
    = Some (match name with
            | Some n =>
                if Js.truthy (Js.trim n)
                then Js.trim n +:+ " (" +:+ Js.trim id +:+ ")"
                else Js.trim id
            | None => Js.trim id
            end)
  ∧ stripSenderInfo (message +:+ senderInfo (Some id) name) = Js.trim message.
Proof.
  assert (Js.truthy (Js.trim id) = true) as Hshown.
  { unfold Js.truthy. by rewrite (proj2 (str_eqb_neq _ "")). }
  cut (parseSenderInfo JSON_parse (message +:+ senderInfo (Some id) name)
       = Some (Make (Some (Js.trim id))
                 (match name with
                  | Some n => nonEmpty (Js.trim n)
                  | None => None
                  end))
       ∧ stripSenderInfo (message +:+ senderInfo (Some id) name) = Js.trim message).
  { intros [Hread Hstrip]. split; [done|]. split; [|done]. rewrite Hread.
    unfold formatSenderInfo, nonEmpty. cbn [sessionName sessionId].
    destruct name as [n|]; [|by rewrite Hshown].
    destruct (Js.truthy (Js.trim n)) eqn:Hn; by rewrite ?Hn, Hshown. }
  assert (Js.truthy id = true) as Htruthy.
  { destruct id; [by cbn in Hsender|done]. }
  assert (lacks "<" (JSON.stringify (senderObject id (Js.trim <$> name)))) as Hbody.
  { apply senderObject_no_tag; [done|].
    intros n Hn. destruct name as [n0|]; [|done]. injection Hn as <-. by apply Hname. }
  unfold senderInfo. rewrite Htruthy.
  set (body := JSON.stringify (senderObject id (Js.trim <$> name))) in *.
  assert (message +:+ Js.LF +:+ Js.LF +:+ "<sender_info>" +:+ body +:+ "</sender_info>"
          = message +:+ Js.LF +:+ Js.LF +:+ OPEN_TAG +:+ body +:+ CLOSE_TAG) as Eshape
    by done.
  split.
  - unfold parseSenderInfo. rewrite Eshape, firstMatch_attached by done.
    assert (Js.trim body = body) as ->
      by (unfold body, senderObject; apply trim_object).
    assert (∃ r, body = String "{" r) as [r Er]
      by (unfold body, senderObject; by eexists).
    assert (Js.truthy body = true) as -> by by rewrite Er.
    assert (Js.startsWith body "{" = true) as ->.
    { rewrite Er. cbn [Js.startsWith]. by rewrite startsWith_empty. }
    cbn [negb]. subst body. rewrite Hparse.
    set (obj := senderObject id (Js.trim <$> name)).
    assert (trimmedString (prop obj "sessionId") = Js.trim id) as -> by done.
    assert (Js.truthy (Js.trim id) = true) as Hid'.
    { unfold Js.truthy. by rewrite (proj2 (str_eqb_neq _ "")). }
    rewrite Hid'. cbn [orb]. unfold nonEmpty at 1. rewrite Hid'.
    assert (trimmedString (prop obj "sessionName")
            = match name with Some n => Js.trim n | None => "" end) as ->.
    { subst obj. unfold senderObject.
      destruct name as [n|]; cbn [fmap option_fmap option_map truthyOpt]; [|done].
      destruct (Js.truthy (Js.trim n)) eqn:Hn;
        cbn [fmap option_fmap option_map RpcResponse.optional app prop lookup].
      - change (Js.str_eqb "sessionId" "sessionName") with false.
        change (Js.str_eqb "sessionName" "sessionName") with true.
        cbn [trimmedString]. apply trim_idem.
      - change (Js.str_eqb "sessionId" "sessionName") with false.
        cbn [trimmedString]. unfold Js.truthy in Hn.
        apply negb_false_iff, str_eqb_eq in Hn. by rewrite Hn. }
    by destruct name.
  - unfold stripSenderInfo.
    destruct (String.length (message +:+ Js.LF +:+ Js.LF +:+ "<sender_info>" +:+ body
                             +:+ "</sender_info>")) as [|fuel] eqn:Elen.
    { rewrite !length_app_str in Elen. cbn in Elen. lia. }
    cbn [removeMatches]. rewrite Eshape, firstMatch_attached by done.
    assert (removeMatches fuel "" = "") as -> by by destruct fuel.
    rewrite app_empty_r, <- app_assoc_str.
    unfold Js.LF. by rewrite !trim_snoc.
Qed.

End SenderFacts.

Lemma sender_info_round_trip_witness :
  SenderInfo.parseSenderInfo parseText
    ("please review" +:+ SessionTool.senderInfo (Some "s1") (Some " worker1 "))
  = Some (SenderInfo.Make (Some "s1") (Some "worker1"))
  ∧ SenderInfo.formatSenderInfo
      (SenderInfo.parseSenderInfo parseText
         ("please review" +:+ SessionTool.senderInfo (Some "s1") (Some " worker1 ")))
    = Some "worker1 (s1)"
  ∧ SenderInfo.stripSenderInfo
      ("please review" +:+ SessionTool.senderInfo (Some "s1") (Some " worker1 "))
    = "please review".
Proof.
  apply (sender_info_round_trip parseText "please review" "s1" (Some " worker1 ")).
  - vm_compute. reflexivity.
  - reflexivity.
  - vm_compute. repeat split; discriminate.
  - intros n [= <-]. vm_compute. repeat split; discriminate.
  - discriminate.
Defined.

(** ** Legacy sender ids *)

Section LegacyFacts.
Import ControlSocket SenderInfo.

Lemma legacyId_unfold s :
  legacyId s
  = match (if startsWithWord s "session" then
             let rest := drop 7 s in
             let rest' := dropWhile Js.isWhiteSpace rest in
             if (String.length rest' <? String.length rest)%nat then
               let id := takeWhile isIdChar rest' in
               if (6 <=? String.length id)%nat then Some id else None
             else None
           else None) with
    | Some id => Some id
    | None => match s with
              | EmptyString => None
              | String _ s' => legacyId s'
              end
    end.
Proof. by destruct s. Qed.

Lemma takeWhile_lacks p c s : p c = false → lacks c (takeWhile p s).
Proof.
  intros Hc. induction s as [|d s IH]; [done|]. cbn [takeWhile].
  destruct (p d) eqn:Hd; [|done]. split; [congruence|done].
Qed.

Lemma lacks_includes c p s : lacks c s → Js.includes s (String c p) = false.
Proof.
  induction s as [|d s IH]; [done|]. intros [Hd Hs].
  cbn [Js.includes Js.startsWith]. rewrite IH by done.
  rewrite bool_decide_eq_false_2 by congruence. done.
Qed.

(** X20. The id that [parseSenderInfo] reads from a legacy sender tag is
    made of hexadecimal digits and hyphens, six or more, and so is always a
    path-safe session id. *)
Theorem legacy_sender_id_is_safe (text id : string)
    (Hlegacy : legacyId text = Some id) :
  isSafeSessionId id = true ∧ (6 ≤ String.length id)%nat.
Proof.
  induction text as [|c text IH].
  - rewrite legacyId_unfold in Hlegacy. done.
  - rewrite legacyId_unfold in Hlegacy.
    destruct (startsWithWord (String c text) "session"); [|by apply IH].
    cbv zeta in Hlegacy.
    remember (takeWhile isIdChar (dropWhile Js.isWhiteSpace (drop 7 (String c text))))
      as found eqn:Efound.
    destruct (String.length _ <? String.length _)%nat; [|by apply IH].
    destruct (6 <=? String.length found)%nat eqn:Hlen; [|by apply IH].
    injection Hlegacy as <-. apply Nat.leb_le in Hlen. split; [|done].
    unfold isSafeSessionId.
    rewrite !lacks_includes by (rewrite Efound; by apply takeWhile_lacks).
    cbn [negb andb]. apply Nat.ltb_lt. lia.
Qed.

End LegacyFacts.

Lemma legacy_sender_id_witness :
  ControlSocket.isSafeSessionId "3f2a-77b1" = true ∧ (6 ≤ String.length "3f2a-77b1")%nat.
Proof.
  apply (legacy_sender_id_is_safe "from Session  3f2a-77b1 (worker)" "3f2a-77b1").
  vm_compute. reflexivity.
Defined.

(** ** The model that summarizes *)

Section SummaryFacts.
Import Host ControlMessages ControlRpc Control ModelSelection.

(** The small model that has a usable key: Codex before Haiku. *)
Definition preferred (registry : ModelRegistry) : option Model :=
  match usable registry (find registry "openai-codex" CODEX_MODEL_ID) with
  | Some codexModel => Some codexModel
  | None => usable registry (find registry "anthropic" HAIKU_MODEL_ID)
  end.

Lemma usable_key registry candidate m :
  usable registry candidate = Some m →
  ∃ apiKey, getApiKey registry m = Some apiKey ∧ Js.truthy apiKey = true.
Proof.
  unfold usable. destruct candidate as [x|]; [|done].
  destruct (getApiKey registry x) as [k|] eqn:Hk; [|done].
  destruct (Js.truthy k) eqn:Ht; [|done]. intros [= <-]. by exists k.
Qed.

(** X21. When Codex or Haiku is registered with a non-empty API key,
    [get_summary] summarizes with that model and that key, Codex first, and
    never with the model of the session: the outcome is that of the one
    call of [complete], and a successful response names the model. *)
Theorem summary_uses_preferred_model (rt : Runtime) (state : SocketState)
    (ctx : ExtensionContext) (command : RpcCommand.t) (sock : nat) (m : Model)
    (Hctx : context state = Some ctx)
    (Htype : RpcCommand.type command = "get_summary")
    (Hmessages : getMessagesSinceLastPrompt ctx ≠ [])
    (Hpreferred : preferred (modelRegistry ctx) = Some m) :
  let id := asString (prop (RpcCommand.body command) "id") in
  let messages := getMessagesSinceLastPrompt ctx in
  selectSmallModel (model ctx) (modelRegistry ctx) = Some m
  ∧ ∃ apiKey,
      getApiKey (modelRegistry ctx) m = Some apiKey ∧ apiKey ≠ ""
      ∧ handleCommand rt state command sock
        = (state,
           match complete rt m SUMMARIZATION_SYSTEM_PROMPT (summaryRequest messages)
                   apiKey with
           | Completed stopReason content =>
               if Js.str_eqb stopReason "aborted" || Js.str_eqb stopReason "error"
               then [SyncAlias]
                    ++ respond state sock id false "get_summary" None
                         (Some "Summarization failed")
               else [SyncAlias]
                    ++ respond state sock id true "get_summary"
                         (Some (JObj [("summary", JStr (Js.join Js.LF (textParts content)));
                                      ("model", JStr (modelId m))]))
                         None
           | CompleteThrew message =>
               [SyncAlias;
                StderrWrite ("[control] Summarization failed: " +:+ message +:+ Js.LF)]
               ++ respond state sock id false "get_summary" None
                    (Some ("Summarization failed: " +:+ message))
           end).
Proof.
  intros id messages.
  assert (selectSmallModel (model ctx) (modelRegistry ctx) = Some m) as Hselect.
  { unfold selectSmallModel. unfold preferred in Hpreferred.
    destruct (usable _ (find _ "openai-codex" _)); [done|]. by rewrite Hpreferred. }
  assert (∃ apiKey, getApiKey (modelRegistry ctx) m = Some apiKey
                    ∧ Js.truthy apiKey = true) as (apiKey & Hkey & Htruthy).
  { unfold preferred in Hpreferred.
    destruct (usable _ (find _ "openai-codex" _)) as [c|] eqn:Hc.
    - injection Hpreferred as <-. by eapply usable_key.
    - by eapply usable_key. }
  split; [done|]. exists apiKey. split; [done|]. split; [by intros ->|].
  unfold handleCommand. rewrite Hctx, Htype.
  change (Js.str_eqb "get_summary" "abort") with false.
  change (Js.str_eqb "get_summary" "subscribe") with false.
  change (Js.str_eqb "get_summary" "get_message") with false.
  change (Js.str_eqb "get_summary" "get_summary") with true.
  cbv iota. fold messages. fold id.
  destruct messages as [|first rest] eqn:Em; [done|].
  rewrite Hselect, Hkey, Htruthy. cbn [negb].
  destruct (complete rt m _ _ apiKey) as [stopReason content|message]; [|done].
  by destruct (_ || _).
Qed.

End SummaryFacts.

Definition codexOnly : Host.ModelRegistry :=
  Host.MkRegistry
    (λ provider modelId,
       if Js.str_eqb provider "openai-codex" then Some (Host.MkModel provider modelId)
       else None)
    (λ _, Some "sk-test").

Lemma summary_uses_preferred_witness :
  ModelSelection.selectSmallModel None codexOnly
  = Some (Host.MkModel "openai-codex" ModelSelection.CODEX_MODEL_ID).
Proof.
  apply (summary_uses_preferred_model offline
           (serving (Host.MkContext true someBranch someBranch (Some "e3") "s1" None
                       Host.RewindMissing None codexOnly))
           (Host.MkContext true someBranch someBranch (Some "e3") "s1" None
              Host.RewindMissing None codexOnly)
           (bare "get_summary") 7).
  - reflexivity.
  - reflexivity.
  - vm_compute. discriminate.
  - reflexivity.
Defined.

(** ** A request, from the client to the dispatcher *)

Section RequestFacts.
Import ControlRpc Control.

Variable JSON_parse : string → parsed.

Lemma last_split_line text : List.last (Js.split "010" (text +:+ Js.LF)) "" = "".
Proof.
  unfold Js.LF. rewrite split_app_sep.
  change (Js.split "010" "") with [""].
  rewrite (cons_middle (List.last _ _)), app_assoc. apply last_last.
Qed.

Lemma parseCommand_object props type :
  JSON_parse (JSON.stringify (JObj props)) = Value (JObj props) →
  prop (JObj props) "type" = Some (JStr type) →
  parseCommand JSON_parse (JSON.stringify (JObj props))
  = Command (RpcCommand.Make type (JObj props)).
Proof. intros Hparse Htype. unfold parseCommand. by rewrite Hparse, Htype. Qed.

(** X22. What the client writes on connecting is what the server reads:
    for a command that is an object, the lines the server takes from the
    written text decode to the command, followed by the subscription to
    [turn_end] when the client waits for the end of the turn, and to nothing
    else. *)
Theorem request_round_trip (command : RpcCommand.t) (waitForEvent : bool)
    (props : list (string * json))
    (Hbody : RpcCommand.body command = JObj props)
    (Htype : prop (JObj props) "type" = Some (JStr (RpcCommand.type command)))
    (Hparse : JSON_parse (JSON.stringify (JObj props)) = Value (JObj props))
    (Hsubscribe : JSON_parse (JSON.stringify subscribeCmd) = Value subscribeCmd) :
  let written := sent (step JSON_parse command waitForEvent initial Connect) in
  map (parseCommand JSON_parse) (commandLines (Js.split "010" (received written)))
  = Command command
    :: (if waitForEvent then [Command (RpcCommand.Make "subscribe" subscribeCmd)] else []).
Proof.
  intros written. subst written. unfold step. cbn [settled initial sent app].
  rewrite Hbody.
  assert (Command command = Command (RpcCommand.Make (RpcCommand.type command) (JObj props)))
    as -> by (destruct command; cbn in *; by subst).
  destruct waitForEvent; cbn [received fold_right].
  - rewrite app_empty_r, commandLines_frame, last_split_line, app_empty_l.
    rewrite framed_object. unfold subscribeCmd at 1. rewrite framed_object.
    cbn [app map]. rewrite (parseCommand_object props _ Hparse Htype).
    f_equal. f_equal. by apply parseCommand_object.
  - rewrite app_empty_r, framed_object. cbn [map].
    by rewrite (parseCommand_object props _ Hparse Htype).
Qed.

End RequestFacts.

Lemma request_round_trip_witness :
  map (ControlRpc.parseCommand parseText)
    (commandLines
       (Js.split "010"
          (received (ControlRpc.sent
                       (ControlRpc.step parseText sendHello true ControlRpc.initial
                          ControlRpc.Connect)))))
  = [ControlRpc.Command sendHello;
     ControlRpc.Command (RpcCommand.Make "subscribe" ControlRpc.subscribeCmd)].
Proof.
  apply (request_round_trip parseText sendHello true
           [("type", JStr "send"); ("message", JStr "hello"); ("mode", JStr "follow_up")]).
  - reflexivity.
  - reflexivity.
  - vm_compute. reflexivity.
  - vm_compute. reflexivity.
Defined.

(** ** Creating an alias *)

Section CreateFacts.
Import Fs ControlSocket.

(** X23. [createAliasSymlink] never rejects, and it changes nothing but what
    is at the path of the alias: every other file, socket, directory and
    link is as it was.  At the path of the alias it leaves the new link,
    or, when the link could not be made, what was there or nothing.  For a
    name that is not path-safe it does nothing at all. *)
Theorem createAliasSymlink_touches_only_alias (homedir sessionId alias : string)
    (w : world) :
  ∃ w', createAliasSymlink homedir sessionId alias w = (Ok tt, w')
        ∧ (∀ q, q ≠ getAliasPath homedir alias → files w' !! q = files w !! q)
        ∧ (files w' !! getAliasPath homedir alias
             = Some (NSymlink (sessionId +:+ SOCKET_SUFFIX))
           ∨ files w' !! getAliasPath homedir alias = files w !! getAliasPath homedir alias
           ∨ files w' !! getAliasPath homedir alias = None)
        ∧ (isSafeAlias alias = false → w' = w).
Proof.
  unfold createAliasSymlink.
  destruct (isSafeAlias alias) eqn:Hsafe.
  2: { exists w. rewrite orb_true_r. repeat split; auto. }
  rewrite (safe_alias_truthy alias Hsafe). cbn [negb orb].
  set (p := getAliasPath homedir alias).
  unfold mbind, M_bind, bind.
  edestruct (unlink_caught p) as (w1 & -> & H1).
  edestruct (symlink_caught (sessionId +:+ SOCKET_SUFFIX) p) as (w2 & -> & H2).
  exists w2. split; [done|]. split; [|split; [|done]].
  - intros q Hq. destruct H2 as [-> | ->], H1 as [-> | ->];
      rewrite ?lookup_insert_ne, ?lookup_delete_ne by done; done.
  - destruct H2 as [-> | ->].
    + destruct H1 as [-> | ->]; [by right; left|]. right. right. apply lookup_delete_eq.
    + left. apply lookup_insert_eq.
Qed.

End CreateFacts.

(** ** The entry a [clear] rewinds to *)

Section FirstEntryFacts.
Import Host ControlMessages.

Lemma find_split {A} (p : A → bool) l x :
  List.find p l = Some x →
  ∃ before after, l = before ++ x :: after ∧ p x = true
                  ∧ ∀ y, y ∈ before → p y = false.
Proof.
  induction l as [|a l IH]; [done|]. cbn [List.find]. destruct (p a) eqn:Ha.
  - intros [= <-]. exists [], l. repeat split; try done. by intros ? ?%elem_of_nil.
  - intros Hfind. destruct (IH Hfind) as (before & after & -> & Hx & Hb).
    exists (a :: before), after. repeat split; try done.
    intros y [->|Hy]%elem_of_cons; [done|by apply Hb].
Qed.

(** X24. [getFirstEntryId] returns nothing exactly when the session has no
    entries.  Otherwise it returns the id of the first entry without a
    parent, or, when every entry has a parent, the id of the first entry. *)
Theorem first_entry_is_root_or_first (ctx : ExtensionContext) :
  match getFirstEntryId ctx with
  | None => getEntries ctx = []
  | Some entryId =>
      ∃ before entry after,
        getEntries ctx = before ++ entry :: after
        ∧ id entry = entryId
        ∧ (∀ x, x ∈ before → parentId x ≠ None)
        ∧ (parentId entry = None
           ∨ (before = [] ∧ ∀ x, x ∈ after → parentId x ≠ None))
  end.
Proof.
  unfold getFirstEntryId.
  destruct (getEntries ctx) as [|first rest] eqn:E; [done|].
  destruct (List.find _ (first :: rest)) as [root|] eqn:Hfind.
  - destruct (find_split _ _ _ Hfind) as (before & after & -> & Hroot & Hbefore).
    exists before, root, after. split; [done|]. split; [done|]. split.
    + intros x Hx. specialize (Hbefore x Hx). by apply bool_decide_eq_false in Hbefore.
    + left. by apply bool_decide_eq_true in Hroot.
  - exists [], first, rest. split; [done|]. split; [done|].
    split; [by intros ? ?%elem_of_nil|].
    right. split; [done|]. intros x Hx.
    assert (In x (first :: rest)) as Hin by (right; by apply list_elem_of_In).
    pose proof (find_none _ _ Hfind x Hin) as Hno.
    by apply bool_decide_eq_false in Hno.
Qed.

End FirstEntryFacts.

